(** * Question-generation pipeline of backend/routers/assignments.py

    A shallow embedding of the document-to-questions pipeline
    (chunk_text, get_embedding, cosine_similarity,
    retrieve_relevant_chunks, generate_question_batch and the per-type loop
    of generate_questions_from_pdf) together with the properties the
    specification states about it.

    Conventions.  Python integers are [Z]; a Python [str] is a list of
    characters, a character being one of the 256 code points of [ascii];
    Python floats are the binary64 numbers of [PrimFloat]; an exception is
    a value of [exn] returned through [res]; the module-level flag and the
    traffic with the two Ollama endpoints live in an explicit [World]
    threaded by a state-and-error monad. *)

From Stdlib Require Import Ascii String DecimalString.
From Stdlib Require Import List ZArith Lia Bool Floats Permutation.
Import ListNotations.
Open Scope Z_scope.

(** ** Python primitives *)

Module Py.

Definition str := list ascii.

Definition lit (s : string) : str := list_ascii_of_string s.

Definition len {A : Type} (l : list A) : Z := Z.of_nat (length l).

Definition is_empty {A : Type} (l : list A) : bool :=
  match l with [] => true | _ :: _ => false end.

Fixpoint str_eqb (a b : str) : bool :=
  match a, b with
  | [], [] => true
  | x :: a', y :: b' => Ascii.eqb x y && str_eqb a' b'
  | _, _ => false
  end.

(** Normalisation of a slice bound against a sequence of length [n]:
    a negative bound counts from the end, and the result is clamped to
    [0..n]. *)
Definition clamp (n i : Z) : Z :=
  if i <? 0 then Z.max 0 (i + n) else Z.min i n.

(** [l[lo:hi]] *)
Definition slice {A : Type} (l : list A) (lo hi : Z) : list A :=
  let a := clamp (len l) lo in
  let b := clamp (len l) hi in
  firstn (Z.to_nat (b - a)) (skipn (Z.to_nat a) l).

(** [l[:hi]] *)
Definition slice_to {A : Type} (l : list A) (hi : Z) : list A :=
  slice l 0 hi.

(** [sum(xs)] over integers. *)
Definition sum (xs : list Z) : Z := fold_left Z.add xs 0.

(** [range(n)] *)
Definition range (n : Z) : list Z := map Z.of_nat (seq 0 (Z.to_nat n)).

(** [str(n)] for an integer.  CPython 3.11 and later refuse to print an
    integer of more than [int_max_str_digits] digits (ValueError); the
    conversion here is the one below that limit, and a statement about a
    printed count bounds the count by it. *)
Definition str_of_int (n : Z) : str :=
  lit (NilZero.string_of_int (Z.to_int n)).

(** [sys.int_info.default_max_str_digits] *)
Definition int_max_str_digits : Z := 4300.

(** [sep.join(parts)] *)
Fixpoint join (sep : str) (parts : list str) : str :=
  match parts with
  | [] => []
  | [p] => p
  | p :: rest => p ++ sep ++ join sep rest
  end.

(** [s.split(c)] for a one-character separator: the pieces between the
    occurrences of [c]; the empty string gives one empty piece. *)
Fixpoint split_on (c : ascii) (s : str) : list str :=
  match s with
  | [] => [[]]
  | x :: s' =>
      if Ascii.eqb x c then [] :: split_on c s'
      else match split_on c s' with
           | [] => [[x]]
           | p :: ps => (x :: p) :: ps
           end
  end.

Definition code (c : ascii) : Z := Z.of_nat (nat_of_ascii c).

Definition between (lo hi : Z) (c : ascii) : bool :=
  (lo <=? code c) && (code c <=? hi).

(** [c.isspace()] on the code points below 256. *)
Definition is_space (c : ascii) : bool :=
  between 9 13 c || between 28 32 c || (code c =? 133) || (code c =? 160).

Definition shift (d : Z) (c : ascii) : ascii :=
  ascii_of_nat (Z.to_nat (code c + d)).

(** [c.lower()]: the ASCII capitals and the Latin-1 capitals. *)
Definition lower_char (c : ascii) : ascii :=
  if between 65 90 c || between 192 214 c || between 216 222 c
  then shift 32 c else c.

(** [c.upper()] where the result stays below 256: the ASCII and Latin-1
    small letters. *)
Definition upper_char (c : ascii) : ascii :=
  if between 97 122 c || between 224 246 c || between 248 254 c
  then shift (-32) c else c.

Definition lower (s : str) : str := map lower_char s.
Definition upper (s : str) : str := map upper_char s.

(** [s.capitalize()] *)
Definition capitalize (s : str) : str :=
  match s with
  | [] => []
  | c :: s' => upper_char c :: lower s'
  end.

Fixpoint lstrip (s : str) : str :=
  match s with
  | c :: s' => if is_space c then lstrip s' else s
  | [] => []
  end.

Definition rstrip (s : str) : str := rev (lstrip (rev s)).

(** [s.strip()] *)
Definition strip (s : str) : str := rstrip (lstrip s).

(** ** Exceptions *)

Inductive exn_class :=
| ConnectError        (* httpx.ConnectError *)
| HttpxTimeout        (* httpx.TimeoutException and its subclasses *)
| AsyncioTimeout      (* asyncio.TimeoutError *)
| AttributeError
| KeyError
| IndexError
| ValueError
| ZeroDivisionError
| HTTPException (status_code : Z)   (* fastapi.HTTPException *)
| OtherError.         (* any other subclass of Exception *)

Record exn := Exn { exn_cls : exn_class; exn_msg : str }.

Definition is_connect_error (e : exn) : bool :=
  match exn_cls e with ConnectError => true | _ => false end.

Definition is_httpx_timeout (e : exn) : bool :=
  match exn_cls e with HttpxTimeout => true | _ => false end.

Definition is_asyncio_timeout (e : exn) : bool :=
  match exn_cls e with AsyncioTimeout => true | _ => false end.

Definition is_http_exception (e : exn) : bool :=
  match exn_cls e with HTTPException _ => true | _ => false end.

Inductive res (A : Type) :=
| Ok (a : A)
| Raise (e : exn).

Arguments Ok {A} a.
Arguments Raise {A} e.

Definition res_bind {A B : Type} (r : res A) (f : A -> res B) : res B :=
  match r with
  | Ok a => f a
  | Raise e => Raise e
  end.

(** [l[i]], with Python's negative indices and IndexError. *)
Definition index {A : Type} (l : list A) (i : Z) : res A :=
  let j := if i <? 0 then i + len l else i in
  if (0 <=? j) && (j <? len l) then
    match nth_error l (Z.to_nat j) with
    | Some a => Ok a
    | None => Raise (Exn IndexError (lit "list index out of range"))
    end
  else Raise (Exn IndexError (lit "list index out of range")).

(** [a // b] *)
Definition floordiv (a b : Z) : res Z :=
  if b =? 0 then Raise (Exn ZeroDivisionError (lit "integer division or modulo by zero"))
  else Ok (a / b).

(** A list comprehension whose element expression can raise. *)
Fixpoint comprehension {A B : Type} (f : A -> res B) (l : list A)
    : res (list B) :=
  match l with
  | [] => Ok []
  | a :: l' =>
      res_bind (f a) (fun b =>
      res_bind (comprehension f l') (fun bs => Ok (b :: bs)))
  end.

(** A dict with insertion order, as an association list. *)
Definition dict (V : Type) := list (str * V).

Fixpoint dict_get {V : Type} (d : dict V) (k : str) : option V :=
  match d with
  | [] => None
  | (k', v) :: d' => if str_eqb k' k then Some v else dict_get d' k
  end.

(** [d[k] = v] *)
Fixpoint dict_set {V : Type} (d : dict V) (k : str) (v : V) : dict V :=
  match d with
  | [] => [(k, v)]
  | (k', v') :: d' =>
      if str_eqb k' k then (k', v) :: d' else (k', v') :: dict_set d' k v
  end.

(** [d[k]] *)
Definition dict_item {V : Type} (d : dict V) (k : str) : res V :=
  match dict_get d k with
  | Some v => Ok v
  | None => Raise (Exn KeyError k)
  end.

(** [x in l] for a list of strings. *)
Definition mem (x : str) (l : list str) : bool := existsb (str_eqb x) l.

(** [s.add(x)] on a set of strings kept as a duplicate-free list. *)
Definition set_add (x : str) (s : list str) : list str :=
  if mem x s then s else s ++ [x].

(** ** Floats *)

(** [sum(xs)] over floats: the start value is the integer 0, which the
    first addition converts to [0.0]; the terms are added from left to
    right. *)
Definition fsum (xs : list float) : float :=
  fold_left PrimFloat.add xs 0%float.

(** [math.sqrt(x)], which raises ValueError below zero. *)
Definition math_sqrt (x : float) : res float :=
  if (x <? 0)%float then Raise (Exn ValueError (lit "math domain error"))
  else Ok (PrimFloat.sqrt x).

(** [x / y], which raises ZeroDivisionError when [y == 0]. *)
Definition truediv (x y : float) : res float :=
  if (y =? 0)%float then Raise (Exn ZeroDivisionError (lit "float division by zero"))
  else Ok (x / y)%float.

End Py.

Import Py.

(** ** A backtracking matcher for the regular expressions of the module *)

Module Re.

(** The constructs the module's patterns use.  Repetition only ever
    applies to a one-character class there ([\s*], [.+?]), so the two
    repetition constructors take a character predicate; one capture group
    is enough for every pattern. *)
Inductive regex :=
| Eps
| Chr (p : ascii -> bool)      (* one character satisfying [p] *)
| Seq (r1 r2 : regex)
| Alt (r1 r2 : regex)          (* r1|r2, r1 tried first *)
| Opt (r : regex)              (* r?, greedy *)
| Star (p : ascii -> bool)     (* p*, greedy *)
| PlusLazy (p : ascii -> bool) (* p+?, lazy *)
| Group (r : regex)            (* (r), group 1 *)
| Ahead (r : regex)            (* (?=r) *)
| Bos                          (* ^ without MULTILINE *)
| Eos.                         (* $ without MULTILINE *)

(** Span of group 1, as absolute positions. *)
Definition caps := option (nat * nat).

(** Result of a match attempt: end position and group 1. *)
Definition mres := option (nat * caps).

(** A continuation takes the position reached, the text left there and
    the captures so far. *)
Definition cont := nat -> str -> caps -> mres.

Definition finish : cont := fun pos _ c => Some (pos, c).

Fixpoint star_greedy (p : ascii -> bool) (k : cont) (pos : nat) (rest : str)
    (c : caps) : mres :=
  match rest with
  | x :: rest' =>
      if p x then
        match star_greedy p k (S pos) rest' c with
        | Some m => Some m
        | None => k pos rest c
        end
      else k pos rest c
  | [] => k pos rest c
  end.

Fixpoint star_lazy (p : ascii -> bool) (k : cont) (pos : nat) (rest : str)
    (c : caps) : mres :=
  match k pos rest c with
  | Some m => Some m
  | None =>
      match rest with
      | x :: rest' => if p x then star_lazy p k (S pos) rest' c else None
      | [] => None
      end
  end.

Definition newline : ascii := ascii_of_nat 10.

Fixpoint run (r : regex) (k : cont) (pos : nat) (rest : str) (c : caps)
    : mres :=
  match r with
  | Eps => k pos rest c
  | Chr p =>
      match rest with
      | x :: rest' => if p x then k (S pos) rest' c else None
      | [] => None
      end
  | Seq r1 r2 => run r1 (run r2 k) pos rest c
  | Alt r1 r2 =>
      match run r1 k pos rest c with
      | Some m => Some m
      | None => run r2 k pos rest c
      end
  | Opt r1 =>
      match run r1 k pos rest c with
      | Some m => Some m
      | None => k pos rest c
      end
  | Star p => star_greedy p k pos rest c
  | PlusLazy p =>
      match rest with
      | x :: rest' => if p x then star_lazy p k (S pos) rest' c else None
      | [] => None
      end
  | Group r1 =>
      run r1 (fun pos' rest' _ => k pos' rest' (Some (pos, pos'))) pos rest c
  | Ahead r1 =>
      match run r1 finish pos rest c with
      | Some (_, c') => k pos rest c'
      | None => None
      end
  | Bos => if Nat.eqb pos 0 then k pos rest c else None
  | Eos =>
      match rest with
      | [] => k pos rest c
      | [x] => if Ascii.eqb x newline then k pos rest c else None
      | _ => None
      end
  end.

(** A match object: start, end and group 1. *)
Record match_ := Match { m_start : nat; m_end : nat; m_caps : caps }.

(** The leftmost match starting at [pos] or later; [rest] is the text
    from [pos] on. *)
Fixpoint search_from (r : regex) (pos : nat) (rest : str) : option match_ :=
  match run r finish pos rest None with
  | Some (e, c) => Some (Match pos e c)
  | None =>
      match rest with
      | [] => None
      | _ :: rest' => search_from r (S pos) rest'
      end
  end.

(** [re.search(r, s)] *)
Definition search (r : regex) (s : str) : option match_ :=
  search_from r 0 s.

(** [m.group(1)] for a match in [s] whose group took part in it. *)
Definition group1 (s : str) (m : match_) : str :=
  match m_caps m with
  | Some (a, b) => firstn (b - a) (skipn a s)
  | None => []
  end.

(** [re.split(r, s)] for a pattern without groups whose matches are never
    empty: the pieces of [s] between successive matches.  [last] is the
    end of the previous match; at most [fuel] matches are taken. *)
Fixpoint split_from (fuel : nat) (r : regex) (s : str) (last : nat)
    : list str :=
  match fuel with
  | O => [skipn last s]
  | S fuel' =>
      match search_from r last (skipn last s) with
      | Some m =>
          if Nat.ltb (m_start m) (m_end m) then
            firstn (m_start m - last) (skipn last s)
              :: split_from fuel' r s (m_end m)
          else [skipn last s]
      | None => [skipn last s]
      end
  end.

Definition split (r : regex) (s : str) : list str :=
  split_from (S (length s)) r s 0.

(** *** Pattern building blocks *)

(** A literal character under IGNORECASE. *)
Definition ci (c : ascii) : regex :=
  Chr (fun x => Ascii.eqb (lower_char x) (lower_char c)).

(** A literal character that has no case. *)
Definition ch (c : ascii) : regex := Chr (Ascii.eqb c).

(** A literal word under IGNORECASE. *)
Fixpoint word_ci (w : str) : regex :=
  match w with
  | [] => Eps
  | [c] => ci c
  | c :: w' => Seq (ci c) (word_ci w')
  end.

(** [.] under DOTALL. *)
Definition any_char : ascii -> bool := fun _ => true.

(** [[A-D]] under IGNORECASE. *)
Definition opt_letter : regex :=
  Chr (fun x => between 97 100 (lower_char x)).

Definition nl : regex := ch newline.

(** [\n[A-D]\)] *)
Definition next_option : regex := Seq nl (Seq opt_letter (ch ")")).

(** [ANSWER:] and [Q:] *)
Definition answer_mark : regex := word_ci (lit "ANSWER:").
Definition q_mark : regex := word_ci (lit "Q:").

(** [\n?Q:\s*], IGNORECASE *)
Definition split_pat : regex :=
  Seq (Opt nl) (Seq q_mark (Star is_space)).

(** [^(.+?)(?=\n[A-D]\))], DOTALL | IGNORECASE *)
Definition mcq_question_pat : regex :=
  Seq Bos (Seq (Group (PlusLazy any_char)) (Ahead next_option)).

(** [{letter}\)\s*(.+?)(?=\n[A-D]\)|ANSWER:|Q:|$)], DOTALL | IGNORECASE *)
Definition option_pat (letter : ascii) : regex :=
  Seq (ci letter) (Seq (ch ")") (Seq (Star is_space)
    (Seq (Group (PlusLazy any_char))
         (Ahead (Alt next_option (Alt answer_mark (Alt q_mark Eos))))))).

(** [ANSWER:\s*([A-D])], IGNORECASE *)
Definition mcq_answer_pat : regex :=
  Seq answer_mark (Seq (Star is_space) (Group opt_letter)).

(** [^(.+?)(?=ANSWER:|Q:|$)], DOTALL | IGNORECASE *)
Definition statement_pat : regex :=
  Seq Bos (Seq (Group (PlusLazy any_char))
               (Ahead (Alt answer_mark (Alt q_mark Eos)))).

(** [ANSWER:\s*(True|False)], IGNORECASE *)
Definition tf_answer_pat : regex :=
  Seq answer_mark (Seq (Star is_space)
    (Group (Alt (word_ci (lit "True")) (word_ci (lit "False"))))).

(** [ANSWER:\s*(.+?)(?=Q:|$)], DOTALL | IGNORECASE *)
Definition sa_answer_pat : regex :=
  Seq answer_mark (Seq (Star is_space)
    (Seq (Group (PlusLazy any_char)) (Ahead (Alt q_mark Eos)))).

End Re.

(** ** chunk_text *)

Section Chunker.

Context {A : Type}.

(** The [while start < len(text)] loop.  [fuel] bounds the number of
    iterations; [None] means that the bound was reached with the loop
    still running. *)
Fixpoint chunk_loop (fuel : nat) (text : list A) (chunk_size overlap : Z)
    (start : Z) (chunks : list (list A)) : option (list (list A)) :=
  match fuel with
  | O => None
  | S fuel' =>
      if start <? len text then
        let end_ := Z.min (start + chunk_size) (len text) in
        let chunk := slice text start end_ in
        let chunks := chunks ++ [chunk] in
        if end_ >=? len text then Some chunks
        else chunk_loop fuel' text chunk_size overlap (end_ - overlap) chunks
      else Some chunks
  end.

Definition chunk_text (fuel : nat) (text : list A) (chunk_size overlap : Z)
    : option (list (list A)) :=
  if len text <=? chunk_size then Some [text]
  else chunk_loop fuel text chunk_size overlap 0 [].

(** The same loop, recording the bounds [(start, end)] of every window
    instead of its content. *)
Fixpoint window_loop (fuel : nat) (n chunk_size overlap : Z)
    (start : Z) (windows : list (Z * Z)) : option (list (Z * Z)) :=
  match fuel with
  | O => None
  | S fuel' =>
      if start <? n then
        let end_ := Z.min (start + chunk_size) n in
        let windows := windows ++ [(start, end_)] in
        if end_ >=? n then Some windows
        else window_loop fuel' n chunk_size overlap (end_ - overlap) windows
      else Some windows
  end.

Definition chunk_windows (fuel : nat) (n chunk_size overlap : Z)
    : option (list (Z * Z)) :=
  if n <=? chunk_size then Some [(0, n)]
  else window_loop fuel n chunk_size overlap 0 [].

Definition cut (text : list A) (w : Z * Z) : list A :=
  slice text (fst w) (snd w).

(** [l[a:b]] for natural bounds. *)
Definition seg (l : list A) (a b : nat) : list A :=
  firstn (b - a) (skipn a l).

(** The windows the loop lays out from [start] on, when
    [0 <= overlap < chunk_size]: full windows, each starting [overlap]
    before the end of the previous one, closed by the one that reaches
    the end of the text. *)
Inductive windows_from (n chunk_size overlap : Z) : Z -> list (Z * Z) -> Prop :=
| windows_last (s : Z) :
    s < n -> n <= s + chunk_size ->
    windows_from n chunk_size overlap s [(s, n)]
| windows_more (s : Z) (ws : list (Z * Z)) :
    s + chunk_size < n ->
    windows_from n chunk_size overlap (s + chunk_size - overlap) ws ->
    windows_from n chunk_size overlap s ((s, s + chunk_size) :: ws).

(** Each window starts [overlap] before the end of the previous one. *)
Fixpoint stepped (overlap : Z) (ws : list (Z * Z)) : Prop :=
  match ws with
  | w1 :: ((w2 :: _) as rest) =>
      fst w2 = snd w1 - overlap /\ stepped overlap rest
  | _ => True
  end.

(** The last [k] elements of a sequence (all of it when it is shorter). *)
Definition suffix (k : Z) (l : list A) : list A :=
  skipn (length l - Z.to_nat k) l.

(** Round trip in the specification's words: the suffix of length
    [chunk_size - overlap] of every chunk, concatenated. *)
Definition suffix_roundtrip (chunk_size overlap : Z)
    (chunks : list (list A)) : list A :=
  concat (map (suffix (chunk_size - overlap)) chunks).

(** Round trip along the windows: the first chunk whole, every later
    chunk without its leading [overlap] characters. *)
Definition prefix_roundtrip (overlap : Z) (chunks : list (list A))
    : list A :=
  match chunks with
  | [] => []
  | c :: rest => c ++ concat (map (skipn (Z.to_nat overlap)) rest)
  end.

(** Each chunk but the last ends with the [overlap] characters the next
    one starts with. *)
Fixpoint overlapping (overlap : Z) (chunks : list (list A)) : Prop :=
  match chunks with
  | c1 :: ((c2 :: _) as rest) =>
      suffix overlap c1 = firstn (Z.to_nat overlap) c2 /\
      Z.to_nat overlap <= length c1 /\ Z.to_nat overlap <= length c2 /\
      overlapping overlap rest
  | _ => True
  end%nat.

End Chunker.

(** ** Quota planning (step 5 and the head of the per-type loop) *)

Definition questions_per_type {T : Type} (num_questions : Z)
    (normalized_types : list T) : Z :=
  Z.max 1 (num_questions / len normalized_types).

Definition remaining0 {T : Type} (num_questions : Z)
    (normalized_types : list T) : Z :=
  num_questions mod len normalized_types.

(** The head of one loop iteration: the count asked of this type and the
    remainder left for the later ones. *)
Definition next_quota (per_type remaining : Z) : Z * Z :=
  if remaining >? 0 then (per_type + 1, remaining - 1)
  else (per_type, remaining).

Fixpoint quota_walk {T : Type} (types : list T) (per_type remaining : Z)
    : list Z :=
  match types with
  | [] => []
  | _ :: rest =>
      let '(n, remaining') := next_quota per_type remaining in
      n :: quota_walk rest per_type remaining'
  end.

(** The counts the loop asks for, in the order of the types. *)
Definition plan {T : Type} (num_questions : Z) (normalized_types : list T)
    : list Z :=
  quota_walk normalized_types
    (questions_per_type num_questions normalized_types)
    (remaining0 num_questions normalized_types).

Definition three_types : list str :=
  [lit "mcq"; lit "truefalse"; lit "shortanswer"].

(** ** The world: the module's global and the two Ollama endpoints *)

(** Body of an HTTP 200 answer, as far as the code looks into it. *)
Inductive json_body (A : Type) :=
| JsonInvalid              (* response.json() raises *)
| JsonNotObject            (* valid JSON, but not an object: .get raises *)
| JsonObject (field : option A). (* an object; the looked-up field, if any *)

Arguments JsonInvalid {A}.
Arguments JsonNotObject {A}.
Arguments JsonObject {A} field.

(** What a POST comes back with. *)
Inductive reply (A : Type) :=
| Response (status_code : Z) (body : json_body A)
| Throws (e : exn)         (* the client raises *)
| Hangs.                   (* no answer before the outer deadline *)

Arguments Response {A} status_code body.
Arguments Throws {A} e.
Arguments Hangs {A}.

(** The environment answers the [n]-th request to an endpoint, given the
    prompt sent.  The [embedding] field of an embeddings answer is a list
    of binary64 numbers, as Ollama sends it: an answer whose field holds
    other JSON (integers, strings) is outside the replies modelled.
    [httpx_has_TimeoutError] tells whether the name [httpx.TimeoutError],
    which one handler mentions, exists in the installed httpx. *)
Record Env := {
  embeddings_reply : nat -> str -> reply (list float);
  generate_reply : nat -> str -> reply str;
  httpx_has_TimeoutError : bool
}.

Record World := {
  _embeddings_api_failed : bool;  (* the module-level flag *)
  embeddings_posts : list str;    (* prompts POSTed to /api/embeddings *)
  generate_posts : list str       (* prompts POSTed to /api/generate *)
}.

Definition initial_world : World :=
  {| _embeddings_api_failed := false; embeddings_posts := [];
     generate_posts := [] |}.

Definition trip (w : World) : World :=
  {| _embeddings_api_failed := true;
     embeddings_posts := embeddings_posts w;
     generate_posts := generate_posts w |}.

Definition post_embeddings (prompt : str) (w : World) : World :=
  {| _embeddings_api_failed := _embeddings_api_failed w;
     embeddings_posts := embeddings_posts w ++ [prompt];
     generate_posts := generate_posts w |}.

Definition post_generate (prompt : str) (w : World) : World :=
  {| _embeddings_api_failed := _embeddings_api_failed w;
     embeddings_posts := embeddings_posts w;
     generate_posts := generate_posts w ++ [prompt] |}.

(** Computations that read and write the world and may raise. *)
Definition M (A : Type) := World -> res A * World.

Definition ret {A : Type} (a : A) : M A := fun w => (Ok a, w).

Definition raise {A : Type} (e : exn) : M A := fun w => (Raise e, w).

Definition bind {A B : Type} (m : M A) (f : A -> M B) : M B :=
  fun w =>
    match m w with
    | (Ok a, w') => f a w'
    | (Raise e, w') => (Raise e, w')
    end.

Definition lift {A : Type} (r : res A) : M A := fun w => (r, w).

(** [try: m  except Exception as e: h e] *)
Definition try_except {A : Type} (m : M A) (h : exn -> M A) : M A :=
  fun w =>
    match m w with
    | (Ok a, w') => (Ok a, w')
    | (Raise e, w') => h e w'
    end.

Declare Scope py_scope.
Delimit Scope py_scope with py.
Notation "x <- m ;; k" := (bind m (fun x => k))
  (at level 61, m at next level, right associativity) : py_scope.
Open Scope py_scope.

(** ** get_embedding *)

(** The part of the answer that makes the call fail: a status other than
    200, a body that [response.json()] or [.get] rejects, or an exception
    of the client. *)
Definition embedding_of_reply (r : reply (list float))
    : option (list float) :=
  match r with
  | Response status_code body =>
      if status_code =? 200 then
        match body with
        | JsonObject (Some embedding) => Some embedding
        | JsonObject None => Some []      (* result.get("embedding", []) *)
        | JsonInvalid | JsonNotObject => None
        end
      else None
  | Throws _ => None
  | Hangs => None                         (* the 2 s timeout raises *)
  end.

(** A call that fails: a status other than 200, or an exception (raised
    by the client, by its timeout, or while reading the body). *)
Definition call_fails (r : reply (list float)) : Prop :=
  match r with
  | Response status_code body =>
      status_code <> 200 \/ body = JsonInvalid \/ body = JsonNotObject
  | Throws _ => True
  | Hangs => True
  end.

Definition get_embedding (env : Env) (text : str) : M (list float) :=
  fun w =>
    if _embeddings_api_failed w then (Ok [], w)
    else
      let prompt := slice_to text 2000 in
      let n := length (embeddings_posts w) in
      let w1 := post_embeddings prompt w in
      match embedding_of_reply (embeddings_reply env n prompt) with
      | Some embedding => (Ok embedding, w1)
      | None => (Ok [], trip w1)
      end.

(** ** cosine_similarity *)

Definition dot_product (vec1 vec2 : list float) : float :=
  fsum (map (fun ab => (fst ab * snd ab)%float) (combine vec1 vec2)).

Definition sum_squares (vec : list float) : float :=
  fsum (map (fun a => (a * a)%float) vec).

Definition cosine_similarity (vec1 vec2 : list float) : res float :=
  if is_empty vec1 || is_empty vec2
     || negb (Nat.eqb (length vec1) (length vec2))
  then Ok 0%float
  else
    let dot := dot_product vec1 vec2 in
    res_bind (math_sqrt (sum_squares vec1)) (fun magnitude1 =>
    res_bind (math_sqrt (sum_squares vec2)) (fun magnitude2 =>
    if (magnitude1 =? 0)%float || (magnitude2 =? 0)%float then Ok 0%float
    else truediv dot (magnitude1 * magnitude2)%float)).

(** A vector whose computed magnitude compares equal to zero. *)
Definition zero_magnitude (vec : list float) : Prop :=
  (PrimFloat.sqrt (sum_squares vec) =? 0)%float = true.

(** The inputs for which no cosine is defined. *)
Definition degenerate (vec1 vec2 : list float) : Prop :=
  vec1 = [] \/ vec2 = [] \/ length vec1 <> length vec2 \/
  zero_magnitude vec1 \/ zero_magnitude vec2.

(** ** retrieve_relevant_chunks *)

(** The fallback of an empty query embedding. *)
Definition evenly_distributed (chunks : list str) (top_k : Z)
    : res (list str) :=
  if len chunks <=? top_k then Ok chunks
  else
    res_bind (floordiv (len chunks) top_k) (fun step =>
    comprehension (fun i => index chunks (i * step)) (range top_k)).

(** The loop that embeds every chunk, in order. *)
Fixpoint embed_chunks (env : Env) (i : Z) (chunks : list str)
    : M (list (Z * str * list float)) :=
  match chunks with
  | [] => ret []
  | chunk :: rest =>
      embedding <- get_embedding env chunk ;;
      more <- embed_chunks env (i + 1) rest ;;
      ret ((i, chunk, embedding) :: more)
  end.

(** The loop that scores every embedded chunk. *)
Fixpoint score_chunks (query_embedding : list float)
    (chunk_embeddings : list (Z * str * list float))
    : res (list (float * Z * str)) :=
  match chunk_embeddings with
  | [] => Ok []
  | (idx, chunk, embedding) :: rest =>
      res_bind
        (if is_empty embedding then Ok 0%float
         else cosine_similarity query_embedding embedding)
        (fun similarity =>
      res_bind (score_chunks query_embedding rest) (fun more =>
      Ok ((similarity, idx, chunk) :: more)))
  end.

(** [similarities.sort(reverse=True, key=lambda x: x[0])]: a stable sort
    by decreasing key, written as the insertion sort that agrees with it
    whenever the keys are comparable (no NaN among them). *)
Fixpoint insert_desc (x : float * Z * str) (l : list (float * Z * str))
    : list (float * Z * str) :=
  match l with
  | [] => [x]
  | y :: l' =>
      if (fst (fst x) <? fst (fst y))%float then y :: insert_desc x l'
      else x :: l
  end.

Definition sort_desc (l : list (float * Z * str)) : list (float * Z * str) :=
  fold_right insert_desc [] l.

Definition retrieve_relevant_chunks (env : Env) (chunks : list str)
    (query : str) (top_k : Z) : M (list str) :=
  query_embedding <- get_embedding env query ;;
  if is_empty query_embedding then lift (evenly_distributed chunks top_k)
  else
    chunk_embeddings <- embed_chunks env 0 chunks ;;
    similarities <- lift (score_chunks query_embedding chunk_embeddings) ;;
    ret (map snd (slice_to (sort_desc similarities) top_k)).

(** ** generate_question_batch *)

Definition unlines (ls : list str) : str := join [Re.newline] ls.

(** The six prompt templates. *)
Definition prompt_for (q_type : str) (include_answers : bool)
    (num_questions : Z) (chunk : str) : str :=
  let n := str_of_int num_questions in
  let text := lit "Text: " ++ slice_to chunk 1500 in
  if str_eqb (lower q_type) (lit "mcq") then
    if include_answers then
      unlines
        [lit "Create " ++ n ++ lit " multiple choice questions from this text.";
         [];
         lit "For each question, use this EXACT format:";
         lit "Q: [question text]";
         lit "A) [option]"; lit "B) [option]"; lit "C) [option]";
         lit "D) [option]";
         lit "ANSWER: [A/B/C/D]";
         [];
         text]
    else
      unlines
        [lit "Create " ++ n ++ lit " multiple choice questions from this text.";
         [];
         lit "For each question, use this EXACT format:";
         lit "Q: [question text]";
         lit "A) [option]"; lit "B) [option]"; lit "C) [option]";
         lit "D) [option]";
         [];
         text]
  else if str_eqb (lower q_type) (lit "truefalse") then
    if include_answers then
      unlines
        [lit "Create " ++ n ++ lit " true/false statements from this text.";
         [];
         lit "For each, use this EXACT format:";
         lit "Q: [statement]";
         lit "ANSWER: True";
         lit "(or)";
         lit "Q: [statement]";
         lit "ANSWER: False";
         [];
         text]
    else
      unlines
        [lit "Create " ++ n ++ lit " true/false statements from this text.";
         [];
         lit "For each, use this EXACT format:";
         lit "Q: [statement]";
         [];
         text]
  else
    if include_answers then
      unlines
        [lit "Create " ++ n ++ lit " short answer questions from this text.";
         [];
         lit "For each, use this EXACT format:";
         lit "Q: [question]";
         lit "ANSWER: [brief answer]";
         [];
         text]
    else
      unlines
        [lit "Create " ++ n ++ lit " short answer questions from this text.";
         [];
         lit "For each, use this EXACT format:";
         lit "Q: [question]";
         [];
         text].

Definition option_letters : list ascii :=
  ["A"%char; "B"%char; "C"%char; "D"%char].

(** The region of one option letter in a segment, if the letter's pattern
    matches there. *)
Definition find_option (letter : ascii) (part : str) : option str :=
  match Re.search (Re.option_pat letter) part with
  | Some opt_match => Some (strip (Re.group1 part opt_match))
  | None => None
  end.

(** The loop that fills the [options] dict. *)
Definition collect_options (part : str) : dict str :=
  fold_left
    (fun options letter =>
       match find_option letter part with
       | Some text => dict_set options [letter] text
       | None => options
       end)
    option_letters [].

(** The loop that prints the four options; [options[letter]] raises
    KeyError on a missing key. *)
Fixpoint format_options (options : dict str) (letters : list ascii)
    (formatted : str) : res str :=
  match letters with
  | [] => Ok formatted
  | letter :: rest =>
      res_bind (dict_item options [letter]) (fun text =>
      format_options options rest
        (formatted ++ [letter] ++ lit ") " ++ text ++ [Re.newline]))
  end.

(** The body of the [try] for one segment: [Ok None] when the segment
    yields no question, [Ok (Some q)] when it yields [q]. *)
Definition parse_mcq (include_answers : bool) (part : str)
    : res (option str) :=
  match Re.search Re.mcq_question_pat part with
  | None => Ok None
  | Some q_match =>
      let question_text := strip (Re.group1 part q_match) in
      let options := collect_options part in
      if len options =? 4 then
        res_bind
          (format_options options option_letters
             (lit "Question: " ++ question_text ++ [Re.newline]))
          (fun formatted =>
        let formatted :=
          if include_answers then
            match Re.search Re.mcq_answer_pat part with
            | Some ans_match =>
                formatted ++ lit "Correct Answer: "
                  ++ upper (Re.group1 part ans_match)
            | None => formatted
            end
          else formatted in
        Ok (Some (strip formatted)))
      else Ok None
  end.

Definition parse_truefalse (include_answers : bool) (part : str)
    : res (option str) :=
  match Re.search Re.statement_pat part with
  | None => Ok None
  | Some stmt_match =>
      let statement := strip (Re.group1 part stmt_match) in
      let formatted := lit "Question: " ++ statement in
      let formatted :=
        if include_answers then
          match Re.search Re.tf_answer_pat part with
          | Some ans_match =>
              formatted ++ [Re.newline] ++ lit "Answer: "
                ++ capitalize (Re.group1 part ans_match)
          | None => formatted
          end
        else formatted in
      Ok (Some formatted)
  end.

Definition parse_shortanswer (include_answers : bool) (part : str)
    : res (option str) :=
  match Re.search Re.statement_pat part with
  | None => Ok None
  | Some q_match =>
      let question_text := strip (Re.group1 part q_match) in
      let formatted := lit "Question: " ++ question_text in
      let formatted :=
        if include_answers then
          match Re.search Re.sa_answer_pat part with
          | Some ans_match =>
              formatted ++ [Re.newline] ++ lit "Answer: "
                ++ strip (Re.group1 part ans_match)
          | None => formatted
          end
        else formatted in
      Ok (Some formatted)
  end.

Definition parse_part (q_type : str) (include_answers : bool) (part : str)
    : res (option str) :=
  if str_eqb (lower q_type) (lit "mcq") then parse_mcq include_answers part
  else if str_eqb (lower q_type) (lit "truefalse")
  then parse_truefalse include_answers part
  else parse_shortanswer include_answers part.

(** [for part in parts[1:]] with its [try ... except Exception: continue]. *)
Fixpoint parse_parts (q_type : str) (include_answers : bool)
    (parts : list str) (questions : list str) : list str :=
  match parts with
  | [] => questions
  | part :: rest =>
      if is_empty (strip part) then
        parse_parts q_type include_answers rest questions
      else
        match parse_part q_type include_answers part with
        | Ok (Some formatted) =>
            parse_parts q_type include_answers rest (questions ++ [formatted])
        | Ok None => parse_parts q_type include_answers rest questions
        | Raise _ => parse_parts q_type include_answers rest questions
        end
  end.

(** From the response text to the returned questions. *)
Definition parse_response (q_type : str) (include_answers : bool)
    (num_questions : Z) (response_text : str) : list str :=
  let parts := Re.split Re.split_pat response_text in
  let questions := parse_parts q_type include_answers (skipn 1 parts) [] in
  slice_to questions num_questions.

(** How a coroutine under [asyncio.wait_for] ends: with a result or an
    exception of its own, or cancelled at the deadline. *)
Inductive outcome (A : Type) :=
| Finished (r : res A)
| Cancelled.

Arguments Finished {A} r.
Arguments Cancelled {A}.

Definition attribute_error : exn :=
  Exn AttributeError (lit "module 'httpx' has no attribute 'TimeoutError'").

(** The three handlers of the inner [try], met by an exception [e] of the
    body.  Looking up [httpx.TimeoutError] happens only once the first
    clause has not matched, and raises AttributeError when httpx has no
    such name. *)
Definition inner_handlers (env : Env) (e : exn) : res (list str) :=
  if is_connect_error e then Ok []
  else if httpx_has_TimeoutError env then Ok []
  else Raise attribute_error.

(** The same handlers met by the cancellation at the deadline, which no
    clause catches. *)
Definition inner_handlers_cancelled (env : Env) : outcome (list str) :=
  if httpx_has_TimeoutError env then Cancelled
  else Finished (Raise attribute_error).

Definition _generate (env : Env) (prompt : str) (q_type : str)
    (include_answers : bool) (num_questions : Z)
    : World -> outcome (list str) * World :=
  fun w =>
    let n := length (generate_posts w) in
    let w1 := post_generate prompt w in
    match generate_reply env n prompt with
    | Throws e => (Finished (inner_handlers env e), w1)
    | Hangs => (inner_handlers_cancelled env, w1)
    | Response status_code body =>
        if status_code =? 404 then (Finished (Ok []), w1)
        else if negb (status_code =? 200) then (Finished (Ok []), w1)
        else
          match body with
          | JsonInvalid =>
              (Finished (inner_handlers env
                 (Exn ValueError (lit "Expecting value"))), w1)
          | JsonNotObject =>
              (Finished (inner_handlers env
                 (Exn AttributeError (lit "object has no attribute 'get'"))), w1)
          | JsonObject field =>
              let response_text :=
                match field with
                | Some text => text
                | None => []           (* result.get("response", "") *)
                end in
              (Finished (Ok (parse_response q_type include_answers
                               num_questions response_text)), w1)
          end
    end.

(** [asyncio.wait_for(coro, timeout)] *)
Definition wait_for {A : Type} (coro : World -> outcome A * World) : M A :=
  fun w =>
    match coro w with
    | (Finished r, w') => (r, w')
    | (Cancelled, w') => (Raise (Exn AsyncioTimeout []), w')
    end.

Definition generate_question_batch (env : Env) (chunk : str) (q_type : str)
    (num_questions : Z) (previous_questions : list str)
    (include_answers : bool) (timeout : Z) : M (list str) :=
  let prompt := prompt_for q_type include_answers num_questions chunk in
  try_except
    (wait_for (_generate env prompt q_type include_answers num_questions))
    (fun e =>
       if is_asyncio_timeout e then ret []
       else if is_connect_error e then raise e
       else ret []).

(** ** generate_questions_from_pdf, from the cleaned text on

    The availability probe, the PDF extraction and [clean_text] run before
    these steps and hand over the cleaned text; the properties below start
    from there. *)

Definition type_mapping : dict str :=
  [(lit "mcq", lit "mcq");
   (lit "multiplechoice", lit "mcq");
   (lit "truefalse", lit "truefalse");
   (lit "trueFalse", lit "truefalse");
   (lit "true/false", lit "truefalse");
   (lit "tf", lit "truefalse");
   (lit "shortanswer", lit "shortanswer");
   (lit "shortAnswer", lit "shortanswer");
   (lit "short", lit "shortanswer");
   (lit "sa", lit "shortanswer")].

Definition requested_types (question_types : str) : list str :=
  map (fun qtype => lower (strip qtype)) (split_on ","%char question_types).

Fixpoint normalize_types (requested : list str) (normalized_types : list str)
    : list str :=
  match requested with
  | [] => normalized_types
  | qtype :: rest =>
      let normalized :=
        match dict_get type_mapping qtype with
        | Some t => t
        | None => qtype
        end in
      normalize_types rest
        (if mem normalized normalized_types then normalized_types
         else normalized_types ++ [normalized])
  end.

(** The variables the per-type loop updates. *)
Record loop_state := {
  remaining : Z;
  all_questions : list str;
  previous_questions : list str;
  connection_errors : list str
}.

Definition add_previous (previous : list str) (batch_questions : list str)
    : list str :=
  fold_left (fun s q => set_add (slice_to q 100) s) batch_questions previous.

(** The signature of [generate_question_batch]. *)
Definition batch_fn :=
  str -> str -> Z -> list str -> bool -> Z -> M (list str).

(** One iteration of [for q_type in normalized_types], for a given
    implementation of the call it makes. *)
Definition type_step_with (batch : batch_fn) (context_text : str)
    (per_type : Z) (include_answers : bool) (st : loop_state) (q_type : str)
    : M loop_state :=
  let '(questions_to_generate, remaining') :=
    next_quota per_type (remaining st) in
  try_except
    (batch_questions <-
       batch context_text q_type questions_to_generate
         (previous_questions st) include_answers 120 ;;
     ret {| remaining := remaining';
            all_questions := all_questions st ++ batch_questions;
            previous_questions :=
              add_previous (previous_questions st) batch_questions;
            connection_errors := connection_errors st |})
    (fun e =>
       if is_connect_error e then
         let error_msg := lit "Cannot connect to Ollama service: " ++ exn_msg e in
         ret {| remaining := remaining';
                all_questions := all_questions st;
                previous_questions := previous_questions st;
                connection_errors := connection_errors st ++ [error_msg] |}
       else
         ret {| remaining := remaining';
                all_questions := all_questions st;
                previous_questions := previous_questions st;
                connection_errors := connection_errors st |}).

Fixpoint type_loop_with (batch : batch_fn) (context_text : str)
    (per_type : Z) (include_answers : bool) (types : list str)
    (st : loop_state) : M loop_state :=
  match types with
  | [] => ret st
  | q_type :: rest =>
      st' <- type_step_with batch context_text per_type include_answers
               st q_type ;;
      type_loop_with batch context_text per_type include_answers rest st'
  end.

(** The loop as the module runs it. *)
Definition type_step (env : Env) := type_step_with (generate_question_batch env).
Definition type_loop (env : Env) := type_loop_with (generate_question_batch env).

(** The dict the function returns. *)
Record generated := {
  questions : str;
  count : Z;
  types : list str;
  with_answers : bool
}.

(** [[f"{i+1}. {q}" for i, q in enumerate(all_questions)]] *)
Fixpoint numbered (i : Z) (qs : list str) : list str :=
  match qs with
  | [] => []
  | q :: rest => (str_of_int (i + 1) ++ lit ". " ++ q) :: numbered (i + 1) rest
  end.

Definition http_error (status_code : Z) (detail : string) : exn :=
  Exn (HTTPException status_code) (lit detail).

Definition query : str :=
  lit "Generate questions about the main topics and key concepts".

Definition blank_line : str := [Re.newline; Re.newline].

(** Steps 4 to 8, inside the function's [try]. *)
Definition generate_steps (env : Env) (chunks : list str) (num_questions : Z)
    (question_types : str) (include_answers : bool) : M generated :=
  let normalized_types := normalize_types (requested_types question_types) [] in
  if is_empty normalized_types then
    raise (http_error 400
             "No valid question types specified. Use: mcq, trueFalse, shortAnswer")
  else
    let per_type := questions_per_type num_questions normalized_types in
    let remaining := remaining0 num_questions normalized_types in
    relevant_chunks <-
      retrieve_relevant_chunks env chunks query (Z.min 3 (len chunks)) ;;
    let relevant_chunks :=
      if is_empty relevant_chunks then
        if len chunks >=? 3 then slice_to chunks 3 else chunks
      else relevant_chunks in
    let context_text := join blank_line relevant_chunks in
    st <- type_loop env context_text per_type include_answers
            normalized_types
            {| remaining := remaining; all_questions := [];
               previous_questions := []; connection_errors := [] |} ;;
    if is_empty (all_questions st) then
      if negb (is_empty (connection_errors st)) then
        raise (Exn (HTTPException 503)
                 (unlines
                    [lit "Failed to generate questions: Cannot connect to Ollama service.";
                     [];
                     lit "Please ensure:";
                     lit "1. Ollama is running (run 'ollama serve' in a terminal)";
                     lit "2. The model 'gemma3n:e2b' is installed (run 'ollama pull gemma3n:e2b')";
                     lit "3. Ollama is accessible at http://localhost:11434"]))
      else
        raise (Exn (HTTPException 500)
                 (unlines
                    [lit "Failed to generate any questions. This could be due to:";
                     lit "1. The model 'gemma3n:e2b' is not installed (run 'ollama pull gemma3n:e2b')";
                     lit "2. The PDF content was not suitable for question generation";
                     lit "3. A timeout occurred during generation"]))
    else
      ret {| questions := join blank_line (numbered 0 (all_questions st));
             count := len (all_questions st);
             types := normalized_types;
             with_answers := include_answers |}.

(** The function's [except HTTPException: raise / except Exception]. *)
Definition generate_from_chunks (env : Env) (chunks : list str)
    (num_questions : Z) (question_types : str) (include_answers : bool)
    : M generated :=
  try_except
    (generate_steps env chunks num_questions question_types include_answers)
    (fun e =>
       if is_http_exception e then raise e
       else raise (Exn (HTTPException 500)
                     (lit "Failed to generate questions from PDF: " ++ exn_msg e))).

(** Steps 3 to 8 on the cleaned text; [None] when chunking has not
    finished within [fuel] iterations. *)
Definition generate_from_text (fuel : nat) (env : Env) (cleaned_text : str)
    (num_questions : Z) (question_types : str) (include_answers : bool)
    : World -> option (res generated * World) :=
  fun w =>
    match chunk_text fuel cleaned_text 1500 150 with
    | Some chunks =>
        Some (generate_from_chunks env chunks num_questions question_types
                include_answers w)
    | None => None
    end.

(** ** The operations of the module that touch the world *)

Inductive operation :=
| OpEmbed (text : str)
| OpRetrieve (chunks : list str) (query : str) (top_k : Z)
| OpBatch (chunk q_type : str) (num_questions : Z)
    (previous_questions : list str) (include_answers : bool) (timeout : Z)
| OpGenerate (chunks : list str) (num_questions : Z) (question_types : str)
    (include_answers : bool).

Definition perform (env : Env) (op : operation) (w : World) : World :=
  match op with
  | OpEmbed text => snd (get_embedding env text w)
  | OpRetrieve chunks query top_k =>
      snd (retrieve_relevant_chunks env chunks query top_k w)
  | OpBatch chunk q_type n previous include_answers timeout =>
      snd (generate_question_batch env chunk q_type n previous
             include_answers timeout w)
  | OpGenerate chunks n question_types include_answers =>
      snd (generate_from_chunks env chunks n question_types include_answers w)
  end.

Definition perform_all (env : Env) (ops : list operation) (w : World)
    : World :=
  fold_left (fun w op => perform env op w) ops w.

(** A sequence of [get_embedding] calls. *)
Fixpoint embed_all (env : Env) (texts : list str) : M (list (list float)) :=
  match texts with
  | [] => ret []
  | text :: rest =>
      v <- get_embedding env text ;;
      vs <- embed_all env rest ;;
      ret (v :: vs)
  end.

(** ** Notions used by the properties *)

(** The breaker has tripped. *)
Definition tripped (w : World) : Prop := _embeddings_api_failed w = true.

(** An environment whose embedding endpoint answers 500 and whose
    generation endpoint never answers. *)
Definition failing_env : Env :=
  {| embeddings_reply := fun _ _ => Response 500 JsonInvalid;
     generate_reply := fun _ _ => Hangs;
     httpx_has_TimeoutError := false |}.

(** A binary64 value that is not below zero: anything but a negative
    number or minus infinity. *)
Definition sf_nonneg (x : spec_float) : bool :=
  match x with
  | S754_finite true _ _ | S754_infinity true => false
  | _ => true
  end.

Definition nonneg (x : float) : Prop := sf_nonneg (Prim2SF x) = true.

(** A vector of zeros of either sign. *)
Definition all_zero (vec : list float) : Prop :=
  Forall (fun a => a = 0%float \/ a = (-0)%float) vec.



(** A segment with the options A, B and C only, and one with all four. *)
Definition segment_abc : str :=
  unlines [lit "What is x?"; lit "A) one"; lit "B) two"; lit "C) three"].


Definition segment_abcd : str :=
  unlines [lit "What is x?"; lit "A) one"; lit "B) two"; lit "C) three";
           lit "D) four"; lit "ANSWER: b"].

(** Two and five short-answer questions as the backend would print them. *)
Definition two_questions : str :=
  unlines [lit "Q: What is a cell?"; lit "Q: What is a gene?"].

Definition five_questions : str :=
  unlines [lit "Q: What is a cell?"; lit "Q: What is a gene?";
           lit "Q: What is a protein?"; lit "Q: What is an enzyme?";
           lit "Q: What is a ribosome?"].

Definition five_parsed : list str :=
  [lit "Question: What is a cell?"; lit "Question: What is a gene?";
   lit "Question: What is a protein?"; lit "Question: What is an enzyme?";
   lit "Question: What is a ribosome?"].

(** A backend that answers every generation request with two questions. *)
Definition two_questions_env : Env :=
  {| embeddings_reply := fun _ _ => Response 500 JsonInvalid;
     generate_reply := fun _ _ => Response 200 (JsonObject (Some two_questions));
     httpx_has_TimeoutError := false |}.

Definition connection_refused : exn :=
  Exn ConnectError (lit "All connection attempts failed").

(** A backend that refuses the connection of the first generation request
    and answers the later ones with five questions. *)
Definition flaky_env (has_name : bool) : Env :=
  {| embeddings_reply := fun _ _ => Throws connection_refused;
     generate_reply := fun n _ =>
       match n with
       | O => Throws connection_refused
       | S _ => Response 200 (JsonObject (Some five_questions))
       end;
     httpx_has_TimeoutError := has_name |}.

Definition cell_text : str := lit "A cell is the basic unit of life.".

(** A batch generator that behaves as the orchestrator expects: it lets
    the connection error of the first type through and returns five
    questions for any other. *)
Definition batch_letting_errors_through : batch_fn :=
  fun _ q_type _ _ _ _ =>
    if str_eqb q_type (lit "truefalse") then raise connection_refused
    else ret five_parsed.

Definition loop_start (remaining : Z) : loop_state :=
  {| remaining := remaining; all_questions := [];
     previous_questions := []; connection_errors := [] |}.

(** The prompts the loop sends when it asks the given types for the given
    counts. *)
Definition prompts_for (context_text : str) (include_answers : bool)
    (types : list str) (quotas : list Z) : list str :=
  map (fun tq => prompt_for (fst tq) include_answers (snd tq) context_text)
      (combine types quotas).

(** The marker [Q:] occurs in a text, in either case. *)
Fixpoint has_q_mark (s : str) : bool :=
  match s with
  | x :: ((y :: _) as rest) =>
      (Ascii.eqb (lower_char x) "q"%char && Ascii.eqb y ":"%char)
      || has_q_mark rest
  | _ => false
  end.

(** A string that starts with the label of a rendered question. *)
Definition is_question (q : str) : Prop :=
  exists rest, q = lit "Question: " ++ rest.

(** A text that does not start with a blank. *)
Definition head_not_blank (s : str) : Prop :=
  match s with
  | x :: _ => x <> " "%char
  | [] => True
  end.

(** The question the parser makes of [segment_abcd], whose answer line
    has a small letter. *)
Definition answered_mcq : str :=
  unlines [lit "Question: What is x?"; lit "A) one"; lit "B) two";
           lit "C) three"; lit "D) four"; lit "Correct Answer: B"].

(** A true/false segment whose answer is in capitals, and the question
    the parser makes of it. *)
Definition shouted_answer : str := lit "The sky is blue. answer: TRUE".

Definition answered_truefalse : str :=
  unlines [lit "Question: The sky is blue."; lit "Answer: True"].

(** A backend whose embedding of the [n]-th request is the vector (n, 1):
    the later a request, the less similar its vector to the (0, 1) of the
    first one. *)
Definition ranking_env : Env :=
  {| embeddings_reply := fun n _ =>
       Response 200
         (JsonObject (Some [PrimFloat.of_uint63 (Uint63.of_Z (Z.of_nat n));
                            1%float]));
     generate_reply := fun _ _ => Hangs;
     httpx_has_TimeoutError := false |}.

Definition five_chunks : list str :=
  [lit "c0"; lit "c1"; lit "c2"; lit "c3"; lit "c4"].

(** ** clean_text *)

Module ReSub.

(** [re.sub(r, repl, s)] for a pattern whose matches are never empty: the
    text up to the leftmost match, the replacement, and the same again
    from the end of the match on.  [pos] is the position of [rest] in the
    whole string; at most [fuel] matches are replaced. *)
Fixpoint sub_from (fuel : nat) (r : Re.regex) (repl : str) (pos : nat)
    (rest : str) : str :=
  match fuel with
  | O => rest
  | S fuel' =>
      match Re.search_from r pos rest with
      | Some m =>
          if Nat.ltb (Re.m_start m) (Re.m_end m) then
            firstn (Re.m_start m - pos) rest ++ repl
              ++ sub_from fuel' r repl (Re.m_end m)
                   (skipn (Re.m_end m - pos) rest)
          else rest
      | None => rest
      end
  end.

Definition sub (r : Re.regex) (repl : str) (s : str) : str :=
  sub_from (S (length s)) r repl 0 s.

(** The leftmost match of a pattern that opens with [^] under MULTILINE:
    [r] is the pattern after the [^], tried only at the starts of lines.
    [bol] tells whether [pos] is one: the start of the string or the
    position after a newline. *)
Fixpoint search_lines (r : Re.regex) (bol : bool) (pos : nat) (rest : str)
    : option Re.match_ :=
  match (if bol then Re.run r Re.finish pos rest None else None) with
  | Some (e, c) => Some (Re.Match pos e c)
  | None =>
      match rest with
      | [] => None
      | x :: rest' =>
          search_lines r (Ascii.eqb x Re.newline) (S pos) rest'
      end
  end.

(** Whether the position after the non-empty text [consumed] starts a
    line. *)
Definition ends_line (consumed : str) : bool :=
  match rev consumed with
  | x :: _ => Ascii.eqb x Re.newline
  | [] => false
  end.

(** [re.sub("^" + r, repl, s, flags=re.MULTILINE)], again for matches that
    are never empty. *)
Fixpoint sub_lines_from (fuel : nat) (r : Re.regex) (repl : str)
    (bol : bool) (pos : nat) (rest : str) : str :=
  match fuel with
  | O => rest
  | S fuel' =>
      match search_lines r bol pos rest with
      | Some m =>
          if Nat.ltb (Re.m_start m) (Re.m_end m) then
            firstn (Re.m_start m - pos) rest ++ repl
              ++ sub_lines_from fuel' r repl
                   (ends_line (firstn (Re.m_end m - pos) rest))
                   (Re.m_end m) (skipn (Re.m_end m - pos) rest)
          else rest
      | None => rest
      end
  end.

Definition sub_lines (r : Re.regex) (repl : str) (s : str) : str :=
  sub_lines_from (S (length s)) r repl true 0 s.

(** [\d] *)
Definition is_digit (c : ascii) : bool := between 48 57 c.

Definition is_newline (c : ascii) : bool := Ascii.eqb c Re.newline.

Definition is_blank (c : ascii) : bool := Ascii.eqb c " "%char.

(** [\d+] *)
Definition digits : Re.regex := Re.Seq (Re.Chr is_digit) (Re.Star is_digit).

(** [\n\s*\d+\s*\n] *)
Definition page_number_pat : Re.regex :=
  Re.Seq Re.nl (Re.Seq (Re.Star is_space)
    (Re.Seq digits (Re.Seq (Re.Star is_space) Re.nl))).

(** [\d+$] under MULTILINE, where [$] also holds before any newline. *)
Definition digits_line_pat : Re.regex :=
  Re.Seq digits (Re.Ahead (Re.Alt Re.nl Re.Eos)).

(** [\n{3,}] *)
Definition newlines_pat : Re.regex :=
  Re.Seq Re.nl (Re.Seq Re.nl (Re.Seq Re.nl (Re.Star is_newline))).

(** [ {2,}] *)
Definition spaces_pat : Re.regex :=
  Re.Seq (Re.Chr is_blank) (Re.Seq (Re.Chr is_blank) (Re.Star is_blank)).

End ReSub.

Definition clean_text (text : str) : str :=
  let text := ReSub.sub ReSub.page_number_pat [Re.newline] text in
  let text := ReSub.sub_lines ReSub.digits_line_pat [] text in
  let text := ReSub.sub ReSub.newlines_pat [Re.newline; Re.newline] text in
  let text := ReSub.sub ReSub.spaces_pat [" "%char] text in
  strip text.

(** A text without two spaces in a row. *)
Fixpoint single_spaced (s : str) : bool :=
  match s with
  | x :: ((y :: _) as rest) =>
      negb (ReSub.is_blank x && ReSub.is_blank y) && single_spaced rest
  | _ => true
  end.

(** ** check_ollama_available and the head of generate_questions_from_pdf *)

(** The GET on the tags endpoint answers with a status, raises, or runs
    into the 3 s timeout, which raises as well. *)
Definition check_ollama_available (tags : reply unit) : bool :=
  match tags with
  | Response status_code _ => status_code <? 500
  | Throws _ => false
  | Hangs => false
  end.

(** The uploaded PDF as the function sees it: opening it gives its pages
    or raises, and so does extracting the text of a page. *)
Definition pdf_document := res (list (res str)).

(** [for page in pdf_reader.pages: text_content += page.extract_text() + "\n"] *)
Fixpoint read_pages (pages : list (res str)) (text_content : str) : res str :=
  match pages with
  | [] => Ok text_content
  | page :: rest =>
      res_bind page (fun text =>
      read_pages rest (text_content ++ text ++ [Re.newline]))
  end.

Definition service_unavailable : exn :=
  Exn (HTTPException 503)
    (lit "Ollama service is not available. Please ensure Ollama is running. "
       ++ lit "To start Ollama: 1) Install Ollama from https://ollama.ai, "
       ++ lit "2) Run 'ollama serve' in a terminal, "
       ++ lit "3) Make sure the model 'gemma3n:e2b' is installed: 'ollama pull gemma3n:e2b'").

Definition no_readable_text : exn :=
  http_error 400
    "Could not extract text from PDF. Please ensure the PDF contains readable text.".

(** The function's [except HTTPException: raise / except Exception]. *)
Definition as_http_error (e : exn) : exn :=
  if is_http_exception e then e
  else Exn (HTTPException 500)
         (lit "Failed to generate questions from PDF: " ++ exn_msg e).

(** The whole function: the probe, the extraction, the check for readable
    text, and the steps from the cleaned text on.  [None] when chunking has
    not finished within [fuel] iterations. *)
Definition generate_questions_from_pdf (fuel : nat) (env : Env)
    (tags : reply unit) (pdf : pdf_document) (num_questions : Z)
    (question_types : str) (include_answers : bool)
    : World -> option (res generated * World) :=
  fun w =>
    if negb (check_ollama_available tags) then
      Some (Raise service_unavailable, w)
    else
      match res_bind pdf (fun pages => read_pages pages []) with
      | Raise e => Some (Raise (as_http_error e), w)
      | Ok text_content =>
          if is_empty (strip text_content) then
            Some (Raise no_readable_text, w)
          else
            generate_from_text fuel env (clean_text text_content)
              num_questions question_types include_answers w
      end.

(** The status of an HTTPException, if the exception is one. *)
Definition http_status (e : exn) : option Z :=
  match exn_cls e with
  | HTTPException status_code => Some status_code
  | _ => None
  end.

(** No exception of the PDF library is an HTTPException. *)
Definition library_errors (pdf : pdf_document) : Prop :=
  match pdf with
  | Raise e => is_http_exception e = false
  | Ok pages =>
      Forall (fun page => match page with
                          | Raise e => is_http_exception e = false
                          | Ok _ => True
                          end) pages
  end.

(** ** generate_questions_pdf: from the questions text to the paragraphs *)

(** [s.replace(c, by)] for a one-character [c]. *)
Definition replace_char (c : ascii) (by_ : str) (s : str) : str :=
  flat_map (fun x => if Ascii.eqb x c then by_ else [x]) s.

(** [line.replace("&", "&amp;").replace("<", "&lt;").replace(">", "&gt;")] *)
Definition escape_line (line : str) : str :=
  replace_char ">"%char (lit "&gt;")
    (replace_char "<"%char (lit "&lt;")
       (replace_char "&"%char (lit "&amp;") line)).

(** The loop over the lines: the texts of the paragraphs it appends, one
    per line that is not blank. *)
Fixpoint paragraphs_of (lines : list str) : list str :=
  match lines with
  | [] => []
  | line :: rest =>
      let line := strip line in
      if is_empty line then paragraphs_of rest
      else escape_line line :: paragraphs_of rest
  end.

Definition pdf_paragraphs (questions_text : str) : list str :=
  paragraphs_of (split_on Re.newline questions_text).

(** ** create_assignment: the name of the stored attachment *)

(** [c.isalnum()] on the code points below 256. *)
Definition is_alnum (c : ascii) : bool :=
  between 48 57 c || between 65 90 c || between 97 122 c
  || (code c =? 170) || between 178 179 c || (code c =? 181)
  || between 185 186 c || between 188 190 c
  || between 192 214 c || between 216 246 c || between 248 255 c.

(** [c.isalnum() or c in "._- "] *)
Definition keeps (c : ascii) : bool :=
  is_alnum c || existsb (Ascii.eqb c) (lit "._- ").

(** [safe_filename]; [None] stands for an upload without a file name. *)
Definition safe_filename (filename : option str) : str :=
  match filename with
  | Some ((_ :: _) as name) => filter keeps name
  | _ => lit "assignment.pdf"
  end.

(** [f"{timestamp}_{safe_filename}"] *)
Definition unique_filename (timestamp : str) (filename : option str) : str :=
  timestamp ++ lit "_" ++ safe_filename filename.

(** The parts of a POSIX path as pathlib keeps them: the pieces between
    slashes, without those that are empty or a single dot. *)
Definition path_parts (name : str) : list str :=
  filter (fun p => negb (is_empty p) && negb (str_eqb p (lit ".")))
    (split_on "/"%char name).

(** [Path("uploads/assignments")] *)
Definition upload_dir : list str := [lit "uploads"; lit "assignments"].

(** [dir / name] for a relative [dir]: a name that starts with a slash
    replaces the directory. *)
Definition path_div (dir : list str) (name : str) : list str :=
  match name with
  | "/"%char :: _ => lit "/" :: path_parts name
  | _ => dir ++ path_parts name
  end.

(** What an upload leaves behind: the file written, and the two columns
    of the row. *)
Record attachment := {
  file_path : list str;
  attachment_file_path : str;
  attachment_file_name : option str
}.

(** The [if pdf_file:] block of create_assignment, for a PDF upload. *)
Definition store_attachment (timestamp : str) (filename : option str)
    : attachment :=
  let file_path := path_div upload_dir (unique_filename timestamp filename) in
  {| file_path := file_path;
     attachment_file_path := join (lit "/") file_path;
     attachment_file_name := filename |}.

(** The reading back of an escaped line. *)
Fixpoint unescape (s : str) : str :=
  match s with
  | "&"%char :: "a"%char :: "m"%char :: "p"%char :: ";"%char :: rest =>
      "&"%char :: unescape rest
  | "&"%char :: "l"%char :: "t"%char :: ";"%char :: rest =>
      "<"%char :: unescape rest
  | "&"%char :: "g"%char :: "t"%char :: ";"%char :: rest =>
      ">"%char :: unescape rest
  | x :: rest => x :: unescape rest
  | [] => []
  end.

(** An environment with a working probe is told apart by the answer to the
    GET; one that refuses the connection: *)
Definition probe_refused : reply unit := Throws connection_refused.

Definition probe_answered : reply unit := Response 200 (JsonObject (Some tt)).

Definition one_page_pdf (text : str) : pdf_document := Ok [Ok text].

(** ** The assignment endpoints: lookup, deactivation, activation, deletion

    The session is a table of assignment rows, in the order in which
    [first()] meets them, and the assignment ids of the submission rows;
    [datetime.utcnow()] is the argument [now], and the session itself
    does not fail: a commit goes through. *)

Module Crud.

Record Assignment := {
  assignment_id : Z;
  title : str;
  description : option str;
  course_id : Z;
  deadline : option Z;
  max_grade : option float;
  is_active : bool;
  updated_at : option Z
}.

Record Database := {
  assignments : list Assignment;
  submissions : list Z          (* Submission.assignment_id of every row *)
}.

(** The response schema AssignmentRead, as [_to_read] fills it. *)
Record AssignmentRead := {
  read_assignment_id : Z;
  read_title : str;
  read_description : option str;
  read_deadline : option Z;
  read_course_id : Z;
  read_max_grade : option float;
  read_attachment_file_path : option str;
  read_attachment_file_name : option str
}.

Definition _to_read (row : Assignment) : AssignmentRead :=
  {| read_assignment_id := assignment_id row;
     read_title := title row;
     read_description := description row;
     read_deadline := deadline row;
     read_course_id := course_id row;
     read_max_grade := max_grade row;
     (* not passed by [_to_read]: the defaults of the schema *)
     read_attachment_file_path := None;
     read_attachment_file_name := None |}.

(** The filters of the lookup query. *)
Definition selected (id : Z) (include_inactive : bool) (row : Assignment)
    : bool :=
  (assignment_id row =? id) && (include_inactive || is_active row).

Definition _validate_assignment_exists (id : Z) (db : Database)
    (include_inactive : bool) : res Assignment :=
  if id <=? 0 then
    Raise (http_error 400 "Assignment ID must be positive")
  else
    match find (selected id include_inactive) (assignments db) with
    | Some assignment => Ok assignment
    | None => Raise (http_error 404 "Assignment not found")
    end.

Definition get_assignment (id : Z) (include_inactive : bool) (db : Database)
    : res AssignmentRead :=
  res_bind (_validate_assignment_exists id db include_inactive)
    (fun assignment => Ok (_to_read assignment)).

(** [assignment.submissions] *)
Definition submissions_of (db : Database) (row : Assignment) : list Z :=
  filter (Z.eqb (assignment_id row)) (submissions db).

(** Writing to the row the lookup returned: the first one with the id. *)
Fixpoint update_row (id : Z) (f : Assignment -> Assignment)
    (rows : list Assignment) : list Assignment :=
  match rows with
  | [] => []
  | row :: rest =>
      if assignment_id row =? id then f row :: rest
      else row :: update_row id f rest
  end.

(** [db.delete(assignment)] *)
Fixpoint delete_row (id : Z) (rows : list Assignment) : list Assignment :=
  match rows with
  | [] => []
  | row :: rest =>
      if assignment_id row =? id then rest
      else row :: delete_row id rest
  end.

(** [assignment.is_active = ...; assignment.updated_at = datetime.utcnow()] *)
Definition set_active (active : bool) (now : Z) (row : Assignment)
    : Assignment :=
  {| assignment_id := assignment_id row;
     title := title row;
     description := description row;
     course_id := course_id row;
     deadline := deadline row;
     max_grade := max_grade row;
     is_active := active;
     updated_at := Some now |}.

Definition with_assignments (db : Database) (rows : list Assignment)
    : Database :=
  {| assignments := rows; submissions := submissions db |}.

Definition delete_assignment (id : Z) (soft_delete : bool) (now : Z)
    (db : Database) : res unit * Database :=
  match _validate_assignment_exists id db true with
  | Raise e => (Raise e, db)
  | Ok assignment =>
      let submissions_count := len (submissions_of db assignment) in
      if (submissions_count >? 0) && negb soft_delete then
        (Raise (Exn (HTTPException 400)
                  (lit "Cannot delete assignment: "
                     ++ str_of_int submissions_count
                     ++ lit " submissions exist. Use soft delete instead.")),
         db)
      else if soft_delete then
        (Ok tt,
         with_assignments db
           (update_row id (set_active false now) (assignments db)))
      else
        (Ok tt, with_assignments db (delete_row id (assignments db)))
  end.

Definition activate_assignment (id : Z) (now : Z) (db : Database)
    : res AssignmentRead * Database :=
  match _validate_assignment_exists id db true with
  | Raise e => (Raise e, db)
  | Ok assignment =>
      if is_active assignment then
        (Raise (http_error 400 "Assignment is already active"), db)
      else
        match deadline assignment with
        | None =>
            (* comparing None with a datetime raises TypeError, which the
               handler for Exception turns into a rollback and a 500 *)
            (Raise (http_error 500 "Failed to activate assignment"), db)
        | Some d =>
            if d <=? now then
              (Raise (http_error 400
                        "Cannot activate assignment with past deadline"), db)
            else
              let db' :=
                with_assignments db
                  (update_row id (set_active true now) (assignments db)) in
              (res_bind (_validate_assignment_exists id db' true)
                 (fun assignment => Ok (_to_read assignment)),
               db')
        end
  end.

Definition deactivate_assignment (id : Z) (now : Z) (db : Database)
    : res AssignmentRead * Database :=
  match _validate_assignment_exists id db true with
  | Raise e => (Raise e, db)
  | Ok assignment =>
      if negb (is_active assignment) then
        (Raise (http_error 400 "Assignment is already inactive"), db)
      else
        let db' :=
          with_assignments db
            (update_row id (set_active false now) (assignments db)) in
        (res_bind (_validate_assignment_exists id db' true)
           (fun assignment => Ok (_to_read assignment)),
         db')
  end.

(** The primary key: no two rows share an id. *)
Definition unique_ids (db : Database) : Prop :=
  NoDup (map assignment_id (assignments db)).

(** Every submission belongs to a row of the table. *)
Definition no_orphans (db : Database) : Prop :=
  forall id, In id (submissions db) ->
             In id (map assignment_id (assignments db)).

(** The rows with another id. *)
Definition others (id : Z) (db : Database) : list Assignment :=
  filter (fun row => negb (assignment_id row =? id)) (assignments db).

Definition sample_row (id : Z) (active : bool) (d : option Z) : Assignment :=
  {| assignment_id := id; title := lit "Homework"; description := None;
     course_id := 1; deadline := d; max_grade := None;
     is_active := active; updated_at := None |}.

Definition sample_db : Database :=
  {| assignments := [sample_row 1 true (Some 100); sample_row 2 false (Some 50)];
     submissions := [1] |}.

End Crud.

(** * Properties *)

(** ** Slices *)

Section SegFacts.

Context {A : Type}.
Implicit Types (l : list A) (a b c k : nat).

Lemma seg_length l a b : (a <= b <= length l)%nat -> length (seg l a b) = (b - a)%nat.
Proof.
  intros H. unfold seg. rewrite length_firstn, length_skipn. lia.
Qed.

Lemma seg_to_end l a : seg l a (length l) = skipn a l.
Proof.
  unfold seg. apply firstn_all2. rewrite length_skipn. lia.
Qed.

Lemma firstn_plus l : forall n m,
  firstn (n + m) l = firstn n l ++ firstn m (skipn n l).
Proof.
  induction l as [|x l IH]; intros [|n] m; cbn; try reflexivity.
  - now rewrite firstn_nil.
  - now rewrite IH.
Qed.

Lemma seg_app l a b c :
  (a <= b <= c)%nat -> seg l a b ++ seg l b c = seg l a c.
Proof.
  intros H. unfold seg.
  replace (c - a)%nat with ((b - a) + (c - b))%nat by lia.
  rewrite firstn_plus, skipn_skipn.
  replace (b - a + a)%nat with b by lia. reflexivity.
Qed.

Lemma seg_skipn l a b k :
  (a + k <= b)%nat -> skipn k (seg l a b) = seg l (a + k) b.
Proof.
  intros H. unfold seg. rewrite skipn_firstn_comm, skipn_skipn.
  f_equal; [lia | f_equal; lia].
Qed.

Lemma seg_firstn l a b k :
  (a + k <= b)%nat -> firstn k (seg l a b) = seg l a (a + k).
Proof.
  intros H. unfold seg. rewrite firstn_firstn. f_equal. lia.
Qed.

Lemma cut_seg l (x y : Z) :
  0 <= x <= y -> y <= len l -> cut l (x, y) = seg l (Z.to_nat x) (Z.to_nat y).
Proof.
  intros Hxy Hy. unfold cut, slice, clamp, seg, len in *. cbn [fst snd].
  destruct (Z.ltb_spec x 0); [lia|]. destruct (Z.ltb_spec y 0); [lia|].
  rewrite !Z.min_l by lia. f_equal. lia.
Qed.

Lemma slice_all l : slice l 0 (len l) = l.
Proof.
  change (slice l 0 (len l)) with (cut l (0, len l)).
  rewrite cut_seg by (unfold len; lia).
  unfold len. rewrite Nat2Z.id. change (Z.to_nat 0) with 0%nat.
  rewrite seg_to_end. reflexivity.
Qed.

End SegFacts.

(** ** chunk_text *)

Section ChunkFacts.

Context {A : Type}.
Implicit Types (text : list A) (ws : list (Z * Z)).

(** The chunks are the cuts of the recorded windows. *)
Lemma chunk_loop_windows fuel text cs ov : forall start chunks ws,
  chunks = map (cut text) ws ->
  chunk_loop fuel text cs ov start chunks =
  option_map (map (cut text)) (window_loop fuel (len text) cs ov start ws).
Proof.
  induction fuel as [|fuel IH]; intros start chunks ws ->; cbn [chunk_loop window_loop].
  - reflexivity.
  - destruct (start <? len text); [|reflexivity].
    cbv zeta. destruct (Z.min (start + cs) (len text) >=? len text).
    + cbn. now rewrite map_app.
    + apply IH. now rewrite map_app.
Qed.

Lemma chunk_text_windows fuel text cs ov :
  chunk_text fuel text cs ov =
  option_map (map (cut text)) (chunk_windows fuel (len text) cs ov).
Proof.
  unfold chunk_text, chunk_windows. destruct (len text <=? cs).
  - cbn. unfold cut. cbn [fst snd]. now rewrite slice_all.
  - now apply chunk_loop_windows.
Qed.

(** Enough fuel: the loop stops and lays out [windows_from]. *)
Lemma window_loop_spec n cs ov (Hov : 0 <= ov < cs) : forall fuel start acc,
  0 <= start < n -> (Z.to_nat (n - start) <= fuel)%nat ->
  exists ws, window_loop fuel n cs ov start acc = Some (acc ++ ws) /\
             windows_from n cs ov start ws.
Proof.
  induction fuel as [|fuel IH]; intros start acc Hs Hf; [lia|].
  cbn [window_loop]. destruct (Z.ltb_spec start n); [|lia]. cbv zeta.
  destruct (Z.geb_spec (Z.min (start + cs) n) n) as [Hge|Hlt].
  - exists [(start, n)]. split.
    + replace (Z.min (start + cs) n) with n by lia. reflexivity.
    + constructor; lia.
  - rewrite Z.min_l by lia.
    destruct (IH (start + cs - ov) (acc ++ [(start, start + cs)])) as (ws & E & W);
      [lia | lia |].
    exists ((start, start + cs) :: ws). split.
    + rewrite E, <- app_assoc. reflexivity.
    + constructor; [lia | exact W].
Qed.

Lemma windows_from_nonempty n cs ov s ws :
  windows_from n cs ov s ws ->
  exists e rest, ws = (s, e) :: rest /\ e = Z.min (s + cs) n.
Proof.
  intros [s' H1 H2 | s' ws' H1 H2]; eexists _, _; (split; [reflexivity | lia]).
Qed.

Lemma windows_from_functional n cs ov s ws :
  windows_from n cs ov s ws ->
  forall ws', windows_from n cs ov s ws' -> ws = ws'.
Proof.
  induction 1 as [s H1 H2 | s ws H1 H2 IH]; intros ws' W';
    inversion W'; subst; try lia; [reflexivity|].
  f_equal. now apply IH.
Qed.

(** The closing window is the only one that ends at [n]. *)
Lemma windows_from_last n cs ov s ws :
  windows_from n cs ov s ws ->
  exists front w, ws = front ++ [w] /\ snd w = n /\
                  Forall (fun w' => snd w' < n) front.
Proof.
  induction 1 as [s H1 H2 | s ws H1 H2 (front & w & -> & Hw & Hfr)].
  - exists [], (s, n). repeat split; constructor.
  - exists ((s, s + cs) :: front), w. repeat split; auto.
Qed.

Lemma windows_from_stepped n cs ov s ws :
  windows_from n cs ov s ws -> stepped ov ws.
Proof.
  induction 1 as [s H1 H2 | s ws H1 H2 IH]; cbn; auto.
  destruct (windows_from_nonempty _ _ _ _ _ H2) as (e & rest & -> & _).
  cbn in *. auto.
Qed.

Lemma windows_from_full n cs ov text s ws :
  0 <= ov < cs -> 0 <= s -> n = len text ->
  windows_from n cs ov s ws ->
  Forall (fun c => len c = cs) (removelast (map (cut text) ws)).
Proof.
  intros Hov Hs ->. induction 1 as [s' H1 H2 | s' ws H1 H2 IH]; cbn.
  - constructor.
  - destruct (windows_from_nonempty _ _ _ _ _ H2) as (e & rest & -> & _).
    cbn [map] in *. constructor; [|apply IH; lia].
    rewrite cut_seg by lia. unfold len in *. rewrite seg_length; lia.
Qed.

Lemma windows_from_roundtrip n cs ov text s ws :
  0 <= ov < cs -> 0 <= s -> n = len text ->
  windows_from n cs ov s ws ->
  prefix_roundtrip ov (map (cut text) ws) = skipn (Z.to_nat s) text.
Proof.
  intros Hov Hs ->. induction 1 as [s' H1 H2 | s' ws H1 H2 IH].
  - cbn. rewrite app_nil_r, cut_seg by lia.
    unfold len. rewrite Nat2Z.id. apply seg_to_end.
  - specialize (IH ltac:(lia)).
    destruct (windows_from_nonempty _ _ _ _ _ H2) as (e & rest & -> & He).
    cbn [map prefix_roundtrip concat] in *.
    assert (Hcut : cut text (s' + cs - ov, e)
                   = seg text (Z.to_nat (s' + cs - ov)) (Z.to_nat e))
      by (apply cut_seg; lia).
    rewrite Hcut in *.
    assert (Hsk : skipn (Z.to_nat ov) (seg text (Z.to_nat (s' + cs - ov)) (Z.to_nat e))
                  ++ concat (map (skipn (Z.to_nat ov)) (map (cut text) rest))
                  = skipn (Z.to_nat (s' + cs)) text).
    { apply (f_equal (skipn (Z.to_nat ov))) in IH.
      rewrite skipn_app, skipn_skipn in IH.
      replace (Z.to_nat ov - length (seg text (Z.to_nat (s' + cs - ov)) (Z.to_nat e)))%nat
        with 0%nat in IH
        by (unfold len in *; rewrite seg_length; lia).
      cbn [skipn] in IH. rewrite IH. f_equal. lia. }
    rewrite Hsk, cut_seg by lia.
    rewrite <- (seg_to_end text (Z.to_nat (s' + cs))),
            <- (seg_to_end text (Z.to_nat s')).
    apply seg_app. unfold len in *. lia.
Qed.

Lemma overlapping_cons ov (c1 c2 : list A) (rest : list (list A)) :
  suffix ov c1 = firstn (Z.to_nat ov) c2 ->
  (Z.to_nat ov <= length c1)%nat -> (Z.to_nat ov <= length c2)%nat ->
  overlapping ov (c2 :: rest) ->
  overlapping ov (c1 :: c2 :: rest).
Proof. intros. cbn [overlapping]. auto. Qed.

Lemma windows_from_overlapping n cs ov text s ws :
  0 <= ov < cs -> 0 <= s -> n = len text ->
  windows_from n cs ov s ws ->
  overlapping ov (map (cut text) ws).
Proof.
  intros Hov Hs ->. induction 1 as [s' H1 H2 | s' ws H1 H2 IH]; [exact I|].
  specialize (IH ltac:(lia)).
  destruct (windows_from_nonempty _ _ _ _ _ H2) as (e & rest & -> & He).
  assert (Hn : (Z.to_nat e <= length text)%nat) by (unfold len in *; lia).
  assert (Hm : (Z.to_nat (s' + cs) <= length text)%nat) by (unfold len in *; lia).
  cbn [map] in *. apply overlapping_cons; [| | | exact IH];
    rewrite !cut_seg by lia; unfold suffix; rewrite ?seg_length by lia; try lia.
  rewrite seg_skipn, seg_firstn by lia. f_equal; lia.
Qed.

(** With [overlap >= chunk_size] on a text longer than [chunk_size] the
    start never gets past the text and no window reaches its end. *)
Lemma chunk_loop_spins text cs ov : cs <= ov -> forall fuel start chunks,
  start + cs < len text -> start < len text ->
  chunk_loop fuel text cs ov start chunks = None.
Proof.
  intros Hov. induction fuel as [|fuel IH]; intros start chunks H1 H2; cbn [chunk_loop].
  - reflexivity.
  - destruct (Z.ltb_spec start (len text)); [|lia]. cbv zeta.
    destruct (Z.geb_spec (Z.min (start + cs) (len text)) (len text)); [lia|].
    apply IH; lia.
Qed.

End ChunkFacts.

(** C3 (amended): for every text longer than [chunk_size] and every
    overlap with [0 <= overlap < chunk_size], chunking finishes; every
    chunk except the last has length exactly [chunk_size]; each window
    starts [overlap] before the end of the previous one, so consecutive
    chunks share exactly [overlap] characters; and the first chunk followed
    by every later chunk without its first [overlap] characters rebuilds
    the text. *)
Theorem chunk_text_laws {A : Type} (text : list A) (chunk_size overlap : Z) :
  len text > chunk_size -> 0 <= overlap -> overlap < chunk_size ->
  exists ws chunks,
    chunks = map (cut text) ws /\
    (forall fuel, (length text <= fuel)%nat ->
       chunk_text fuel text chunk_size overlap = Some chunks) /\
    Forall (fun c => len c = chunk_size) (removelast chunks) /\
    stepped overlap ws /\
    overlapping overlap chunks /\
    prefix_roundtrip overlap chunks = text.
Proof.
  intros Hlen Hov0 Hov.
  destruct (window_loop_spec (len text) chunk_size overlap ltac:(lia)
              (length text) 0 []) as (ws & E & W).
  { unfold len in *. lia. }
  { unfold len. lia. }
  exists ws, (map (cut text) ws). split; [reflexivity|]. split.
  - intros fuel Hfuel.
    destruct (window_loop_spec (len text) chunk_size overlap ltac:(lia)
                fuel 0 []) as (ws' & E' & W').
    { unfold len in *. lia. }
    { unfold len. lia. }
    rewrite chunk_text_windows. unfold chunk_windows.
    destruct (Z.leb_spec (len text) chunk_size); [lia|].
    rewrite E'. cbn. now rewrite (windows_from_functional _ _ _ _ _ W _ W').
  - split.
    { apply (windows_from_full (len text) chunk_size overlap text 0 ws);
        [lia | lia | reflexivity | exact W]. }
    split; [exact (windows_from_stepped _ _ _ _ _ W)|].
    split.
    { apply (windows_from_overlapping (len text) chunk_size overlap text 0 ws);
        [lia | lia | reflexivity | exact W]. }
    rewrite (windows_from_roundtrip (len text) chunk_size overlap text 0 ws);
      [reflexivity | lia | lia | reflexivity | exact W].
Qed.

Lemma chunk_text_laws_witness :
  exists ws chunks,
    chunks = map (cut (lit "abcde")) ws /\
    (forall fuel, (length (lit "abcde") <= fuel)%nat ->
       chunk_text fuel (lit "abcde") 2 1 = Some chunks) /\
    Forall (fun c => len c = 2) (removelast chunks) /\
    stepped 1 ws /\
    overlapping 1 chunks /\
    prefix_roundtrip 1 chunks = lit "abcde".
Proof.
  apply (chunk_text_laws (lit "abcde") 2 1); [reflexivity | lia | lia].
Defined.

(** C3, as stated, fails: on "abc" with chunk_size 2 and overlap 1 the
    chunks are "ab" and "bc", and their suffixes of length
    [chunk_size - overlap] give "bc", not "abc"; and with the negative
    overlap -1, which the claim admits, "abcde" is cut into "ab" and "de",
    which leave out the "c". *)
Lemma suffix_roundtrip_drops_prefix :
  (len (lit "abc") > 2 /\ 1 < 2 /\
   chunk_text 3 (lit "abc") 2 1 = Some [lit "ab"; lit "bc"] /\
   suffix_roundtrip 2 1 [lit "ab"; lit "bc"] = lit "bc" /\
   suffix_roundtrip 2 1 [lit "ab"; lit "bc"] <> lit "abc") /\
  (len (lit "abcde") > 2 /\ -1 < 2 /\
   chunk_text 5 (lit "abcde") 2 (-1) = Some [lit "ab"; lit "de"] /\
   suffix_roundtrip 2 (-1) [lit "ab"; lit "de"] = lit "abde" /\
   suffix_roundtrip 2 (-1) [lit "ab"; lit "de"] <> lit "abcde").
Proof.
  split; repeat split; try reflexivity; try lia; discriminate.
Qed.

(** C5 (amended): for every text, every [chunk_size >= 1] and every
    overlap with [0 <= overlap < chunk_size], chunking terminates within
    [len(text)] iterations and the window that ends at [len(text)] is
    emitted exactly once, as the last one; there is no guard for
    [overlap >= chunk_size]: on a text longer than [chunk_size] such a
    call is not rejected, its loop never ends. *)
Theorem chunk_text_terminates {A : Type} (text : list A)
    (chunk_size overlap : Z) :
  1 <= chunk_size -> 0 <= overlap ->
  (overlap < chunk_size ->
   exists front w,
     (forall fuel, (length text <= fuel)%nat ->
        chunk_windows fuel (len text) chunk_size overlap = Some (front ++ [w]) /\
        chunk_text fuel text chunk_size overlap
          = Some (map (cut text) (front ++ [w]))) /\
     snd w = len text /\
     Forall (fun w' => snd w' < len text) front) /\
  (chunk_size <= overlap -> chunk_size < len text ->
   forall fuel, chunk_text fuel text chunk_size overlap = None).
Proof.
  intros Hcs Hov0. split.
  - intros Hov. destruct (Z.leb_spec (len text) chunk_size) as [Hle|Hgt].
    + exists [], (0, len text). split; [|split; [reflexivity | constructor]].
      intros fuel _. rewrite chunk_text_windows. unfold chunk_windows.
      destruct (Z.leb_spec (len text) chunk_size); [|lia]. split; reflexivity.
    + destruct (window_loop_spec (len text) chunk_size overlap ltac:(lia)
                  (length text) 0 []) as (ws' & E & W).
      { unfold len in *. lia. }
      { unfold len. lia. }
      destruct (windows_from_last _ _ _ _ _ W) as (front & w & -> & Hw & Hfr).
      exists front, w. split; [|split; assumption].
      intros fuel Hfuel.
      destruct (window_loop_spec (len text) chunk_size overlap ltac:(lia)
                  fuel 0 []) as (ws'' & E' & W').
      { unfold len in *. lia. }
      { unfold len. lia. }
      rewrite <- (windows_from_functional _ _ _ _ _ W _ W') in E'.
      rewrite chunk_text_windows. unfold chunk_windows.
      destruct (Z.leb_spec (len text) chunk_size); [lia|].
      rewrite E'. split; reflexivity.
  - intros Hov Hlen fuel. unfold chunk_text.
    destruct (Z.leb_spec (len text) chunk_size); [lia|].
    apply chunk_loop_spins; lia.
Qed.

Lemma chunk_text_terminates_witness :
  (exists front w,
     (forall fuel, (length (lit "abcde") <= fuel)%nat ->
        chunk_windows fuel (len (lit "abcde")) 2 1 = Some (front ++ [w]) /\
        chunk_text fuel (lit "abcde") 2 1
          = Some (map (cut (lit "abcde")) (front ++ [w]))) /\
     snd w = len (lit "abcde") /\
     Forall (fun w' => snd w' < len (lit "abcde")) front) /\
  (forall fuel, chunk_text fuel (lit "abcde") 2 2 = None).
Proof.
  split.
  - apply (chunk_text_terminates (lit "abcde") 2 1); lia.
  - apply (chunk_text_terminates (lit "abcde") 2 2); [lia | lia | lia | reflexivity].
Defined.

(** C5, as stated, fails: a call with [overlap = chunk_size] meets no
    guard; on "ab" with chunk_size 1 and overlap 1 the loop is entered and
    never returns, whatever the number of iterations allowed. *)
Lemma chunk_text_no_guard :
  ~ exists fuel chunks, chunk_text fuel (lit "ab") 1 1 = Some chunks.
Proof.
  intros (fuel & chunks & H).
  assert (E : chunk_text fuel (lit "ab") 1 1 = None).
  { unfold chunk_text. cbn [len length lit list_ascii_of_string].
    destruct (Z.leb_spec (Z.of_nat 2) 1); [lia|].
    apply chunk_loop_spins; cbn; lia. }
  congruence.
Qed.

(** The scenario of a 4000-character text with the module's settings. *)
Example windows_of_4000 :
  chunk_windows 3 4000 1500 150
  = Some [(0, 1500); (1350, 2850); (2700, 4000)].
Proof. reflexivity. Qed.

(** ** Quota planning *)

Lemma sum_from xs : forall a, fold_left Z.add xs a = a + Py.sum xs.
Proof.
  unfold Py.sum. induction xs as [|x xs IH]; intros a; cbn.
  - lia.
  - rewrite IH, (IH x). lia.
Qed.

Lemma sum_cons x xs : Py.sum (x :: xs) = x + Py.sum xs.
Proof. unfold Py.sum at 1. cbn. apply sum_from. Qed.

(** What the walk hands out: the base for every type, and one more for as
    many leading types as the remainder counts. *)
Lemma quota_walk_sum {T : Type} (types : list T) (per_type : Z) :
  forall remaining, 0 <= remaining ->
  Py.sum (quota_walk types per_type remaining)
  = per_type * len types + Z.min remaining (len types).
Proof.
  induction types as [|t types IH]; intros r Hr.
  - cbn. unfold len. cbn. lia.
  - cbn [quota_walk]. unfold next_quota.
    destruct (Z.gtb_spec r 0); rewrite sum_cons, IH by lia;
      unfold len; cbn [length]; lia.
Qed.

(** From [len(types)] questions on the requested counts add up to the
    total; below, to the total plus the number of types that the floor of
    one question each and the remainder hand out together. *)
Lemma plan_sum {T : Type} (num_questions : Z) (types : list T) :
  types <> [] -> 0 <= num_questions ->
  Py.sum (plan num_questions types)
  = if len types <=? num_questions then num_questions
    else len types + num_questions.
Proof.
  intros Hne Hn. unfold plan, questions_per_type, remaining0.
  assert (Hk : 0 < len types) by (destruct types; [easy | unfold len; cbn; lia]).
  pose proof (Z.mod_pos_bound num_questions (len types) Hk) as Hm.
  rewrite quota_walk_sum by lia.
  pose proof (Z.div_mod num_questions (len types) ltac:(lia)) as Hd.
  destruct (Z.leb_spec (len types) num_questions) as [Hle|Hlt].
  - assert (1 <= num_questions / len types)
      by (apply Z.div_le_lower_bound; lia).
    rewrite Z.max_r by lia. lia.
  - rewrite Z.div_small in * by lia. rewrite Z.mod_small in * by lia.
    rewrite Z.max_l by lia. lia.
Qed.

(** ** The embedding breaker *)

Lemma get_embedding_tripped env text w :
  tripped w -> get_embedding env text w = (Ok [], w).
Proof. unfold tripped, get_embedding. now intros ->. Qed.

(** [get_embedding] is the only writer of the flag, and only ever sets it. *)
Lemma get_embedding_monotone env text w :
  tripped w -> tripped (snd (get_embedding env text w)).
Proof. intros H. now rewrite get_embedding_tripped. Qed.

Lemma embed_all_tripped env texts w :
  tripped w -> embed_all env texts w = (Ok (map (fun _ => []) texts), w).
Proof.
  intros H. induction texts as [|t texts IH]; cbn [embed_all map].
  - reflexivity.
  - unfold bind. rewrite get_embedding_tripped by assumption.
    fold (@bind (list (list float)) (list (list float))). unfold bind.
    now rewrite IH.
Qed.

Lemma retrieve_tripped env chunks q top_k w :
  tripped w ->
  retrieve_relevant_chunks env chunks q top_k w
  = (evenly_distributed chunks top_k, w).
Proof.
  intros H. unfold retrieve_relevant_chunks, bind.
  now rewrite get_embedding_tripped.
Qed.

(** The generation side never touches the flag. *)
Lemma _generate_flag env prompt q_type ia n w :
  _embeddings_api_failed (snd (_generate env prompt q_type ia n w))
  = _embeddings_api_failed w.
Proof.
  unfold _generate.
  destruct (generate_reply env _ prompt) as [sc body| e |]; cbn;
    try reflexivity.
  destruct (sc =? 404); [reflexivity|].
  destruct (negb (sc =? 200)); [reflexivity|].
  destruct body; reflexivity.
Qed.

Lemma batch_flag env chunk q_type n prev ia timeout w :
  _embeddings_api_failed
    (snd (generate_question_batch env chunk q_type n prev ia timeout w))
  = _embeddings_api_failed w.
Proof.
  unfold generate_question_batch, try_except, wait_for.
  pose proof (_generate_flag env (prompt_for q_type ia n chunk) q_type ia n w) as H.
  destruct (_generate env _ q_type ia n w) as [[[l|e]|] w']; cbn in *;
    try assumption.
  - destruct (is_asyncio_timeout e); [assumption|].
    destruct (is_connect_error e); assumption.
Qed.

Lemma type_step_flag env ctx per ia st q_type w :
  _embeddings_api_failed (snd (type_step env ctx per ia st q_type w))
  = _embeddings_api_failed w.
Proof.
  unfold type_step, type_step_with.
  destruct (next_quota per (remaining st)) as [n r'].
  unfold try_except, bind.
  pose proof (batch_flag env ctx q_type n (previous_questions st) ia 120 w) as H.
  destruct (generate_question_batch env ctx q_type n _ ia 120 w) as [[l|e] w'];
    cbn in *; [assumption|].
  destruct (is_connect_error e); assumption.
Qed.

Lemma type_loop_flag env ctx per ia types : forall st w,
  _embeddings_api_failed (snd (type_loop env ctx per ia types st w))
  = _embeddings_api_failed w.
Proof.
  unfold type_loop.
  induction types as [|t types IH]; intros st w; cbn [type_loop_with].
  - reflexivity.
  - unfold bind.
    pose proof (type_step_flag env ctx per ia st t w) as H.
    unfold type_step in H.
    destruct (type_step_with _ ctx per ia st t w) as [[st'|e] w']; cbn in *.
    + now rewrite IH.
    + assumption.
Qed.

Lemma generate_from_chunks_monotone env chunks n qt ia w :
  tripped w -> tripped (snd (generate_from_chunks env chunks n qt ia w)).
Proof.
  intros H. unfold generate_from_chunks, try_except, generate_steps.
  destruct (is_empty (normalize_types (requested_types qt) [])).
  - cbn. assumption.
  - unfold bind at 1. rewrite retrieve_tripped by assumption.
    destruct (evenly_distributed chunks (Z.min 3 (len chunks))) as [rel|e].
    + unfold bind.
      match goal with
      | |- context [type_loop ?e ?c ?p ?i ?t ?s w] =>
          pose proof (type_loop_flag e c p i t s w) as Hl;
          destruct (type_loop e c p i t s w) as [[st|e'] w']
      end; cbn in Hl |- *.
      * destruct (is_empty (all_questions st)); cbn;
          [destruct (negb (is_empty (connection_errors st))); cbn|];
          unfold tripped; congruence.
      * destruct (is_http_exception e'); cbn; unfold tripped; congruence.
    + destruct (is_http_exception e); cbn; assumption.
Qed.

Lemma perform_monotone env op w : tripped w -> tripped (perform env op w).
Proof.
  intros H. destruct op; cbn [perform].
  - now apply get_embedding_monotone.
  - now rewrite retrieve_tripped.
  - unfold tripped. now rewrite batch_flag.
  - now apply generate_from_chunks_monotone.
Qed.

Lemma perform_all_monotone env ops : forall w,
  tripped w -> tripped (perform_all env ops w).
Proof.
  unfold perform_all. induction ops as [|op ops IH]; intros w H; cbn.
  - assumption.
  - apply IH. now apply perform_monotone.
Qed.

(** C4: a failing embed call (a status other than 200, or any exception)
    returns the empty vector and sets the shared flag; from then on the
    flag stays set whatever the module does, and every later embed call
    returns the empty vector at once, with no request sent: the world,
    which records the requests, is left as it was. *)
Theorem embedding_breaker_latch (env : Env) (w : World) (text : str) :
  _embeddings_api_failed w = false ->
  call_fails (embeddings_reply env (length (embeddings_posts w))
                (slice_to text 2000)) ->
  let w1 := snd (get_embedding env text w) in
  fst (get_embedding env text w) = Ok [] /\
  _embeddings_api_failed w1 = true /\
  (forall ops, _embeddings_api_failed (perform_all env ops w1) = true) /\
  (forall ops text',
     let w2 := perform_all env ops w1 in
     get_embedding env text' w2 = (Ok [], w2) /\
     embeddings_posts (snd (get_embedding env text' w2)) = embeddings_posts w2) /\
  (forall texts, embed_all env texts w1 = (Ok (map (fun _ => []) texts), w1)).
Proof.
  intros Hflag Hfail. cbv zeta.
  assert (E : get_embedding env text w
              = (Ok [], trip (post_embeddings (slice_to text 2000) w))).
  { unfold get_embedding. rewrite Hflag.
    destruct (embeddings_reply env _ _) as [sc body| e |]; cbn in *;
      try reflexivity.
    destruct (Z.eqb_spec sc 200) as [->|Hne]; [|reflexivity].
    destruct Hfail as [Hf | [-> | ->]]; [now elim Hf | reflexivity | reflexivity]. }
  rewrite E. cbn [fst snd].
  assert (T : tripped (trip (post_embeddings (slice_to text 2000) w)))
    by reflexivity.
  split; [reflexivity|]. split; [reflexivity|]. split.
  - intros ops. now apply perform_all_monotone.
  - split.
    + intros ops text'. cbv zeta.
      rewrite get_embedding_tripped by now apply perform_all_monotone.
      split; reflexivity.
    + intros texts. now apply embed_all_tripped.
Qed.

Lemma embedding_breaker_latch_witness :
  let w1 := snd (get_embedding failing_env (lit "query") initial_world) in
  fst (get_embedding failing_env (lit "query") initial_world) = Ok [] /\
  _embeddings_api_failed w1 = true /\
  (forall ops, _embeddings_api_failed (perform_all failing_env ops w1) = true) /\
  (forall ops text',
     let w2 := perform_all failing_env ops w1 in
     get_embedding failing_env text' w2 = (Ok [], w2) /\
     embeddings_posts (snd (get_embedding failing_env text' w2))
       = embeddings_posts w2) /\
  (forall texts,
     embed_all failing_env texts w1 = (Ok (map (fun _ => []) texts), w1)).
Proof.
  apply (embedding_breaker_latch failing_env initial_world (lit "query")).
  - reflexivity.
  - cbn. left. discriminate.
Defined.

(** ** cosine_similarity *)

Lemma zero_is_nonneg : nonneg 0%float.
Proof. reflexivity. Qed.

Lemma nonneg_not_below_zero x : nonneg x -> (x <? 0)%float = false.
Proof.
  unfold nonneg. rewrite ltb_spec.
  change (Prim2SF 0) with (S754_zero false).
  destruct (Prim2SF x) as [s|s| |s m e]; try destruct s; cbn;
    intros H; try reflexivity; discriminate.
Qed.

(** Rounding keeps the sign it is given. *)
Lemma binary_round_aux_nonneg prec emax m e l :
  sf_nonneg (binary_round_aux prec emax false m e l) = true.
Proof.
  unfold binary_round_aux.
  destruct (shr_fexp prec emax m e l) as [mrs' e'].
  destruct (shr_fexp prec emax _ e' loc_Exact) as [mrs'' e''].
  destruct (shr_m mrs''); try reflexivity.
  destruct (e'' <=? emax - prec); reflexivity.
Qed.

Lemma binary_round_nonneg prec emax m e :
  sf_nonneg (binary_round prec emax false m e) = true.
Proof.
  unfold binary_round. destruct (shl_align m e _) as [mz ez].
  apply binary_round_aux_nonneg.
Qed.

(** A square is never below zero. *)
Lemma square_nonneg a : nonneg (a * a)%float.
Proof.
  unfold nonneg. rewrite mul_spec. unfold SF64mul, SFmul.
  destruct (Prim2SF a) as [s|s| |s m e]; try (destruct s; reflexivity).
  - reflexivity.
  - replace (xorb s s) with false by (destruct s; reflexivity).
    apply binary_round_aux_nonneg.
Qed.

(** Neither is the sum of two values that are not. *)
Lemma add_nonneg x y : nonneg x -> nonneg y -> nonneg (x + y)%float.
Proof.
  unfold nonneg. rewrite add_spec. unfold SF64add, SFadd.
  destruct (Prim2SF x) as [sx|sx| |sx mx ex];
    destruct (Prim2SF y) as [sy|sy| |sy my ey];
    try destruct sx; try destruct sy; cbn [sf_nonneg];
    intros Hx Hy; try reflexivity; try discriminate.
  unfold cond_Zopp. cbn [Z.add binary_normalize].
  apply binary_round_nonneg.
Qed.

Lemma fsum_squares_nonneg vec : forall acc,
  nonneg acc ->
  nonneg (fold_left PrimFloat.add (map (fun a => (a * a)%float) vec) acc).
Proof.
  induction vec as [|a vec IH]; intros acc H; cbn.
  - assumption.
  - apply IH, add_nonneg; [assumption | apply square_nonneg].
Qed.

(** [math.sqrt] never raises on a sum of squares. *)
Lemma magnitude_defined vec :
  math_sqrt (sum_squares vec) = Ok (PrimFloat.sqrt (sum_squares vec)).
Proof.
  unfold math_sqrt. rewrite nonneg_not_below_zero; [reflexivity|].
  apply fsum_squares_nonneg, zero_is_nonneg.
Qed.

(** A vector of zeros has zero magnitude. *)
Lemma all_zero_magnitude vec : all_zero vec -> zero_magnitude vec.
Proof.
  unfold zero_magnitude, sum_squares, fsum.
  induction 1 as [|a vec [-> | ->] _ IH]; cbn [map fold_left].
  - reflexivity.
  - exact IH.
  - exact IH.
Qed.

(** C6: on a degenerate pair of vectors (one of them empty, the two of
    unequal length, or one of them of zero magnitude) cosine_similarity
    returns exactly 0.0: a value, so neither ValueError nor
    ZeroDivisionError is raised and no division takes place, and not NaN. *)
Theorem cosine_similarity_degenerate (vec1 vec2 : list float) :
  degenerate vec1 vec2 -> cosine_similarity vec1 vec2 = Ok 0%float.
Proof.
  intros H. unfold cosine_similarity.
  destruct (is_empty vec1 || is_empty vec2
            || negb (Nat.eqb (length vec1) (length vec2))) eqn:E;
    [reflexivity|].
  apply orb_false_iff in E as [E E3]. apply orb_false_iff in E as [E1 E2].
  apply negb_false_iff, Nat.eqb_eq in E3.
  rewrite !magnitude_defined. cbn [res_bind].
  destruct H as [-> | [-> | [H | [H | H]]]]; try discriminate.
  - contradiction.
  - unfold zero_magnitude in H. now rewrite H.
  - unfold zero_magnitude in H. now rewrite H, orb_true_r.
Qed.

Lemma cosine_similarity_degenerate_witness :
  cosine_similarity [] [1%float; 2%float] = Ok 0%float /\
  cosine_similarity [0%float; 0%float] [1%float; 2%float] = Ok 0%float /\
  cosine_similarity [1%float] [1%float; 2%float] = Ok 0%float.
Proof.
  split; [|split].
  - apply (cosine_similarity_degenerate [] [1%float; 2%float]).
    left. reflexivity.
  - apply (cosine_similarity_degenerate [0%float; 0%float] [1%float; 2%float]).
    right. right. right. left. reflexivity.
  - apply (cosine_similarity_degenerate [1%float] [1%float; 2%float]).
    right. right. left. cbn. lia.
Defined.

Example cosine_orthogonal :
  cosine_similarity [1%float; 0%float] [0%float; 1%float] = Ok 0%float.
Proof. reflexivity. Qed.

Example cosine_same_direction :
  cosine_similarity [3%float; 4%float] [3%float; 4%float] = Ok 1%float.
Proof. reflexivity. Qed.

(** ** retrieve_relevant_chunks: the fallback path *)

Lemma index_in_bounds {A : Type} (l : list A) (j : Z) :
  0 <= j < len l ->
  exists a, index l j = Ok a /\ nth_error l (Z.to_nat j) = Some a.
Proof.
  intros H. unfold index.
  destruct (Z.ltb_spec j 0); [lia|].
  destruct (Z.leb_spec 0 j); [|lia].
  destruct (Z.ltb_spec j (len l)); [|lia]. cbn [andb].
  destruct (nth_error l (Z.to_nat j)) as [a|] eqn:E.
  - now exists a.
  - apply nth_error_None in E. unfold len in *. lia.
Qed.

Lemma range_length n : length (range n) = Z.to_nat n.
Proof. unfold range. now rewrite length_map, length_seq. Qed.

Lemma range_nth n i :
  0 <= i < n -> nth_error (range n) (Z.to_nat i) = Some i.
Proof.
  intros H. unfold range.
  rewrite nth_error_map, nth_error_seq.
  destruct (Nat.ltb_spec (Z.to_nat i) (Z.to_nat n)); [|lia].
  cbn. f_equal. lia.
Qed.

Lemma range_in n i : In i (range n) -> 0 <= i < n.
Proof.
  unfold range. rewrite in_map_iff. intros (k & <- & Hk).
  apply in_seq in Hk. lia.
Qed.

(** A comprehension whose element expression never raises on the list. *)
Lemma comprehension_ok {A B : Type} (f : A -> res B) (l : list A) :
  (forall x, In x l -> exists b, f x = Ok b) ->
  exists bs, comprehension f l = Ok bs /\
             Forall2 (fun x b => f x = Ok b) l bs.
Proof.
  induction l as [|x l IH]; intros H; cbn [comprehension].
  - exists []. split; [reflexivity | constructor].
  - destruct (H x (or_introl eq_refl)) as (b & Hb).
    destruct IH as (bs & E & F); [intros y Hy; apply H; now right|].
    exists (b :: bs). rewrite Hb, E. split; [reflexivity | now constructor].
Qed.

Lemma Forall2_nth {A B : Type} (P : A -> B -> Prop) l bs :
  Forall2 P l bs -> forall n x, nth_error l n = Some x ->
  exists b, nth_error bs n = Some b /\ P x b.
Proof.
  induction 1 as [|x b l bs Hxb _ IH]; intros [|n] y E; cbn in *;
    try discriminate.
  - injection E as <-. now exists b.
  - now apply IH.
Qed.

(** The sampled positions stay inside the list. *)
Lemma sample_in_bounds (n top_k i : Z) :
  1 <= top_k -> top_k < n -> 0 <= i < top_k ->
  1 <= n / top_k /\ 0 <= i * (n / top_k) < n.
Proof.
  intros Hk Hn Hi.
  assert (Hstep : 1 <= n / top_k) by (apply Z.div_le_lower_bound; lia).
  pose proof (Z.mul_div_le n top_k ltac:(lia)) as Hle.
  split; [assumption|]. split; [nia|]. nia.
Qed.

Lemma evenly_distributed_all (chunks : list str) (top_k : Z) :
  len chunks <= top_k -> evenly_distributed chunks top_k = Ok chunks.
Proof.
  intros H. unfold evenly_distributed.
  now destruct (Z.leb_spec (len chunks) top_k); [|lia].
Qed.

Lemma evenly_distributed_sample (chunks : list str) (top_k : Z) :
  1 <= top_k -> top_k < len chunks ->
  exists selected,
    evenly_distributed chunks top_k = Ok selected /\
    length selected = Z.to_nat top_k /\
    forall i, 0 <= i < top_k ->
      nth_error selected (Z.to_nat i)
      = nth_error chunks (Z.to_nat (i * (len chunks / top_k))) /\
      nth_error selected (Z.to_nat i) <> None.
Proof.
  intros Hk Hn. unfold evenly_distributed, floordiv.
  destruct (Z.leb_spec (len chunks) top_k); [lia|].
  destruct (Z.eqb_spec top_k 0); [lia|]. cbn [res_bind].
  destruct (comprehension_ok
              (fun i => index chunks (i * (len chunks / top_k))) (range top_k))
    as (selected & E & F).
  { intros i Hi. apply range_in in Hi.
    destruct (index_in_bounds chunks (i * (len chunks / top_k))) as (a & Ha & _).
    - now apply sample_in_bounds.
    - now exists a. }
  exists selected. split; [exact E|]. split.
  - rewrite <- (Forall2_length F). apply range_length.
  - intros i Hi.
    destruct (Forall2_nth _ _ _ F (Z.to_nat i) i (range_nth _ _ Hi))
      as (b & Hb & Hidx).
    destruct (index_in_bounds chunks (i * (len chunks / top_k))) as (a & Ha & Hn').
    { now apply sample_in_bounds. }
    rewrite Hb, Hn'. split; congruence.
Qed.

(** C7: with a non-empty chunk list, [top_k >= 1] and an empty query
    embedding, the selector takes the fallback path: all the chunks,
    unchanged, when there are at most [top_k] of them; otherwise exactly
    [top_k] chunks, the i-th being the chunk at index [i * step] with
    [step = len(chunks) // top_k], every index in bounds and the indices
    increasing, so that document order is kept. *)
Theorem fallback_selection (env : Env) (w : World) (chunks : list str)
    (query : str) (top_k : Z) :
  chunks <> [] -> 1 <= top_k ->
  fst (get_embedding env query w) = Ok [] ->
  let w' := snd (get_embedding env query w) in
  let step := len chunks / top_k in
  (len chunks <= top_k ->
   retrieve_relevant_chunks env chunks query top_k w = (Ok chunks, w')) /\
  (top_k < len chunks ->
   exists selected,
     retrieve_relevant_chunks env chunks query top_k w = (Ok selected, w') /\
     len selected = top_k /\
     1 <= step /\
     (forall i, 0 <= i < top_k ->
        0 <= i * step < len chunks /\
        nth_error selected (Z.to_nat i)
        = nth_error chunks (Z.to_nat (i * step)) /\
        nth_error selected (Z.to_nat i) <> None) /\
     (forall i j, 0 <= i -> i < j -> j < top_k -> i * step < j * step)).
Proof.
  intros Hne Hk Hq. cbv zeta.
  assert (R : retrieve_relevant_chunks env chunks query top_k w
              = (evenly_distributed chunks top_k, snd (get_embedding env query w))).
  { unfold retrieve_relevant_chunks, bind.
    destruct (get_embedding env query w) as [r w1]. cbn in Hq |- *.
    subst r. reflexivity. }
  rewrite R. split.
  - intros Hle. now rewrite evenly_distributed_all.
  - intros Hlt.
    destruct (evenly_distributed_sample chunks top_k Hk Hlt)
      as (selected & E & L & Hsel).
    exists selected. rewrite E.
    pose proof (sample_in_bounds (len chunks) top_k 0 Hk Hlt ltac:(lia))
      as [Hstep _].
    split; [reflexivity|]. split; [unfold len; lia|]. split; [assumption|].
    split.
    + intros i Hi. split; [now apply sample_in_bounds | now apply Hsel].
    + intros i j Hi Hij Hj. nia.
Qed.

Lemma fallback_selection_witness :
  let chunks := [lit "c0"; lit "c1"; lit "c2"; lit "c3"; lit "c4"] in
  exists selected,
    retrieve_relevant_chunks failing_env chunks (lit "q") 2 initial_world
    = (Ok selected,
       snd (get_embedding failing_env (lit "q") initial_world)) /\
    len selected = 2 /\
    1 <= len chunks / 2 /\
    (forall i, 0 <= i < 2 ->
       0 <= i * (len chunks / 2) < len chunks /\
       nth_error selected (Z.to_nat i)
       = nth_error chunks (Z.to_nat (i * (len chunks / 2))) /\
       nth_error selected (Z.to_nat i) <> None) /\
    (forall i j, 0 <= i -> i < j -> j < 2 ->
       i * (len chunks / 2) < j * (len chunks / 2)).
Proof.
  cbv zeta.
  apply (fallback_selection failing_env initial_world
           [lit "c0"; lit "c1"; lit "c2"; lit "c3"; lit "c4"] (lit "q") 2).
  - discriminate.
  - lia.
  - reflexivity.
  - reflexivity.
Defined.

Example fallback_five_chunks :
  fst (retrieve_relevant_chunks failing_env
         [lit "c0"; lit "c1"; lit "c2"; lit "c3"; lit "c4"] (lit "q") 2
         initial_world)
  = Ok [lit "c0"; lit "c2"].
Proof. reflexivity. Qed.

(** ** The multiple-choice parser *)





(** The dict holds four entries exactly when the four letters are found,
    and then it holds them in order. *)
Lemma collect_options_four part :
  (len (collect_options part) =? 4) = true ->
  exists a b c d,
    find_option "A" part = Some a /\ find_option "B" part = Some b /\
    find_option "C" part = Some c /\ find_option "D" part = Some d /\
    collect_options part
    = [(["A"%char], a); (["B"%char], b); (["C"%char], c); (["D"%char], d)].
Proof.
  unfold collect_options, option_letters. cbn [fold_left].
  destruct (find_option "A" part) as [a|];
    destruct (find_option "B" part) as [b|];
    destruct (find_option "C" part) as [c|];
    destruct (find_option "D" part) as [d|];
    cbn; intros H; try discriminate.
  now exists a, b, c, d.
Qed.


(** An accepted segment carries its four options, in order. *)
Lemma parse_mcq_record include_answers part q :
  parse_mcq include_answers part = Ok (Some q) ->
  exists question a b c d answer,
    find_option "A" part = Some a /\ find_option "B" part = Some b /\
    find_option "C" part = Some c /\ find_option "D" part = Some d /\
    q = strip (lit "Question: " ++ question ++ [Re.newline]
               ++ lit "A) " ++ a ++ [Re.newline]
               ++ lit "B) " ++ b ++ [Re.newline]
               ++ lit "C) " ++ c ++ [Re.newline]
               ++ lit "D) " ++ d ++ [Re.newline] ++ answer).
Proof.
  unfold parse_mcq.
  destruct (Re.search Re.mcq_question_pat part) as [q_match|]; [|discriminate].
  destruct (len (collect_options part) =? 4) eqn:E; [|discriminate].
  apply collect_options_four in E as (a & b & c & d & HA & HB & HC & HD & ->).
  cbn [format_options option_letters dict_item dict_get str_eqb Ascii.eqb
       Bool.eqb andb res_bind].
  intros H. injection H as <-.
  exists (strip (Re.group1 part q_match)), a, b, c, d.
  exists (if include_answers then
            match Re.search Re.mcq_answer_pat part with
            | Some ans_match =>
                lit "Correct Answer: " ++ upper (Re.group1 part ans_match)
            | None => []
            end
          else []).
  repeat (split; [assumption|]). f_equal.
  destruct include_answers;
    [destruct (Re.search Re.mcq_answer_pat part) as [ans|]|];
    rewrite <- ?app_assoc; cbn [app lit list_ascii_of_string];
    rewrite <- ?app_assoc; cbn [app]; rewrite ?app_nil_r; reflexivity.
Qed.



Example segment_abc_has_a_b_c :
  find_option "A" segment_abc = Some (lit "one") /\
  find_option "B" segment_abc = Some (lit "two") /\
  find_option "C" segment_abc = Some (lit "three") /\
  find_option "D" segment_abc = None.
Proof. repeat split. Qed.

Example segment_abcd_accepted :
  parse_mcq true segment_abcd
  = Ok (Some (unlines [lit "Question: What is x?"; lit "A) one"; lit "B) two";
                       lit "C) three"; lit "D) four";
                       lit "Correct Answer: B"])).
Proof. reflexivity. Qed.


(** The body of the per-segment [try] never raises: the four keys it
    reads from [options] are there whenever it reads them. *)
Lemma parse_part_never_raises q_type include_answers part :
  exists r, parse_part q_type include_answers part = Ok r.
Proof.
  unfold parse_part, parse_mcq, parse_truefalse, parse_shortanswer.
  destruct (str_eqb (lower q_type) (lit "mcq")).
  - destruct (Re.search Re.mcq_question_pat part); [|now eexists].
    destruct (len (collect_options part) =? 4) eqn:E; [|now eexists].
    apply collect_options_four in E as (a & b & c & d & _ & _ & _ & _ & ->).
    cbn. now eexists.
  - destruct (str_eqb (lower q_type) (lit "truefalse"));
      destruct (Re.search Re.statement_pat part); now eexists.
Qed.

(** ** generate_question_batch *)

Lemma slice_to_length {A : Type} (l : list A) (n : Z) :
  0 <= n -> len (slice_to l n) <= n.
Proof.
  intros H. unfold slice_to, slice, clamp, len.
  destruct (Z.ltb_spec 0 0); [lia|]. destruct (Z.ltb_spec n 0); [lia|].
  rewrite length_firstn. lia.
Qed.

(** The inner coroutine under [wait_for]: a list within the bound, or an
    exception that is not a connection error. *)
Lemma wait_for_generate env prompt q_type ia n w :
  match fst (wait_for (_generate env prompt q_type ia n) w) with
  | Ok qs => 0 <= n -> len qs <= n
  | Raise e => is_connect_error e = false
  end.
Proof.
  unfold wait_for, _generate, inner_handlers, inner_handlers_cancelled.
  destruct (generate_reply env _ prompt) as [sc body| e |]; cbn [fst].
  - destruct (sc =? 404); [cbn; unfold len; cbn; lia|].
    destruct (negb (sc =? 200)); [cbn; unfold len; cbn; lia|].
    destruct body as [| |field]; cbn.
    + destruct (httpx_has_TimeoutError env); cbn;
        [unfold len; cbn; lia | reflexivity].
    + destruct (httpx_has_TimeoutError env); cbn;
        [unfold len; cbn; lia | reflexivity].
    + unfold parse_response. apply slice_to_length.
  - destruct (is_connect_error e); cbn; [unfold len; cbn; lia|].
    destruct (httpx_has_TimeoutError env); cbn;
      [unfold len; cbn; lia | reflexivity].
  - destruct (httpx_has_TimeoutError env); cbn; reflexivity.
Qed.

Lemma generate_question_batch_returns env chunk q_type n prev ia timeout w :
  exists qs w',
    generate_question_batch env chunk q_type n prev ia timeout w = (Ok qs, w') /\
    (0 <= n -> len qs <= n).
Proof.
  unfold generate_question_batch, try_except.
  pose proof (wait_for_generate env (prompt_for q_type ia n chunk) q_type ia n w) as H.
  destruct (wait_for _ w) as [[qs|e] w']; cbn [fst] in H.
  - now exists qs, w'.
  - rewrite H. exists [], w'.
    destruct (is_asyncio_timeout e); (split; [reflexivity|]);
      unfold len; cbn; lia.
Qed.

(** The caller's handlers never run: a step of the loop always takes the
    branch after the call and leaves [connection_errors] as it was. *)
Lemma type_step_no_handler env ctx per ia st q_type w :
  exists st' w',
    type_step env ctx per ia st q_type w = (Ok st', w') /\
    connection_errors st' = connection_errors st.
Proof.
  unfold type_step, type_step_with.
  destruct (next_quota per (remaining st)) as [n r'].
  unfold try_except, bind.
  destruct (generate_question_batch_returns env ctx q_type n
              (previous_questions st) ia 120 w) as (qs & w' & E & _).
  rewrite E. cbn. eexists _, w'. split; reflexivity.
Qed.

Lemma type_loop_no_handler env ctx per ia types : forall st w,
  exists st' w',
    type_loop env ctx per ia types st w = (Ok st', w') /\
    connection_errors st' = connection_errors st.
Proof.
  unfold type_loop.
  induction types as [|t types IH]; intros st w; cbn [type_loop_with].
  - now exists st, w.
  - unfold bind.
    destruct (type_step_no_handler env ctx per ia st t w) as (st1 & w1 & E & C).
    unfold type_step in E. rewrite E.
    destruct (IH st1 w1) as (st2 & w2 & E2 & C2).
    exists st2, w2. split; [exact E2 | congruence].
Qed.

(** C10: generate_question_batch is total at its interface.  For every
    count from 0 up to the largest that the interpreter prints (a request
    of the endpoint makes the module pass quotas from 1 to 51,
    [endpoint_quotas_within_limit]), every chunk, type and set of
    previous questions, and every behaviour of the backend (a connection
    error, a timeout, a 404 or another status, a body that cannot be
    read) it returns a list of at most [num_questions] strings and
    propagates no exception; and in the caller, whose quotas are
    [per_type] or one more, the connection-error handler is unreachable,
    so that [connection_errors] never grows. *)
Theorem generate_question_batch_total (env : Env) (chunk q_type : str)
    (num_questions : Z) (previous : list str) (include_answers : bool)
    (timeout : Z) (w : World) :
  0 <= num_questions < 10 ^ int_max_str_digits ->
  (exists qs w',
     generate_question_batch env chunk q_type num_questions previous
       include_answers timeout w = (Ok qs, w') /\
     len qs <= num_questions) /\
  (forall per_type types st,
     1 <= per_type -> per_type + 1 < 10 ^ int_max_str_digits ->
     exists st' w',
       type_loop env chunk per_type include_answers types st w = (Ok st', w') /\
       connection_errors st' = connection_errors st).
Proof.
  intros [Hn _]. split.
  - destruct (generate_question_batch_returns env chunk q_type num_questions
                previous include_answers timeout w) as (qs & w' & E & B).
    exists qs, w'. split; [exact E | now apply B].
  - intros per_type types st _ _. apply type_loop_no_handler.
Qed.

Lemma generate_question_batch_total_witness :
  exists qs w',
    generate_question_batch two_questions_env (lit "text") (lit "shortanswer")
      1 [] false 120 initial_world = (Ok qs, w') /\
    len qs <= 1.
Proof.
  destruct (generate_question_batch_total two_questions_env (lit "text")
              (lit "shortanswer") 1 [] false 120 initial_world)
    as [(qs & w' & E & B) _].
  - split; [lia | vm_compute; reflexivity].
  - exists qs, w'. split; [exact E | exact B].
Defined.

(** The backend sends two questions and one is asked for: one comes
    back. *)
Example batch_keeps_to_the_count :
  fst (generate_question_batch two_questions_env (lit "text")
         (lit "shortanswer") 1 [] false 120 initial_world)
  = Ok [lit "Question: What is a cell?"].
Proof. reflexivity. Qed.

(** The bound comes from the slice [questions[:num_questions]]; a count
    below zero, which no call of the module passes, would make the slice
    drop items from the end. *)
Example batch_negative_count :
  fst (generate_question_batch two_questions_env (lit "text")
         (lit "shortanswer") (-1) [] false 120 initial_world)
  = Ok [lit "Question: What is a cell?"].
Proof. reflexivity. Qed.

(** ** The per-type loop and connection errors *)

(** Were a connection error to reach the loop, it would be recorded and
    the loop would go on with the next type. *)
Lemma type_step_records_connection_error (batch : batch_fn) ctx per ia st
    q_type w e w1 :
  batch ctx q_type (fst (next_quota per (remaining st)))
    (previous_questions st) ia 120 w = (Raise e, w1) ->
  is_connect_error e = true ->
  exists st',
    type_step_with batch ctx per ia st q_type w = (Ok st', w1) /\
    connection_errors st'
    = connection_errors st
        ++ [lit "Cannot connect to Ollama service: " ++ exn_msg e] /\
    all_questions st' = all_questions st.
Proof.
  intros E C. unfold type_step_with.
  destruct (next_quota per (remaining st)) as [n r']. cbn [fst] in E.
  unfold try_except, bind. rewrite E, C. cbn.
  eexists. repeat split.
Qed.

Example loop_with_errors_let_through :
  exists st,
    type_loop_with batch_letting_errors_through (lit "ctx") 5 false
      [lit "truefalse"; lit "shortanswer"] (loop_start 0) initial_world
    = (Ok st, initial_world) /\
    all_questions st = five_parsed /\
    connection_errors st
    = [lit "Cannot connect to Ollama service: All connection attempts failed"].
Proof. eexists. repeat split. Qed.

(** C2 (evaluation at the failing input): the first type meets a refused
    connection, the second gets five questions.  The call succeeds with
    those five questions, but the connection error is swallowed inside
    generate_question_batch: the loop ends with [connection_errors] empty,
    whether or not httpx knows the name TimeoutError. *)
Theorem connection_error_not_recorded (has_name : bool) :
  (exists r w',
     generate_from_text 1 (flaky_env has_name) cell_text 10
       (lit "truefalse,shortanswer") false initial_world
     = Some (Ok r, w') /\
     count r = 5 /\
     questions r = join blank_line (numbered 0 five_parsed) /\
     types r = [lit "truefalse"; lit "shortanswer"] /\
     length (generate_posts w') = 2%nat) /\
  (exists st w',
     type_loop (flaky_env has_name) cell_text 5 false
       [lit "truefalse"; lit "shortanswer"] (loop_start 0) initial_world
     = (Ok st, w') /\
     all_questions st = five_parsed /\
     connection_errors st = []).
Proof.
  destruct has_name; split; eexists _, _; repeat split.
Qed.

(** With the module's settings chunking always finishes, so the steps
    after it are reached. *)
Lemma generate_from_text_runs env cleaned_text n question_types ia w :
  exists out,
    generate_from_text (length cleaned_text) env cleaned_text n
      question_types ia w = Some out.
Proof.
  unfold generate_from_text.
  assert (E : exists chunks,
             chunk_text (length cleaned_text) cleaned_text 1500 150 = Some chunks).
  { rewrite chunk_text_windows. unfold chunk_windows.
    destruct (Z.leb_spec (len cleaned_text) 1500); [now eexists|].
    destruct (window_loop_spec (len cleaned_text) 1500 150 ltac:(lia)
                (length cleaned_text) 0 []) as (ws & -> & _);
      [lia | unfold len; lia |]. now eexists. }
  destruct E as (chunks & ->). now eexists.
Qed.

(** ** The counts the loop asks for *)

Lemma _generate_posts env prompt q_type ia n w :
  generate_posts (snd (_generate env prompt q_type ia n w))
  = generate_posts w ++ [prompt].
Proof.
  unfold _generate.
  destruct (generate_reply env _ prompt) as [sc body| e |]; cbn;
    try reflexivity.
  destruct (sc =? 404); [reflexivity|].
  destruct (negb (sc =? 200)); [reflexivity|].
  destruct body; reflexivity.
Qed.

(** Every call of generate_question_batch sends one request, built from
    the type and the count it is given. *)
Lemma batch_posts env chunk q_type n prev ia timeout w :
  generate_posts
    (snd (generate_question_batch env chunk q_type n prev ia timeout w))
  = generate_posts w ++ [prompt_for q_type ia n chunk].
Proof.
  unfold generate_question_batch, try_except, wait_for.
  pose proof (_generate_posts env (prompt_for q_type ia n chunk) q_type ia n w) as H.
  destruct (_generate env _ q_type ia n w) as [[[l|e]|] w']; cbn in *;
    try assumption.
  destruct (is_asyncio_timeout e); [assumption|].
  destruct (is_connect_error e); assumption.
Qed.

Lemma type_step_posts env ctx per ia st q_type w :
  exists st' w',
    type_step env ctx per ia st q_type w = (Ok st', w') /\
    remaining st' = snd (next_quota per (remaining st)) /\
    generate_posts w'
    = generate_posts w
        ++ [prompt_for q_type ia (fst (next_quota per (remaining st))) ctx].
Proof.
  unfold type_step, type_step_with.
  destruct (next_quota per (remaining st)) as [n r'].
  unfold try_except, bind.
  pose proof (batch_posts env ctx q_type n (previous_questions st) ia 120 w) as P.
  destruct (generate_question_batch_returns env ctx q_type n
              (previous_questions st) ia 120 w) as (qs & w' & E & _).
  rewrite E in *. cbn in *. eexists _, w'. repeat split. exact P.
Qed.

(** The loop sends one request per type, in order, with the counts of
    [quota_walk]. *)
Lemma type_loop_posts env ctx per ia types : forall st w,
  generate_posts (snd (type_loop env ctx per ia types st w))
  = generate_posts w
      ++ prompts_for ctx ia types (quota_walk types per (remaining st)).
Proof.
  unfold type_loop, prompts_for.
  induction types as [|t types IH]; intros st w;
    cbn [type_loop_with quota_walk].
  - cbn. now rewrite app_nil_r.
  - unfold bind.
    destruct (type_step_posts env ctx per ia st t w) as (st1 & w1 & E & R & P).
    unfold type_step in E. rewrite E, IH, P, R.
    destruct (next_quota per (remaining st)) as [n r']. cbn.
    now rewrite <- app_assoc.
Qed.

(** C9: planning 10 questions over mcq, truefalse, shortanswer gives base 3
    and remainder 1, so the first type is asked for 4 and the others for 3;
    the requested counts add up to 10; and these are the counts the loop
    puts into its three requests. *)
Theorem plan_10_quotas :
  questions_per_type 10 three_types = 3 /\
  remaining0 10 three_types = 1 /\
  plan 10 three_types = [4; 3; 3] /\
  Py.sum (plan 10 three_types) = 10 /\
  (forall env ctx ia w,
     generate_posts
       (snd (type_loop env ctx (questions_per_type 10 three_types) ia
               three_types (loop_start (remaining0 10 three_types)) w))
     = generate_posts w
         ++ [prompt_for (lit "mcq") ia 4 ctx;
             prompt_for (lit "truefalse") ia 3 ctx;
             prompt_for (lit "shortanswer") ia 3 ctx]).
Proof.
  repeat split. intros env ctx ia w. now rewrite type_loop_posts.
Qed.

(** C1 (evaluation at the failing input): planning 2 questions over mcq,
    truefalse, shortanswer gives base max(1, 2 // 3) = 1 and remainder
    2 % 3 = 2, and the remainder is handed out on top of the floor: the
    quotas are [2,2,1] and not [1,1,1], the requested counts add up to 5
    and not to 3; these are the counts the loop puts into its three
    requests. *)
Theorem plan_2_quotas :
  questions_per_type 2 three_types = 1 /\
  remaining0 2 three_types = 2 /\
  plan 2 three_types = [2; 2; 1] /\
  Forall (fun n => 1 <= n) (plan 2 three_types) /\
  Py.sum (plan 2 three_types) = 5 /\
  (forall env ctx ia w,
     generate_posts
       (snd (type_loop env ctx (questions_per_type 2 three_types) ia
               three_types (loop_start (remaining0 2 three_types)) w))
     = generate_posts w
         ++ [prompt_for (lit "mcq") ia 2 ctx;
             prompt_for (lit "truefalse") ia 2 ctx;
             prompt_for (lit "shortanswer") ia 1 ctx]).
Proof.
  split; [reflexivity|]. split; [reflexivity|]. split; [reflexivity|].
  split; [repeat constructor; discriminate|]. split; [reflexivity|].
  intros env ctx ia w. now rewrite type_loop_posts.
Qed.

(** The quotas for a total of 2 are not the [1,1,1] of an exact split
    floored at one, and their sum is not 3. *)
Lemma plan_2_not_all_ones :
  plan 2 three_types <> [1; 1; 1] /\ Py.sum (plan 2 three_types) <> 3.
Proof. split; discriminate. Qed.

(** Below the number of types the remainder is added to quotas that the
    floor has already raised: a total of 1 asks for 4 questions and a
    total of 2 for 5, more than the 3 that a total of 3 asks for. *)
Example smaller_total_asks_for_more :
  plan 1 three_types = [2; 1; 1] /\
  plan 2 three_types = [2; 2; 1] /\
  plan 3 three_types = [1; 1; 1] /\
  Py.sum (plan 3 three_types) < Py.sum (plan 1 three_types)
                              < Py.sum (plan 2 three_types).
Proof. repeat split. Qed.

(** The endpoint's default type list normalises to the three types. *)
Example default_types_normalized :
  normalize_types (requested_types (lit "mcq,trueFalse,shortAnswer")) []
  = three_types.
Proof. reflexivity. Qed.

Example aliases_collapse :
  normalize_types (requested_types (lit " MCQ, multiplechoice ,tf,sa")) []
  = three_types.
Proof. reflexivity. Qed.

(** * Further properties of the pipeline *)

(** ** Quotas *)

(** For a non-empty type list and a total that is not negative, the
    requested counts add up to the total when it reaches the number of
    types, and to the total plus the number of types when it does not. *)
Theorem quota_sum_law {T : Type} (num_questions : Z) (types : list T) :
  types <> [] -> 0 <= num_questions ->
  Py.sum (plan num_questions types)
  = if len types <=? num_questions then num_questions
    else len types + num_questions.
Proof. exact (plan_sum num_questions types). Qed.

Lemma quota_sum_law_witness :
  Py.sum (plan 2 three_types) = len three_types + 2 /\
  Py.sum (plan 7 three_types) = 7.
Proof.
  split.
  - apply (quota_sum_law 2 three_types); [discriminate | lia].
  - apply (quota_sum_law 7 three_types); [discriminate | lia].
Defined.

Lemma quota_walk_shape {T : Type} (types : list T) (per_type : Z) :
  forall remaining, 0 <= remaining ->
  quota_walk types per_type remaining
  = repeat (per_type + 1) (Nat.min (Z.to_nat remaining) (length types))
    ++ repeat per_type (length types - Z.to_nat remaining).
Proof.
  induction types as [|t types IH]; intros r Hr.
  - cbn. now rewrite Nat.min_0_r.
  - cbn [quota_walk length]. unfold next_quota.
    destruct (Z.gtb_spec r 0) as [Hpos|Hz].
    + rewrite IH by lia.
      replace (Z.to_nat r) with (S (Z.to_nat (r - 1))) by lia.
      cbn [Nat.min repeat app Nat.sub]. reflexivity.
    + rewrite IH by lia. replace r with 0 by lia.
      cbn. now rewrite Nat.sub_0_r.
Qed.

(** The quotas are the base for every type, plus one for each of the
    first [num_questions % len(types)] types; every type is asked for at
    least one question. *)
Theorem plan_shape {T : Type} (num_questions : Z) (types : list T) :
  types <> [] ->
  let base := questions_per_type num_questions types in
  let extra := Z.to_nat (num_questions mod len types) in
  plan num_questions types
  = repeat (base + 1) extra ++ repeat base (length types - extra) /\
  (extra < length types)%nat /\
  1 <= base /\
  Forall (fun q => 1 <= q) (plan num_questions types).
Proof.
  intros Hne. cbv zeta.
  assert (Hk : 0 < len types) by (destruct types; [easy | unfold len; cbn; lia]).
  pose proof (Z.mod_pos_bound num_questions (len types) Hk) as Hm.
  assert (Hlt : (Z.to_nat (num_questions mod len types) < length types)%nat)
    by (unfold len in *; lia).
  assert (Hb : 1 <= questions_per_type num_questions types)
    by (unfold questions_per_type; lia).
  assert (E : plan num_questions types
              = repeat (questions_per_type num_questions types + 1)
                  (Z.to_nat (num_questions mod len types))
                ++ repeat (questions_per_type num_questions types)
                     (length types - Z.to_nat (num_questions mod len types))).
  { unfold plan, remaining0. rewrite quota_walk_shape by lia.
    now rewrite Nat.min_l by lia. }
  repeat split; try assumption.
  rewrite E. apply Forall_app. split; apply Forall_forall; intros q Hq;
    apply repeat_spec in Hq; lia.
Qed.

Lemma plan_shape_witness :
  plan 11 three_types = repeat (3 + 1) 2 ++ repeat 3 (3 - 2) /\
  Forall (fun q => 1 <= q) (plan 11 three_types).
Proof.
  destruct (plan_shape 11 three_types) as (E & _ & _ & F); [discriminate|].
  split; [exact E | exact F].
Defined.

(** ** Chunks *)

Section ChunkCount.

Context {A : Type}.

(** From a start that leaves more than the overlap to read, every window
    is longer than the overlap and no longer than the chunk size, and the
    windows number the ceiling of what is left to read over the stride. *)
Lemma windows_from_count n cs ov s (ws : list (Z * Z)) :
  0 <= ov < cs -> 0 <= s ->
  windows_from n cs ov s ws -> ov < n - s ->
  len ws = (n - s - ov + (cs - ov) - 1) / (cs - ov) /\
  Forall (fun w => 0 <= fst w /\ snd w <= n /\
                   ov < snd w - fst w <= cs) ws.
Proof.
  intros Hov Hs W. induction W as [s H1 H2 | s ws H1 H2 IH]; intros Hleft.
  - split; [|repeat constructor; cbn; lia].
    unfold len. cbn [length]. change (Z.of_nat 1) with 1.
    apply Z.div_unique with (r := n - s - ov - 1); lia.
  - destruct IH as [IHc IHf]; [lia | lia |]. split.
    + unfold len in *. cbn [length]. rewrite Nat2Z.inj_succ, IHc.
      replace (n - s - ov + (cs - ov) - 1)
        with ((n - (s + cs - ov) - ov + (cs - ov) - 1) + 1 * (cs - ov)) by lia.
      rewrite Z.div_add by lia. lia.
    + constructor; [cbn; lia | exact IHf].
Qed.

(** The number of chunks is ceil((len(text) - overlap) / (chunk_size -
    overlap)), and every chunk, the last included, is longer than the
    overlap and at most [chunk_size] long. *)
Theorem chunk_text_count (text : list A) (chunk_size overlap : Z) :
  len text > chunk_size -> 0 <= overlap -> overlap < chunk_size ->
  exists chunks,
    chunk_text (length text) text chunk_size overlap = Some chunks /\
    len chunks
    = (len text - overlap + (chunk_size - overlap) - 1) / (chunk_size - overlap) /\
    Forall (fun c => overlap < len c <= chunk_size) chunks.
Proof.
  intros Hlen Hov0 Hov.
  destruct (window_loop_spec (len text) chunk_size overlap ltac:(lia)
              (length text) 0 []) as (ws & E & W).
  { unfold len in *. lia. }
  { unfold len. lia. }
  destruct (windows_from_count (len text) chunk_size overlap 0 ws)
    as [Hc Hf]; [lia | lia | exact W | lia |].
  exists (map (cut text) ws). split; [|split].
  - rewrite chunk_text_windows. unfold chunk_windows.
    destruct (Z.leb_spec (len text) chunk_size); [lia|]. now rewrite E.
  - unfold len in *. rewrite length_map. rewrite Hc. f_equal. lia.
  - apply Forall_map. eapply Forall_impl; [|exact Hf].
    intros [a b] (Ha & Hb & Hab). cbn [fst snd] in *.
    rewrite cut_seg by lia. unfold len in *. rewrite seg_length; lia.
Qed.

End ChunkCount.

Lemma chunk_text_count_witness :
  exists chunks,
    chunk_text 5 (lit "abcde") 2 1 = Some chunks /\
    len chunks = (5 - 1 + (2 - 1) - 1) / (2 - 1) /\
    Forall (fun c => 1 < len c <= 2) chunks.
Proof.
  apply (chunk_text_count (lit "abcde") 2 1); [reflexivity | lia | lia].
Defined.

(** ** Question types *)

Lemma str_eqb_eq (a b : str) : str_eqb a b = true <-> a = b.
Proof.
  revert b. induction a as [|x a IH]; intros [|y b]; cbn; split;
    try easy.
  - intros H. apply andb_true_iff in H as [Hx Hab].
    apply Ascii.eqb_eq in Hx. apply IH in Hab. congruence.
  - intros H. injection H as -> ->. apply andb_true_iff. split.
    + apply Ascii.eqb_refl.
    + now apply IH.
Qed.

Lemma mem_In (x : str) (l : list str) : mem x l = true <-> In x l.
Proof.
  unfold mem. rewrite existsb_exists. split.
  - intros (y & Hy & E). apply str_eqb_eq in E. now subst.
  - intros H. exists x. split; [assumption | now apply str_eqb_eq].
Qed.

Lemma split_on_nonempty c s : split_on c s <> [].
Proof.
  destruct s as [|x s]; cbn; [discriminate|].
  destruct (Ascii.eqb x c); [discriminate|].
  destruct (split_on c s); discriminate.
Qed.

Lemma normalize_types_acc requested : forall acc,
  NoDup acc ->
  NoDup (normalize_types requested acc) /\
  incl acc (normalize_types requested acc) /\
  (acc <> [] \/ requested <> [] -> normalize_types requested acc <> []).
Proof.
  induction requested as [|q requested IH]; intros acc Hnd; cbn [normalize_types].
  - repeat split; [assumption | apply incl_refl | now intros [H|H]].
  - set (t := match dict_get type_mapping q with Some t => t | None => q end).
    destruct (mem t acc) eqn:Hm.
    + destruct (IH acc Hnd) as (N & I & E). repeat split; [assumption..|].
      intros _. apply E. left. apply mem_In in Hm. now destruct acc.
    + assert (Hnd' : NoDup (acc ++ [t])).
      { apply NoDup_app; [assumption | repeat constructor; easy |].
        intros x Hx [<-|[]]. apply mem_In in Hx. congruence. }
      destruct (IH (acc ++ [t]) Hnd') as (N & I & E). repeat split.
      * assumption.
      * intros x Hx. apply I, in_or_app. now left.
      * intros _. apply E. left. now destruct acc.
Qed.

Lemma normalized_types_facts (question_types : str) :
  let normalized_types := normalize_types (requested_types question_types) [] in
  normalized_types <> [] /\ NoDup normalized_types /\
  is_empty normalized_types = false.
Proof.
  cbv zeta.
  destruct (normalize_types_acc (requested_types question_types) [])
    as (N & _ & E); [constructor|].
  assert (Hne : normalize_types (requested_types question_types) [] <> []).
  { apply E. right. unfold requested_types.
    pose proof (split_on_nonempty ","%char question_types).
    now destruct (split_on ","%char question_types). }
  repeat split; try assumption.
  now destruct (normalize_types (requested_types question_types) []).
Qed.

(** Whatever the [question_types] string, the normalised list is never
    empty and holds no type twice; so the "No valid question types" guard
    never fires, and a name outside the mapping stays in the list. *)
Theorem normalized_types_nonempty_nodup (question_types : str) :
  let normalized_types := normalize_types (requested_types question_types) [] in
  normalized_types <> [] /\ NoDup normalized_types /\
  is_empty normalized_types = false.
Proof. exact (normalized_types_facts question_types). Qed.

Example unknown_type_kept :
  normalize_types (requested_types (lit "essay,mcq,Essay ,")) []
  = [lit "essay"; lit "mcq"; []].
Proof. reflexivity. Qed.

(** A type that is neither mcq nor truefalse, whatever it is, gets the
    short-answer prompt and the short-answer parser: the call behaves as
    for "shortanswer". *)
Theorem unknown_type_is_short_answer (env : Env) (chunk q_type : str)
    (num_questions : Z) (previous : list str) (include_answers : bool)
    (timeout : Z) (w : World) :
  str_eqb (lower q_type) (lit "mcq") = false ->
  str_eqb (lower q_type) (lit "truefalse") = false ->
  generate_question_batch env chunk q_type num_questions previous
    include_answers timeout w
  = generate_question_batch env chunk (lit "shortanswer") num_questions
      previous include_answers timeout w.
Proof.
  intros H1 H2. unfold generate_question_batch.
  assert (P : prompt_for q_type include_answers num_questions chunk
              = prompt_for (lit "shortanswer") include_answers num_questions chunk).
  { unfold prompt_for. now rewrite H1, H2. }
  assert (Q : forall parts qs,
             parse_parts q_type include_answers parts qs
             = parse_parts (lit "shortanswer") include_answers parts qs).
  { induction parts as [|p parts IH]; intros qs; cbn [parse_parts];
      [reflexivity|].
    destruct (is_empty (strip p)); [apply IH|].
    unfold parse_part. rewrite H1, H2. cbn [lower map lit list_ascii_of_string].
    change (str_eqb _ (lit "mcq")) with false.
    change (str_eqb _ (lit "truefalse")) with false.
    destruct (parse_shortanswer include_answers p) as [[q|]|e]; apply IH. }
  rewrite P. unfold try_except, wait_for, _generate.
  destruct (generate_reply env _ _) as [sc body| e |]; try reflexivity.
  destruct (sc =? 404); [reflexivity|].
  destruct (negb (sc =? 200)); [reflexivity|].
  destruct body; try reflexivity.
  unfold parse_response. now rewrite Q.
Qed.

Lemma unknown_type_is_short_answer_witness :
  generate_question_batch two_questions_env (lit "text") (lit "essay") 2 []
    false 120 initial_world
  = generate_question_batch two_questions_env (lit "text") (lit "shortanswer")
      2 [] false 120 initial_world.
Proof.
  apply (unknown_type_is_short_answer two_questions_env (lit "text")
           (lit "essay") 2 [] false 120 initial_world); reflexivity.
Defined.

(** ** The per-type loop *)

Lemma _generate_embeddings env prompt q_type ia n w :
  embeddings_posts (snd (_generate env prompt q_type ia n w))
  = embeddings_posts w.
Proof.
  unfold _generate.
  destruct (generate_reply env _ prompt) as [sc body| e |]; cbn;
    try reflexivity.
  destruct (sc =? 404); [reflexivity|].
  destruct (negb (sc =? 200)); [reflexivity|].
  destruct body; reflexivity.
Qed.

Lemma batch_embeddings env chunk q_type n prev ia timeout w :
  embeddings_posts
    (snd (generate_question_batch env chunk q_type n prev ia timeout w))
  = embeddings_posts w.
Proof.
  unfold generate_question_batch, try_except, wait_for.
  pose proof (_generate_embeddings env (prompt_for q_type ia n chunk)
                q_type ia n w) as H.
  destruct (_generate env _ q_type ia n w) as [[[l|e]|] w']; cbn in *;
    try assumption.
  destruct (is_asyncio_timeout e); [assumption|].
  destruct (is_connect_error e); assumption.
Qed.

(** What one iteration does to the loop's variables. *)
Lemma type_step_result env ctx per ia st q_type w :
  exists qs w',
    type_step env ctx per ia st q_type w
    = (Ok {| remaining := snd (next_quota per (remaining st));
             all_questions := all_questions st ++ qs;
             previous_questions := add_previous (previous_questions st) qs;
             connection_errors := connection_errors st |}, w') /\
    (0 <= fst (next_quota per (remaining st)) ->
     len qs <= fst (next_quota per (remaining st))) /\
    embeddings_posts w' = embeddings_posts w /\
    _embeddings_api_failed w' = _embeddings_api_failed w.
Proof.
  unfold type_step, type_step_with.
  destruct (next_quota per (remaining st)) as [n r'].
  unfold try_except, bind.
  pose proof (batch_embeddings env ctx q_type n (previous_questions st) ia 120 w) as P.
  pose proof (batch_flag env ctx q_type n (previous_questions st) ia 120 w) as F.
  destruct (generate_question_batch_returns env ctx q_type n
              (previous_questions st) ia 120 w) as (qs & w' & E & B).
  rewrite E in *. cbn in *. exists qs, w'. repeat split; assumption.
Qed.

Lemma next_quota_bounds per r :
  1 <= per -> 0 <= r ->
  1 <= fst (next_quota per r) /\ 0 <= snd (next_quota per r).
Proof.
  intros Hp Hr. unfold next_quota.
  destruct (Z.gtb_spec r 0); cbn; lia.
Qed.

Lemma len_app {A : Type} (l1 l2 : list A) : len (l1 ++ l2) = len l1 + len l2.
Proof. unfold len. rewrite length_app. lia. Qed.

(** The loop never gathers more questions than the quotas add up to, it
    records no connection error, and it leaves the embedding side of the
    world alone. *)
Lemma type_loop_result env ctx per ia types : forall st w,
  1 <= per -> 0 <= remaining st ->
  exists st' w',
    type_loop env ctx per ia types st w = (Ok st', w') /\
    len (all_questions st')
    <= len (all_questions st)
       + Py.sum (quota_walk types per (remaining st)) /\
    connection_errors st' = connection_errors st /\
    embeddings_posts w' = embeddings_posts w.
Proof.
  unfold type_loop.
  induction types as [|t types IH]; intros st w Hp Hr;
    cbn [type_loop_with quota_walk].
  - exists st, w. repeat split. cbn. lia.
  - unfold bind.
    destruct (type_step_result env ctx per ia st t w)
      as (qs & w1 & E & B & P & _).
    unfold type_step in E. rewrite E.
    destruct (next_quota_bounds per (remaining st) Hp Hr) as [Hn Hr'].
    destruct (next_quota per (remaining st)) as [n r'] eqn:Q. cbn [fst snd] in *.
    match goal with
    | |- context [type_loop_with _ ctx per ia types ?s w1] =>
        destruct (IH s w1 Hp Hr') as (st2 & w2 & E2 & B2 & C2 & P2)
    end.
    cbn [remaining all_questions connection_errors] in *.
    exists st2, w2. rewrite E2. repeat split; try congruence.
    rewrite sum_cons, len_app in *. specialize (B ltac:(lia)). lia.
Qed.

(** The loop sends exactly one generation request per type, in the order
    of the types, whatever the replies are, and no embedding request. *)
Theorem type_loop_one_request_per_type (env : Env) (ctx : str) (per : Z)
    (ia : bool) (types : list str) (st : loop_state) (w : World) :
  let w' := snd (type_loop env ctx per ia types st w) in
  length (generate_posts w') = (length (generate_posts w) + length types)%nat /\
  generate_posts w'
  = generate_posts w
      ++ prompts_for ctx ia types (quota_walk types per (remaining st)) /\
  embeddings_posts w' = embeddings_posts w.
Proof.
  cbv zeta. rewrite type_loop_posts. split; [|split; [reflexivity|]].
  - rewrite length_app. f_equal. unfold prompts_for.
    rewrite length_map, length_combine.
    assert (L : forall (ts : list str) r, length (quota_walk ts per r) = length ts).
    { induction ts as [|t ts IH]; intros r; cbn [quota_walk]; [reflexivity|].
      destruct (next_quota per r). cbn. now rewrite IH. }
    rewrite L. apply Nat.min_id.
  - unfold type_loop. revert st w.
    induction types as [|t types IH]; intros st w; cbn [type_loop_with];
      [reflexivity|].
    unfold bind.
    destruct (type_step_result env ctx per ia st t w)
      as (qs & w1 & E & _ & P & _).
    unfold type_step in E. rewrite E. now rewrite IH.
Qed.

(** ** What retrieval can raise and return *)

Lemma comprehension_raise {A B : Type} (f : A -> res B) l e :
  comprehension f l = Raise e -> exists x, In x l /\ f x = Raise e.
Proof.
  induction l as [|x l IH]; cbn [comprehension]; [discriminate|].
  destruct (f x) as [b|e'] eqn:Ex; cbn [res_bind].
  - destruct (comprehension f l) as [bs|e'']; cbn [res_bind]; [discriminate|].
    intros H. destruct IH as (y & Hy & Ey); [assumption|].
    exists y. split; [now right | assumption].
  - intros H. injection H as <-. exists x. split; [now left | assumption].
Qed.

Lemma index_raise {A : Type} (l : list A) i e :
  index l i = Raise e -> exn_cls e = IndexError.
Proof.
  unfold index.
  destruct ((0 <=? _) && (_ <? len l));
    [destruct (nth_error l _); [discriminate|]|];
    intros H; injection H as <-; reflexivity.
Qed.

Lemma evenly_distributed_raise chunks top_k e :
  evenly_distributed chunks top_k = Raise e ->
  exn_cls e = IndexError \/ exn_cls e = ZeroDivisionError.
Proof.
  unfold evenly_distributed, floordiv.
  destruct (len chunks <=? top_k); [discriminate|].
  destruct (top_k =? 0); cbn [res_bind].
  - intros H. injection H as <-. now right.
  - intros H. apply comprehension_raise in H as (i & _ & H).
    left. eapply index_raise, H.
Qed.

Lemma cosine_similarity_raise vec1 vec2 e :
  cosine_similarity vec1 vec2 = Raise e -> exn_cls e = ZeroDivisionError.
Proof.
  unfold cosine_similarity.
  destruct (is_empty vec1 || is_empty vec2 || _); [discriminate|].
  rewrite !magnitude_defined. cbn [res_bind].
  destruct (_ || _); [discriminate|]. unfold truediv.
  destruct (_ =? 0)%float; [|discriminate].
  intros H. injection H as <-. reflexivity.
Qed.

Lemma score_chunks_spec query_embedding : forall chunk_embeddings,
  match score_chunks query_embedding chunk_embeddings with
  | Ok similarities =>
      map snd similarities = map (fun c => snd (fst c)) chunk_embeddings
  | Raise e => exn_cls e = ZeroDivisionError
  end.
Proof.
  induction chunk_embeddings as [|[[idx chunk] embedding] rest IH];
    cbn [score_chunks]; [reflexivity|].
  destruct (if is_empty embedding then Ok 0%float
            else cosine_similarity query_embedding embedding)
    as [similarity|e] eqn:E; cbn [res_bind].
  - destruct (score_chunks query_embedding rest) as [more|e]; cbn [res_bind].
    + cbn. now rewrite IH.
    + assumption.
  - destruct (is_empty embedding); [discriminate|].
    eapply cosine_similarity_raise, E.
Qed.

Lemma embed_chunks_spec env : forall chunks i w,
  exists chunk_embeddings w' sent,
    embed_chunks env i chunks w = (Ok chunk_embeddings, w') /\
    map (fun c => snd (fst c)) chunk_embeddings = chunks /\
    embeddings_posts w' = embeddings_posts w ++ sent /\
    (length sent <= length chunks)%nat /\
    Forall (fun p => len p <= 2000) sent.
Proof.
  induction chunks as [|chunk chunks IH]; intros i w; cbn [embed_chunks].
  - exists [], w, []. repeat split; try (cbn; lia).
    + now rewrite app_nil_r.
    + constructor.
  - unfold bind, get_embedding.
    destruct (_embeddings_api_failed w) eqn:F.
    + destruct (IH (i + 1) w) as (ce & w' & sent & E & M & P & L & B).
      rewrite E. cbn. exists ((i, chunk, []) :: ce), w', sent.
      repeat split; cbn; try congruence; try assumption. lia.
    + set (w1 := post_embeddings (slice_to chunk 2000) w).
      assert (Hrun : forall v w2,
                 embeddings_posts w2
                 = embeddings_posts w ++ [slice_to chunk 2000] ->
                 exists ce w' sent,
                   (let (r, w3) := embed_chunks env (i + 1) chunks w2 in
                    match r with
                    | Ok more => (Ok ((i, chunk, v) :: more), w3)
                    | Raise e => (Raise e, w3)
                    end) = (Ok ce, w') /\
                   map (fun c => snd (fst c)) ce = chunk :: chunks /\
                   embeddings_posts w' = embeddings_posts w ++ sent /\
                   (length sent <= S (length chunks))%nat /\
                   Forall (fun p => len p <= 2000) sent).
      { intros v w2 Hposts.
        destruct (IH (i + 1) w2) as (ce & w' & sent & E & M & P & L & B).
        rewrite E. exists ((i, chunk, v) :: ce), w', (slice_to chunk 2000 :: sent).
        split; [reflexivity|]. split; [cbn; congruence|].
        split; [rewrite P, Hposts, <- app_assoc; reflexivity|].
        split; [cbn; lia|].
        constructor; [apply slice_to_length; lia | exact B]. }
      destruct (embedding_of_reply _) as [v|]; cbn [fst snd];
        apply Hrun; reflexivity.
Qed.

Lemma insert_desc_perm x l : Permutation (x :: l) (insert_desc x l).
Proof.
  induction l as [|y l IH]; cbn [insert_desc]; [reflexivity|].
  destruct (_ <? _)%float; [|reflexivity].
  rewrite perm_swap. now constructor.
Qed.

(** Sorting reorders and nothing else. *)
Lemma sort_desc_perm l : Permutation l (sort_desc l).
Proof.
  unfold sort_desc. induction l as [|x l IH]; cbn [fold_right]; [constructor|].
  rewrite <- insert_desc_perm. now constructor.
Qed.

Lemma slice_to_prefix {A : Type} (l : list A) n :
  exists k, slice_to l n = firstn k l.
Proof.
  unfold slice_to, slice. exists (Z.to_nat (clamp (len l) n - clamp (len l) 0)).
  unfold clamp at 3. cbn. now rewrite Z.min_l by (unfold len; lia).
Qed.

Lemma incl_firstn {A : Type} (l : list A) k : incl (firstn k l) l.
Proof.
  intros x Hx. rewrite <- (firstn_skipn k l). apply in_or_app. now left.
Qed.

Lemma retrieve_facts (env : Env) (chunks : list str)
    (query : str) (top_k : Z) (w : World) :
  1 <= top_k ->
  let out := retrieve_relevant_chunks env chunks query top_k w in
  match fst out with
  | Ok selected => incl selected chunks /\ len selected <= top_k /\
                   len selected <= len chunks
  | Raise e => exn_cls e = IndexError \/ exn_cls e = ZeroDivisionError
  end /\
  exists sent,
    embeddings_posts (snd out) = embeddings_posts w ++ sent /\
    (length sent <= 1 + length chunks)%nat /\
    Forall (fun p => len p <= 2000) sent.
Proof.
  intros Hk. cbv zeta. unfold retrieve_relevant_chunks, bind.
  assert (Hq : exists v w1 sent1,
             get_embedding env query w = (Ok v, w1) /\
             embeddings_posts w1 = embeddings_posts w ++ sent1 /\
             (length sent1 <= 1)%nat /\
             Forall (fun p => len p <= 2000) sent1).
  { unfold get_embedding. destruct (_embeddings_api_failed w).
    - exists [], w, []. repeat split; [now rewrite app_nil_r | cbn; lia | constructor].
    - destruct (embedding_of_reply _) as [v|];
        eexists _, _, [slice_to query 2000];
        (split; [reflexivity|]); (split; [reflexivity|]);
        (split; [cbn; lia|]);
        (constructor; [apply slice_to_length; lia | constructor]). }
  destruct Hq as (v & w1 & sent1 & Eq & P1 & L1 & B1). rewrite Eq.
  destruct (is_empty v) eqn:Ev.
  - unfold lift. cbn [fst snd].
    split; [|exists sent1; repeat split; [assumption | lia | assumption]].
    destruct (evenly_distributed chunks top_k) as [selected|e] eqn:E;
      [|now apply evenly_distributed_raise in E].
    destruct (Z.leb_spec (len chunks) top_k) as [Hle|Hgt].
    + rewrite evenly_distributed_all in E by assumption. injection E as <-.
      split; [apply incl_refl | lia].
    + destruct (evenly_distributed_sample chunks top_k Hk Hgt)
        as (sel & E' & L & Hsel).
      rewrite E in E'. injection E' as <-.
      split; [|unfold len in *; lia].
      intros x Hx. apply In_nth_error in Hx as (i & Hi).
      assert (Hlt : (i < Z.to_nat top_k)%nat)
        by (rewrite <- L; apply nth_error_Some; congruence).
      destruct (Hsel (Z.of_nat i) ltac:(lia)) as [H1 _].
      rewrite Nat2Z.id in H1. rewrite Hi in H1.
      eapply nth_error_In. symmetry. exact H1.
  - destruct (embed_chunks_spec env chunks 0 w1)
      as (ce & w2 & sent2 & E & M & P2 & L2 & B2).
    rewrite E. unfold lift, ret.
    pose proof (score_chunks_spec v ce) as S.
    assert (Hw2 : exists sent,
               embeddings_posts w2 = embeddings_posts w ++ sent /\
               (length sent <= 1 + length chunks)%nat /\
               Forall (fun p => len p <= 2000) sent).
    { exists (sent1 ++ sent2). rewrite P2, P1, <- app_assoc, length_app.
      split; [reflexivity|]. split; [lia|]. apply Forall_app. now split. }
    destruct (score_chunks v ce) as [sims|e]; cbn [fst snd];
      (split; [|exact Hw2]); [|now right].
    destruct (slice_to_prefix (sort_desc sims) top_k) as (k & Hk').
    assert (Hperm : Permutation (map snd sims) (map snd (sort_desc sims)))
      by (apply Permutation_map, sort_desc_perm).
    split; [|split].
    + rewrite Hk'. intros x Hx.
      apply in_map_iff in Hx as (y & <- & Hy).
      apply incl_firstn in Hy.
      rewrite <- M, <- S.
      eapply Permutation_in; [symmetry; exact Hperm|].
      now apply in_map.
    + unfold len. rewrite length_map. apply slice_to_length. lia.
    + rewrite Hk'. unfold len. rewrite length_map, length_firstn.
      rewrite <- M, <- S.
      rewrite (Permutation_length Hperm), length_map. lia.
Qed.

(** For embeddings that are lists of floats, as [Env] holds them: a call
    that returns gives chunks of the list it was given, at most [top_k] of
    them and no more than there are; and however the call ends, it has
    sent at most one embedding request for the query and one per chunk,
    each of at most 2000 characters. *)
Theorem retrieve_relevant_chunks_sound (env : Env) (chunks : list str)
    (query : str) (top_k : Z) (w : World) :
  1 <= top_k ->
  let out := retrieve_relevant_chunks env chunks query top_k w in
  (forall selected,
     fst out = Ok selected ->
     incl selected chunks /\ len selected <= top_k /\
     len selected <= len chunks) /\
  exists sent,
    embeddings_posts (snd out) = embeddings_posts w ++ sent /\
    (length sent <= 1 + length chunks)%nat /\
    Forall (fun p => len p <= 2000) sent.
Proof.
  intros Hk. cbv zeta.
  destruct (retrieve_facts env chunks query top_k w Hk) as [H Hsent].
  cbv zeta in H, Hsent. split; [|exact Hsent].
  intros selected E. now rewrite E in H.
Qed.
Lemma retrieve_relevant_chunks_sound_witness :
  let out := retrieve_relevant_chunks ranking_env five_chunks (lit "q") 2
               initial_world in
  (forall selected,
     fst out = Ok selected ->
     incl selected five_chunks /\ len selected <= 2 /\
     len selected <= len five_chunks) /\
  exists sent,
    embeddings_posts (snd out) = embeddings_posts initial_world ++ sent /\
    (length sent <= 1 + length five_chunks)%nat /\
    Forall (fun p => len p <= 2000) sent.
Proof.
  apply (retrieve_relevant_chunks_sound ranking_env five_chunks (lit "q") 2
           initial_world).
  lia.
Defined.

(** With [ranking_env] the chunks are ranked by similarity, the query and
    the five chunks are each sent once, and the two best chunks come
    back. *)
Example retrieval_ranks_by_similarity :
  retrieve_relevant_chunks ranking_env five_chunks (lit "q") 2 initial_world
  = (Ok [lit "c0"; lit "c1"],
     {| _embeddings_api_failed := false;
        embeddings_posts := lit "q" :: five_chunks;
        generate_posts := [] |}).
Proof. vm_compute. reflexivity. Qed.

(** ** How a run ends *)

(** The steps from the chunks on end in one of two ways: with at least one
    question, or with an exception of status 500; and a run that gets as
    far as the loop sends one generation request per type. *)
Lemma generate_from_chunks_cases env chunks n question_types ia w :
  let normalized := normalize_types (requested_types question_types) [] in
  match fst (generate_from_chunks env chunks n question_types ia w) with
  | Ok r =>
      1 <= count r /\
      count r <= Py.sum (plan n normalized) /\
      types r = normalized /\ with_answers r = ia
  | Raise e => exn_cls e = HTTPException 500
  end.
Proof.
  cbv zeta. unfold generate_from_chunks, try_except, generate_steps.
  destruct (normalized_types_facts question_types) as (Hne & _ & ->).
  set (ts := normalize_types (requested_types question_types) []) in *.
  unfold bind at 1.
  pose proof (retrieve_facts env chunks query
                (Z.min 3 (len chunks)) w) as R.
  destruct (retrieve_relevant_chunks env chunks query (Z.min 3 (len chunks)) w)
    as [[rel|e] w1] eqn:ER.
  - unfold bind.
    assert (Hk : 0 < len ts) by (destruct ts; [easy | unfold len; cbn; lia]).
    match goal with
    | |- context [type_loop env ?c ?p ia ts ?s w1] =>
        destruct (type_loop_result env c p ia ts s w1)
          as (st & w2 & E & B & C & _);
          [unfold questions_per_type; lia
          | cbn; unfold remaining0; apply Z.mod_pos_bound; lia |];
          rewrite E
    end.
    cbn [all_questions connection_errors remaining] in B, C.
    rewrite C. cbn [is_empty negb].
    destruct (all_questions st) as [|q qs] eqn:Q; cbn.
    + reflexivity.
    + change (len [] ) with 0 in B. unfold plan.
      repeat split; try lia. unfold len in *. cbn [length] in *. lia.
  - cbn [fst snd] in *.
    destruct (is_http_exception e) eqn:H; cbn; [|reflexivity].
    destruct (Z_le_gt_dec 1 (Z.min 3 (len chunks))) as [Hk|Hk].
    + destruct (R Hk) as [[R1|R1] _]; unfold is_http_exception in H;
        rewrite R1 in H; discriminate.
    + exfalso. clear R.
      assert (Hc : chunks = []) by (destruct chunks; [easy | unfold len in Hk; cbn in Hk; lia]).
      subst chunks. unfold retrieve_relevant_chunks, bind in ER.
      destruct (get_embedding env query w) as [[v|e'] w'] eqn:G.
      * destruct (is_empty v); cbn in ER; [discriminate|].
        unfold ret in ER. cbn in ER. discriminate.
      * unfold get_embedding in G.
        destruct (_embeddings_api_failed w); [discriminate|].
        destruct (embedding_of_reply _); discriminate.
Qed.

(** Past the availability probe every failure surfaces as HTTP 500: the
    400 of the type check and the 503 of the connection errors are never
    raised from the chunks on. *)
Theorem generate_from_chunks_fails_with_500 (env : Env) (chunks : list str)
    (num_questions : Z) (question_types : str) (include_answers : bool)
    (w : World) (e : exn) :
  fst (generate_from_chunks env chunks num_questions question_types
         include_answers w) = Raise e ->
  exn_cls e = HTTPException 500.
Proof.
  intros H.
  pose proof (generate_from_chunks_cases env chunks num_questions
                question_types include_answers w) as C.
  cbv zeta in C. now rewrite H in C.
Qed.

(** A successful run returns at least one question and at most the sum of
    the quotas, which is the requested total as soon as that total reaches
    the number of types. *)
Theorem generate_from_chunks_count (env : Env) (chunks : list str)
    (num_questions : Z) (question_types : str) (include_answers : bool)
    (w : World) (r : generated) :
  fst (generate_from_chunks env chunks num_questions question_types
         include_answers w) = Ok r ->
  types r = normalize_types (requested_types question_types) [] /\
  1 <= count r <= Py.sum (plan num_questions (types r)) /\
  (len (types r) <= num_questions -> count r <= num_questions).
Proof.
  intros H.
  pose proof (generate_from_chunks_cases env chunks num_questions
                question_types include_answers w) as C.
  cbv zeta in C. rewrite H in C. destruct C as (C1 & C2 & C3 & _).
  rewrite C3. split; [reflexivity|]. split; [lia|].
  intros Hle.
  destruct (normalized_types_facts question_types) as (Hne & _ & _).
  cbv zeta in Hne.
  assert (Hk : 0 < len (normalize_types (requested_types question_types) []))
    by (destruct (normalize_types _ []); [easy | unfold len; cbn; lia]).
  rewrite plan_sum in C2 by (try assumption; lia).
  destruct (Z.leb_spec (len (normalize_types (requested_types question_types) []))
              num_questions); lia.
Qed.

Lemma generate_from_chunks_fails_with_500_witness :
  exists e,
    fst (generate_from_chunks failing_env [cell_text] 3 (lit "mcq") false
           initial_world) = Raise e /\
    exn_cls e = HTTPException 500.
Proof.
  eexists. split; [reflexivity|].
  apply (generate_from_chunks_fails_with_500 failing_env [cell_text] 3
           (lit "mcq") false initial_world).
  reflexivity.
Defined.

Lemma generate_from_chunks_count_witness :
  exists r,
    fst (generate_from_chunks (flaky_env false) [cell_text] 10
           (lit "truefalse,shortanswer") false initial_world) = Ok r /\
    types r = normalize_types (requested_types (lit "truefalse,shortanswer")) [] /\
    1 <= count r <= Py.sum (plan 10 (types r)) /\
    (len (types r) <= 10 -> count r <= 10).
Proof.
  eexists. split; [reflexivity|].
  apply (generate_from_chunks_count (flaky_env false) [cell_text] 10
           (lit "truefalse,shortanswer") false initial_world).
  reflexivity.
Defined.

(** ** cosine_similarity is symmetric *)

Lemma Prim2SF_injective x y : Prim2SF x = Prim2SF y -> x = y.
Proof.
  intros H. rewrite <- (SF2Prim_Prim2SF x), <- (SF2Prim_Prim2SF y).
  now rewrite H.
Qed.

Lemma SFmul_comm prec emax x y : SFmul prec emax x y = SFmul prec emax y x.
Proof.
  destruct x as [sx|sx| |sx mx ex], y as [sy|sy| |sy my ey]; cbn;
    try reflexivity; rewrite ?(xorb_comm sx sy); try reflexivity.
  now rewrite Pos.mul_comm, Z.add_comm.
Qed.

Lemma float_mul_comm (x y : float) : (x * y = y * x)%float.
Proof.
  apply Prim2SF_injective. rewrite !mul_spec. apply SFmul_comm.
Qed.

Lemma float_eqb_zero_or x y :
  ((x =? 0) || (y =? 0) = (y =? 0) || (x =? 0))%float.
Proof. apply orb_comm. Qed.

Lemma dot_product_comm : forall vec1 vec2,
  dot_product vec1 vec2 = dot_product vec2 vec1.
Proof.
  unfold dot_product, fsum. generalize 0%float as acc.
  intros acc vec1. revert acc.
  induction vec1 as [|a vec1 IH]; intros acc [|b vec2]; cbn; try reflexivity.
  rewrite (float_mul_comm a b). apply IH.
Qed.

(** The similarity does not depend on the order of its arguments, be the
    outcome a value or an exception. *)
Theorem cosine_similarity_symmetric (vec1 vec2 : list float) :
  cosine_similarity vec1 vec2 = cosine_similarity vec2 vec1.
Proof.
  unfold cosine_similarity.
  rewrite (orb_comm (is_empty vec1)), (Nat.eqb_sym (length vec1)).
  destruct (is_empty vec2 || is_empty vec1
            || negb (Nat.eqb (length vec2) (length vec1))); [reflexivity|].
  rewrite !magnitude_defined. cbn [res_bind].
  rewrite (orb_comm (_ =? 0)%float), dot_product_comm.
  now rewrite (float_mul_comm (PrimFloat.sqrt (sum_squares vec1))).
Qed.

(** ** What the parser returns *)

Lemma colon_only (y : ascii) :
  Ascii.eqb (lower_char y) (lower_char ":") = true -> Ascii.eqb y ":" = true.
Proof.
  destruct y as [[] [] [] [] [] [] [] []]; intros H; vm_compute in H |- *;
    first [reflexivity | discriminate H].
Qed.

Lemma run_q_mark_head k pos rest c m :
  Re.run (Re.Seq Re.q_mark (Re.Star is_space)) k pos rest c = Some m ->
  has_q_mark rest = true.
Proof.
  unfold Re.q_mark.
  cbn [Re.run Re.word_ci lit list_ascii_of_string]. unfold Re.ci.
  cbn [Re.run].
  destruct rest as [|x rest]; [discriminate|].
  destruct (Ascii.eqb (lower_char x) (lower_char "Q")) eqn:Ex; [|discriminate].
  destruct rest as [|y rest]; [discriminate|].
  destruct (Ascii.eqb (lower_char y) (lower_char ":")) eqn:Ey; [|discriminate].
  intros _. cbn [has_q_mark].
  change (lower_char "Q") with "q"%char in Ex. rewrite Ex.
  now rewrite (colon_only y Ey).
Qed.

Lemma run_split_pat_mark k pos rest c m :
  Re.run Re.split_pat k pos rest c = Some m -> has_q_mark rest = true.
Proof.
  unfold Re.split_pat.
  change (Re.run (Re.Seq (Re.Opt Re.nl) (Re.Seq Re.q_mark (Re.Star is_space)))
            k pos rest c)
    with (match Re.run Re.nl
                  (Re.run (Re.Seq Re.q_mark (Re.Star is_space)) k) pos rest c with
          | Some m' => Some m'
          | None => Re.run (Re.Seq Re.q_mark (Re.Star is_space)) k pos rest c
          end).
  destruct (Re.run Re.nl _ pos rest c) as [m'|] eqn:E.
  - intros _. unfold Re.nl, Re.ch in E. cbn [Re.run] in E.
    destruct rest as [|x rest]; [discriminate|].
    destruct (Ascii.eqb Re.newline x); [|discriminate].
    apply run_q_mark_head in E.
    destruct rest as [|y rest]; [discriminate|].
    cbn [has_q_mark]. cbn [has_q_mark] in E. rewrite E. apply orb_true_r.
  - apply run_q_mark_head.
Qed.

Lemma search_split_pat_none : forall rest pos,
  has_q_mark rest = false -> Re.search_from Re.split_pat pos rest = None.
Proof.
  induction rest as [|x rest IH]; intros pos H; cbn [Re.search_from].
  - destruct (Re.run _ _ _ _ _) as [[e c]|] eqn:E; [|reflexivity].
    apply run_split_pat_mark in E. discriminate.
  - destruct (Re.run _ _ _ _ _) as [[e c]|] eqn:E.
    + apply run_split_pat_mark in E. congruence.
    + apply IH. destruct rest as [|y rest]; [reflexivity|].
      cbn [has_q_mark] in H. now apply orb_false_iff in H.
Qed.

Lemma slice_to_nil {A : Type} (n : Z) : slice_to (@nil A) n = [].
Proof. unfold slice_to, slice. now rewrite skipn_nil, firstn_nil. Qed.

(** A response in which the marker [Q:] does not occur, in either case,
    yields no question at all, whatever the type and the count. *)
Theorem no_marker_no_questions (q_type : str) (include_answers : bool)
    (num_questions : Z) (response_text : str) :
  has_q_mark response_text = false ->
  parse_response q_type include_answers num_questions response_text = [].
Proof.
  intros H. unfold parse_response, Re.split.
  cbn [Re.split_from]. cbn [skipn].
  rewrite search_split_pat_none by assumption.
  cbn [skipn parse_parts]. apply slice_to_nil.
Qed.

Lemma no_marker_no_questions_witness :
  parse_response (lit "mcq") true 5
    (lit "I cannot produce questions from this text.") = [].
Proof.
  apply (no_marker_no_questions (lit "mcq") true 5
           (lit "I cannot produce questions from this text.")).
  reflexivity.
Defined.

Lemma lstrip_app_nonspace l1 c l2 :
  is_space c = false -> lstrip (l1 ++ c :: l2) = lstrip l1 ++ c :: l2.
Proof.
  intros Hc. induction l1 as [|x l1 IH]; cbn [app lstrip].
  - now rewrite Hc.
  - destruct (is_space x); [exact IH | reflexivity].
Qed.

Lemma rstrip_app_nonspace a c b :
  is_space c = false -> rstrip (a ++ c :: b) = a ++ c :: rstrip b.
Proof.
  intros Hc. unfold rstrip.
  rewrite rev_app_distr. cbn [rev]. rewrite <- app_assoc. cbn [app].
  rewrite lstrip_app_nonspace by assumption.
  rewrite rev_app_distr. cbn [rev]. rewrite rev_involutive.
  now rewrite <- app_assoc.
Qed.

Lemma lstrip_nonspace c l : is_space c = false -> lstrip (c :: l) = c :: l.
Proof. intros H. cbn [lstrip]. now rewrite H. Qed.

Lemma strip_question (question tail : str) :
  strip (lit "Question: " ++ question ++ [Re.newline] ++ lit "A) " ++ tail)
  = lit "Question: "
      ++ question ++ [Re.newline] ++ "A"%char :: rstrip (lit ") " ++ tail).
Proof.
  unfold strip.
  change (lit "Question: " ++ question ++ [Re.newline] ++ lit "A) " ++ tail)
    with ("Q"%char :: (lit "uestion: " ++ question ++ [Re.newline]
                         ++ lit "A) " ++ tail)).
  rewrite lstrip_nonspace by reflexivity.
  change ("Q"%char :: (lit "uestion: " ++ question ++ [Re.newline]
                         ++ lit "A) " ++ tail))
    with (lit "Question: " ++ (question ++ [Re.newline]
                                 ++ "A"%char :: (lit ") " ++ tail))).
  rewrite !app_assoc.
  rewrite rstrip_app_nonspace by reflexivity.
  now rewrite <- !app_assoc.
Qed.

Lemma parse_part_is_question q_type include_answers part q :
  parse_part q_type include_answers part = Ok (Some q) -> is_question q.
Proof.
  unfold parse_part, is_question.
  destruct (str_eqb (lower q_type) (lit "mcq")).
  - intros H. apply parse_mcq_record in H
      as (question & a & b & c & d & answer & _ & _ & _ & _ & ->).
    rewrite strip_question. eexists. reflexivity.
  - destruct (str_eqb (lower q_type) (lit "truefalse")).
    + unfold parse_truefalse.
      destruct (Re.search Re.statement_pat part); [|discriminate].
      intros H. injection H as <-.
      destruct include_answers; [destruct (Re.search Re.tf_answer_pat part)|];
        rewrite <- ?app_assoc; eexists; reflexivity.
    + unfold parse_shortanswer.
      destruct (Re.search Re.statement_pat part); [|discriminate].
      intros H. injection H as <-.
      destruct include_answers; [destruct (Re.search Re.sa_answer_pat part)|];
        rewrite <- ?app_assoc; eexists; reflexivity.
Qed.

Lemma parse_parts_questions q_type include_answers : forall parts questions,
  Forall is_question questions ->
  Forall is_question (parse_parts q_type include_answers parts questions).
Proof.
  induction parts as [|p parts IH]; intros qs H; cbn [parse_parts];
    [assumption|].
  destruct (is_empty (strip p)); [now apply IH|].
  destruct (parse_part q_type include_answers p) as [[q|]|e] eqn:E;
    try now apply IH.
  apply IH, Forall_app. split; [assumption|].
  constructor; [|constructor]. eapply parse_part_is_question, E.
Qed.

(** Whatever the backend answers, every string a batch returns is a
    rendered question: it starts with "Question: ", for the three types
    alike. *)
Theorem batch_returns_questions (env : Env) (chunk q_type : str)
    (num_questions : Z) (previous : list str) (include_answers : bool)
    (timeout : Z) (w : World) :
  exists qs w',
    generate_question_batch env chunk q_type num_questions previous
      include_answers timeout w = (Ok qs, w') /\
    Forall is_question qs.
Proof.
  assert (P : forall txt,
             Forall is_question
               (parse_response q_type include_answers num_questions txt)).
  { intros txt. unfold parse_response.
    destruct (slice_to_prefix
                (parse_parts q_type include_answers
                   (skipn 1 (Re.split Re.split_pat txt)) []) num_questions)
      as (k & ->).
    apply Forall_forall. intros q Hq. apply incl_firstn in Hq.
    revert q Hq. apply Forall_forall, parse_parts_questions. constructor. }
  assert (Hnil : forall w1 : World,
             exists (qs : list str) (w' : World),
               (Ok (@nil str), w1) = (Ok qs, w') /\ Forall is_question qs)
    by (intros w1; exists [], w1; split; [reflexivity | constructor]).
  unfold generate_question_batch, try_except, wait_for, _generate,
    inner_handlers, inner_handlers_cancelled.
  destruct (generate_reply env _ _) as [sc body| e |].
  - destruct (sc =? 404); cbn; [apply Hnil|].
    destruct (sc =? 200); cbn; [|apply Hnil].
    destruct body as [| |field]; cbn.
    + destruct (httpx_has_TimeoutError env); apply Hnil.
    + destruct (httpx_has_TimeoutError env); apply Hnil.
    + eexists _, _. split; [reflexivity | apply P].
  - destruct (is_connect_error e) eqn:C; cbn; [apply Hnil|].
    destruct (httpx_has_TimeoutError env); apply Hnil.
  - destruct (httpx_has_TimeoutError env); apply Hnil.
Qed.

(** ** clean_text *)

Lemma is_blank_eq x : ReSub.is_blank x = true <-> x = " "%char.
Proof. unfold ReSub.is_blank. apply Ascii.eqb_eq. Qed.

Lemma is_blank_neq x : ReSub.is_blank x = false <-> x <> " "%char.
Proof. unfold ReSub.is_blank. apply Ascii.eqb_neq. Qed.

(** The greedy star before the end of a pattern takes the whole run. *)
Lemma star_blank_run : forall r pos c,
  exists k,
    Re.star_greedy ReSub.is_blank Re.finish pos r c = Some ((pos + k)%nat, c) /\
    exists post, r = repeat " "%char k ++ post /\ head_not_blank post.
Proof.
  induction r as [|x r IH]; intros pos c; cbn [Re.star_greedy].
  - exists 0%nat. rewrite Nat.add_0_r. split; [reflexivity|].
    exists []. split; [reflexivity | exact I].
  - destruct (ReSub.is_blank x) eqn:Ex.
    + destruct (IH (S pos) c) as (k & -> & post & -> & Hp).
      exists (S k). split; [f_equal; f_equal; lia|].
      exists post. apply is_blank_eq in Ex. subst x. split; [reflexivity | exact Hp].
    + exists 0%nat. rewrite Nat.add_0_r. split; [reflexivity|].
      exists (x :: r). split; [reflexivity | now apply is_blank_neq].
Qed.

(** Where the pattern of two or more blanks matches. *)
Lemma run_spaces_pat pos rest :
  match Re.run ReSub.spaces_pat Re.finish pos rest None with
  | Some (e, _) =>
      exists k post,
        e = (pos + (2 + k))%nat /\
        rest = repeat " "%char (2 + k) ++ post /\ head_not_blank post
  | None =>
      match rest with
      | x :: y :: _ => ~ (x = " "%char /\ y = " "%char)
      | _ => True
      end
  end.
Proof.
  unfold ReSub.spaces_pat. cbn [Re.run].
  destruct rest as [|x [|y rest]]; [exact I | |].
  - now destruct (ReSub.is_blank x).
  - destruct (ReSub.is_blank x) eqn:Ex;
      [|apply is_blank_neq in Ex; now intros [? _]].
    destruct (ReSub.is_blank y) eqn:Ey;
      [|apply is_blank_neq in Ey; now intros [_ ?]].
    destruct (star_blank_run rest (S (S pos)) None) as (k & -> & post & -> & Hp).
    apply is_blank_eq in Ex, Ey. subst x y.
    exists k, post. split; [lia|]. split; [reflexivity | exact Hp].
Qed.

Lemma single_spaced_cons x rest :
  single_spaced (x :: rest) = true <->
  (match rest with y :: _ => ~ (x = " "%char /\ y = " "%char) | [] => True end)
  /\ single_spaced rest = true.
Proof.
  destruct rest as [|y rest]; cbn [single_spaced].
  - tauto.
  - rewrite andb_true_iff, negb_true_iff, andb_false_iff.
    rewrite !is_blank_neq. split.
    + intros [[H|H] Hs]; (split; [|exact Hs]); now intros [? ?].
    + intros [H Hs]. split; [|exact Hs].
      destruct (ascii_dec x " "); [|now left].
      destruct (ascii_dec y " "); [|now right]. now elim H.
Qed.

(** The leftmost match: what precedes it is single-spaced and does not
    end with a blank. *)
Lemma search_spaces_pat : forall rest pos,
  match Re.search_from ReSub.spaces_pat pos rest with
  | Some m =>
      exists pre k post,
        rest = pre ++ repeat " "%char (2 + k) ++ post /\
        Re.m_start m = (pos + length pre)%nat /\
        Re.m_end m = (pos + length pre + (2 + k))%nat /\
        head_not_blank post /\
        single_spaced (pre ++ [" "%char]) = true
  | None => single_spaced rest = true
  end.
Proof.
  induction rest as [|x rest IH]; intros pos; cbn [Re.search_from].
  - pose proof (run_spaces_pat pos []) as R.
    destruct (Re.run _ _ _ _ _) as [[e c]|]; [|reflexivity].
    destruct R as (k & post & _ & E & _). discriminate.
  - pose proof (run_spaces_pat pos (x :: rest)) as R.
    destruct (Re.run _ _ _ _ _) as [[e c]|].
    + destruct R as (k & post & -> & E & Hp).
      exists [], k, post. cbn [length app Re.m_start Re.m_end].
      rewrite Nat.add_0_r. repeat split; assumption.
    + specialize (IH (S pos)).
      destruct (Re.search_from ReSub.spaces_pat (S pos) rest) as [m|].
      * destruct IH as (pre & k & post & -> & Hs & He & Hp & Hss).
        exists (x :: pre), k, post. cbn [length app].
        split; [reflexivity|]. split; [lia|]. split; [lia|].
        split; [assumption|].
        apply single_spaced_cons. split; [|exact Hss].
        destruct pre as [|y pre]; cbn [app] in *.
        -- intros [-> _]. apply R. now split.
        -- exact R.
      * apply single_spaced_cons. split; [|exact IH].
        destruct rest as [|y rest]; [exact I | exact R].
Qed.

Lemma single_spaced_join pre post :
  single_spaced (pre ++ [" "%char]) = true ->
  single_spaced post = true -> head_not_blank post ->
  single_spaced (pre ++ " "%char :: post) = true.
Proof.
  intros Hpre Hpost Hh. induction pre as [|x pre IH]; cbn [app] in *.
  - apply single_spaced_cons. split; [|exact Hpost].
    destruct post as [|y post]; [exact I|]. cbn in Hh. now intros [_ ?].
  - apply single_spaced_cons in Hpre as [Hx Hpre].
    apply single_spaced_cons. split; [|now apply IH].
    destruct pre as [|y pre]; cbn [app] in *; exact Hx.
Qed.

Lemma length_repeat_app {A : Type} (pre : list A) x n post :
  length (pre ++ repeat x n ++ post) = (length pre + n + length post)%nat.
Proof. rewrite !length_app, repeat_length. lia. Qed.

(** Replacing every run of blanks by one blank leaves no two blanks in a
    row, and keeps a first character that is not a blank. *)
Lemma sub_spaces_single : forall fuel rest pos,
  (length rest < fuel)%nat ->
  single_spaced (ReSub.sub_from fuel ReSub.spaces_pat [" "%char] pos rest) = true /\
  (head_not_blank rest ->
   head_not_blank (ReSub.sub_from fuel ReSub.spaces_pat [" "%char] pos rest)).
Proof.
  induction fuel as [|fuel IH]; intros rest pos Hf; [lia|].
  cbn [ReSub.sub_from].
  pose proof (search_spaces_pat rest pos) as S.
  destruct (Re.search_from ReSub.spaces_pat pos rest) as [m|];
    [|split; [exact S | trivial]].
  destruct S as (pre & k & post & -> & Hs & He & Hp & Hss).
  rewrite Hs, He.
  destruct (Nat.ltb_spec (pos + length pre) (pos + length pre + (2 + k))); [|lia].
  replace (pos + length pre - pos)%nat with (length pre) by lia.
  replace (pos + length pre + (2 + k) - pos)%nat
    with (length pre + (2 + k))%nat by lia.
  rewrite firstn_app, firstn_all, Nat.sub_diag. cbn [firstn].
  rewrite app_nil_r.
  rewrite skipn_app.
  rewrite (skipn_all2 pre) by lia.
  replace (length pre + (2 + k) - length pre)%nat with (2 + k)%nat by lia.
  cbn [app]. rewrite skipn_app, repeat_length, Nat.sub_diag.
  rewrite skipn_all2 by (rewrite repeat_length; lia). cbn [skipn app].
  rewrite length_repeat_app in Hf.
  destruct (IH post (pos + length pre + (2 + k))%nat ltac:(lia)) as [I1 I2].
  split.
  - apply single_spaced_join; [exact Hss | exact I1 | now apply I2].
  - intros Hh. destruct pre as [|x pre]; cbn [app] in *; [|exact Hh].
    now elim Hh.
Qed.

Lemma single_spaced_skipn : forall k s,
  single_spaced s = true -> single_spaced (skipn k s) = true.
Proof.
  induction k as [|k IH]; intros [|x s] H; cbn [skipn]; try assumption.
  apply IH. now apply single_spaced_cons in H.
Qed.

Lemma single_spaced_firstn : forall k s,
  single_spaced s = true -> single_spaced (firstn k s) = true.
Proof.
  induction k as [|k IH]; intros [|x s] H; cbn [firstn]; try reflexivity.
  apply single_spaced_cons in H as [Hx Hs].
  apply single_spaced_cons. split; [|now apply IH].
  destruct s as [|y s]; [now destruct k|].
  destruct k; cbn [firstn]; [exact I | exact Hx].
Qed.

Lemma lstrip_is_skipn s : exists k, lstrip s = skipn k s.
Proof.
  induction s as [|x s (k & IH)]; [now exists 0%nat|].
  cbn [lstrip]. destruct (is_space x); [now exists (S k) | now exists 0%nat].
Qed.

Lemma rstrip_is_firstn s : exists k, rstrip s = firstn k s.
Proof.
  unfold rstrip. destruct (lstrip_is_skipn (rev s)) as (k & ->).
  rewrite skipn_rev, rev_involutive. now eexists.
Qed.

Lemma lstrip_head s :
  match lstrip s with x :: _ => is_space x = false | [] => True end.
Proof.
  induction s as [|x s IH]; [exact I|]. cbn [lstrip].
  destruct (is_space x) eqn:E; [exact IH | exact E].
Qed.

(** The end of a stripped text: neither its first nor its last character
    is whitespace. *)
Lemma strip_ends s :
  match strip s with x :: _ => is_space x = false | [] => True end /\
  match rev (strip s) with x :: _ => is_space x = false | [] => True end.
Proof.
  unfold strip. split.
  - pose proof (lstrip_head s) as H.
    destruct (lstrip s) as [|x t]; [exact I|].
    change (x :: t) with ([] ++ x :: t).
    now rewrite rstrip_app_nonspace.
  - unfold rstrip. rewrite rev_involutive. apply lstrip_head.
Qed.

(** The cleaned text has no whitespace at either end and no two blanks in
    a row. *)
Theorem clean_text_tidy (text : str) :
  let cleaned := clean_text text in
  single_spaced cleaned = true /\
  match cleaned with x :: _ => is_space x = false | [] => True end /\
  match rev cleaned with x :: _ => is_space x = false | [] => True end /\
  strip cleaned = cleaned.
Proof.
  cbv zeta. unfold clean_text.
  set (t3 := ReSub.sub ReSub.newlines_pat _ _).
  assert (Hs : single_spaced (ReSub.sub ReSub.spaces_pat [" "%char] t3) = true)
    by (apply sub_spaces_single; lia).
  destruct (strip_ends (ReSub.sub ReSub.spaces_pat [" "%char] t3)) as [H1 H2].
  split; [|split; [exact H1 | split; [exact H2|]]].
  - unfold strip.
    destruct (lstrip_is_skipn (ReSub.sub ReSub.spaces_pat [" "%char] t3)) as (k & ->).
    destruct (rstrip_is_firstn (skipn k (ReSub.sub ReSub.spaces_pat [" "%char] t3)))
      as (j & ->).
    now apply single_spaced_firstn, single_spaced_skipn.
  - set (c := strip _) in *. unfold strip.
    assert (Hl : lstrip c = c).
    { destruct c as [|x c']; [reflexivity|]. now apply lstrip_nonspace. }
    rewrite Hl. unfold rstrip.
    assert (Hr : lstrip (rev c) = rev c).
    { destruct (rev c) as [|x c']; [reflexivity|]. now apply lstrip_nonspace. }
    now rewrite Hr, rev_involutive.
Qed.

(** ** generate_questions_from_pdf as a whole *)

Lemma read_pages_errors : forall pages acc e,
  Forall (fun page => match page with
                      | Raise e => is_http_exception e = false
                      | Ok _ => True
                      end) pages ->
  read_pages pages acc = Raise e -> is_http_exception e = false.
Proof.
  induction pages as [|[t|e'] pages IH]; intros acc e F; cbn [read_pages res_bind].
  - discriminate.
  - apply IH. now inversion F.
  - intros H. injection H as <-. now inversion F.
Qed.

Lemma http_status_500 e :
  exn_cls e = HTTPException 500 -> http_status e = Some 500.
Proof. unfold http_status. now intros ->. Qed.

(** The ways in which a run that has finished chunking can have ended. *)
Lemma finished_run_outcomes (fuel : nat) (env : Env)
    (tags : reply unit) (pdf : pdf_document) (num_questions : Z)
    (question_types : str) (include_answers : bool) (w w' : World)
    (out : res generated) :
  library_errors pdf ->
  generate_questions_from_pdf fuel env tags pdf num_questions question_types
    include_answers w = Some (out, w') ->
  match out with
  | Raise e =>
      (http_status e = Some 503 /\
       check_ollama_available tags = false /\ w' = w) \/
      (http_status e = Some 400 /\ check_ollama_available tags = true /\
       (exists text, res_bind pdf (fun pages => read_pages pages []) = Ok text /\
                     strip text = []) /\
       w' = w) \/
      (http_status e = Some 500 /\ check_ollama_available tags = true)
  | Ok r =>
      check_ollama_available tags = true /\
      (exists text, res_bind pdf (fun pages => read_pages pages []) = Ok text /\
                    strip text <> []) /\
      1 <= count r <= Py.sum (plan num_questions (types r))
  end.
Proof.
  intros Hlib. unfold generate_questions_from_pdf.
  destruct (check_ollama_available tags) eqn:A; cbn [negb].
  2:{ intros H. injection H as <- <-. left. now repeat split. }
  destruct (res_bind pdf (fun pages => read_pages pages [])) as [text|e] eqn:R.
  2:{ intros H. injection H as <- <-. right. right. split; [|reflexivity].
      assert (Hplain : is_http_exception e = false).
      { destruct pdf as [pages|e']; cbn in R, Hlib.
        - eapply read_pages_errors; eassumption.
        - injection R as <-. exact Hlib. }
      unfold as_http_error. now rewrite Hplain. }
  destruct (is_empty (strip text)) eqn:B.
  { intros H. injection H as <- <-. right. left.
    repeat split. exists text. split; [reflexivity|].
    now destruct (strip text). }
  unfold generate_from_text.
  destruct (chunk_text fuel (clean_text text) 1500 150) as [chunks|];
    [|discriminate].
  intros H. injection H as H.
  pose proof (generate_from_chunks_cases env chunks num_questions
                question_types include_answers w) as C.
  cbv zeta in C. rewrite H in C. cbn [fst] in C.
  destruct out as [r|e].
  - destruct C as (C1 & C2 & C3 & _). split; [reflexivity|]. split.
    + exists text. split; [reflexivity|]. now destruct (strip text).
    + rewrite C3. lia.
  - right. right. split; [now apply http_status_500 | reflexivity].
Qed.

(** With the module's chunk size and overlap, chunking finishes within as
    many iterations as the text has characters. *)
Lemma chunk_text_enough_fuel (fuel : nat) (text : str) :
  (length text <= fuel)%nat ->
  exists chunks, chunk_text fuel text 1500 150 = Some chunks.
Proof.
  intros Hf. rewrite chunk_text_windows. unfold chunk_windows.
  destruct (Z.leb_spec (len text) 1500); [now eexists|].
  destruct (window_loop_spec (len text) 1500 150 ltac:(lia) fuel 0 [])
    as (ws & -> & _); [lia | unfold len; lia |]. now eexists.
Qed.

(** Given the iterations chunking needs (as many as the cleaned text has
    characters), and a PDF library that raises no HTTPException, every
    run ends, and it ends in one of four ways: with HTTP 503, at once and
    with nothing sent, exactly when the probe fails; with HTTP 400, with
    nothing sent, when the probe succeeds and the extracted text is blank;
    with HTTP 500; or with a result that holds at least one question and
    no more than the quotas add up to. *)
Theorem generate_questions_from_pdf_outcomes (fuel : nat) (env : Env)
    (tags : reply unit) (pdf : pdf_document) (num_questions : Z)
    (question_types : str) (include_answers : bool) (w : World) :
  library_errors pdf ->
  (forall text,
     res_bind pdf (fun pages => read_pages pages []) = Ok text ->
     (length (clean_text text) <= fuel)%nat) ->
  exists out w',
    generate_questions_from_pdf fuel env tags pdf num_questions question_types
      include_answers w = Some (out, w') /\
    match out with
    | Raise e =>
        (http_status e = Some 503 /\
         check_ollama_available tags = false /\ w' = w) \/
        (http_status e = Some 400 /\ check_ollama_available tags = true /\
         (exists text,
            res_bind pdf (fun pages => read_pages pages []) = Ok text /\
            strip text = []) /\
         w' = w) \/
        (http_status e = Some 500 /\ check_ollama_available tags = true)
    | Ok r =>
        check_ollama_available tags = true /\
        (exists text,
           res_bind pdf (fun pages => read_pages pages []) = Ok text /\
           strip text <> []) /\
        1 <= count r <= Py.sum (plan num_questions (types r))
    end.
Proof.
  intros Hlib Hfuel.
  assert (Hruns : exists out w',
             generate_questions_from_pdf fuel env tags pdf num_questions
               question_types include_answers w = Some (out, w')).
  { unfold generate_questions_from_pdf.
    destruct (negb (check_ollama_available tags)); [now eexists _, _|].
    destruct (res_bind pdf (fun pages => read_pages pages [])) as [text|e];
      [|now eexists _, _].
    destruct (is_empty (strip text)); [now eexists _, _|].
    unfold generate_from_text.
    destruct (chunk_text_enough_fuel fuel (clean_text text) (Hfuel text eq_refl))
      as (chunks & ->).
    destruct (generate_from_chunks env chunks num_questions question_types
                include_answers w) as [out w'].
    now exists out, w'. }
  destruct Hruns as (out & w' & E). exists out, w'. split; [exact E|].
  exact (finished_run_outcomes fuel env tags pdf num_questions question_types
           include_answers w w' out Hlib E).
Qed.

Lemma generate_questions_from_pdf_outcomes_witness :
  exists r w',
    generate_questions_from_pdf 100 two_questions_env probe_answered
      (one_page_pdf cell_text) 2 (lit "shortanswer") false initial_world
    = Some (Ok r, w') /\
    check_ollama_available probe_answered = true /\
    1 <= count r <= Py.sum (plan 2 (types r)).
Proof.
  destruct (generate_questions_from_pdf_outcomes 100 two_questions_env
              probe_answered (one_page_pdf cell_text) 2 (lit "shortanswer")
              false initial_world) as (out & w' & E & H).
  - cbn. repeat constructor.
  - intros text Ht. injection Ht as <-. vm_compute. lia.
  - vm_compute in E. injection E as <- <-.
    destruct H as (A & _ & C).
    eexists _, _. split; [reflexivity|]. split; [exact A | exact C].
Defined.

(** The other three exits: a probe that is refused, a page without text,
    and a page the library cannot read. *)
Example run_exits_early :
  (exists e,
     generate_questions_from_pdf 0 two_questions_env probe_refused
       (one_page_pdf cell_text) 2 (lit "shortanswer") false initial_world
     = Some (Raise e, initial_world) /\ http_status e = Some 503) /\
  (exists e,
     generate_questions_from_pdf 0 two_questions_env probe_answered
       (one_page_pdf (lit "  ")) 2 (lit "shortanswer") false initial_world
     = Some (Raise e, initial_world) /\ http_status e = Some 400) /\
  (exists e,
     generate_questions_from_pdf 0 two_questions_env probe_answered
       (Ok [Raise (Exn KeyError (lit "/Contents"))]) 2 (lit "shortanswer")
       false initial_world
     = Some (Raise e, initial_world) /\ http_status e = Some 500).
Proof. repeat split; eexists; split; reflexivity. Qed.

Example page_number_only_passes_the_check :
  strip (lit "12") <> [] /\ clean_text (lit "12") = [].
Proof. split; [discriminate | reflexivity]. Qed.

(** ** The paragraphs of generate_questions_pdf *)

Lemma replace_char_cons c by_ x s :
  replace_char c by_ (x :: s)
  = (if Ascii.eqb x c then by_ else [x]) ++ replace_char c by_ s.
Proof. reflexivity. Qed.

Lemma replace_char_app c by_ s t :
  replace_char c by_ (s ++ t) = replace_char c by_ s ++ replace_char c by_ t.
Proof. unfold replace_char. apply flat_map_app. Qed.

(** What escaping does to one character. *)
Lemma escape_line_cons x s :
  escape_line (x :: s)
  = (if Ascii.eqb x "&" then lit "&amp;"
     else if Ascii.eqb x "<" then lit "&lt;"
     else if Ascii.eqb x ">" then lit "&gt;"
     else [x]) ++ escape_line s.
Proof.
  unfold escape_line. rewrite replace_char_cons.
  destruct (Ascii.eqb x "&") eqn:E1.
  - rewrite !replace_char_app. reflexivity.
  - cbn [app]. rewrite replace_char_cons.
    destruct (Ascii.eqb x "<") eqn:E2.
    + rewrite replace_char_app. reflexivity.
    + cbn [app]. rewrite replace_char_cons.
      now destruct (Ascii.eqb x ">").
Qed.

Lemma unescape_escape s : unescape (escape_line s) = s.
Proof.
  induction s as [|x s IH]; [reflexivity|].
  rewrite escape_line_cons.
  destruct (Ascii.eqb_spec x "&") as [->|H1]; [cbn; now rewrite IH|].
  destruct (Ascii.eqb_spec x "<") as [->|H2]; [cbn; now rewrite IH|].
  destruct (Ascii.eqb_spec x ">") as [->|H3]; [cbn; now rewrite IH|].
  cbn [app].
  assert (E : forall t, unescape (x :: t) = x :: unescape t).
  { intros t. cbn [unescape].
    destruct x as [[] [] [] [] [] [] [] []]; try reflexivity.
    now elim H1. }
  now rewrite E, IH.
Qed.

Lemma escape_line_clean s x :
  In x (escape_line s) -> x <> "<"%char /\ x <> ">"%char.
Proof.
  induction s as [|y s IH]; [intros []|].
  rewrite escape_line_cons. intros H. apply in_app_or in H as [H|H];
    [|now apply IH].
  destruct (Ascii.eqb_spec y "&");
    [cbn in H; repeat destruct H as [<-|H]; try easy|].
  destruct (Ascii.eqb_spec y "<");
    [cbn in H; repeat destruct H as [<-|H]; try easy|].
  destruct (Ascii.eqb_spec y ">");
    [cbn in H; repeat destruct H as [<-|H]; try easy|].
  destruct H as [<-|[]]. now split.
Qed.

Lemma escape_line_nonempty s : s <> [] -> escape_line s <> [].
Proof.
  destruct s as [|x s]; [easy|]. intros _. rewrite escape_line_cons.
  destruct (Ascii.eqb x "&"); [discriminate|].
  destruct (Ascii.eqb x "<"); [discriminate|].
  destruct (Ascii.eqb x ">"); discriminate.
Qed.

(** The text handed to a paragraph is never empty and never holds a raw
    [<] or [>]; it is the escaped form of a stripped, non-blank line of the
    input, from which that line can be read back; and there is at most one
    paragraph per line. *)
Theorem pdf_paragraphs_escaped (questions_text : str) :
  Forall (fun p => p <> [] /\ ~ In "<"%char p /\ ~ In ">"%char p /\
                   exists line, In line (split_on Re.newline questions_text) /\
                                strip line <> [] /\
                                p = escape_line (strip line) /\
                                unescape p = strip line)
    (pdf_paragraphs questions_text) /\
  (length (pdf_paragraphs questions_text)
   <= length (split_on Re.newline questions_text))%nat.
Proof.
  unfold pdf_paragraphs.
  generalize (split_on Re.newline questions_text) as lines.
  induction lines as [|line lines [IH1 IH2]]; cbn [paragraphs_of].
  - split; [constructor | lia].
  - assert (IH1' : Forall
               (fun p => p <> [] /\ ~ In "<"%char p /\ ~ In ">"%char p /\
                         exists l, In l (line :: lines) /\ strip l <> [] /\
                                   p = escape_line (strip l) /\
                                   unescape p = strip l)
               (paragraphs_of lines)).
    { eapply Forall_impl; [|exact IH1].
      intros p (H1 & H2 & H3 & l & Hl & Hr).
      repeat split; try assumption. exists l. split; [now right | exact Hr]. }
    destruct (is_empty (strip line)) eqn:E.
    + split; [exact IH1' | cbn [length]; lia].
    + split; [|cbn [length]; lia].
      constructor; [|exact IH1'].
      assert (Hne : strip line <> []) by now destruct (strip line).
      split; [now apply escape_line_nonempty|].
      split; [intros H; now apply escape_line_clean in H|].
      split; [intros H; now apply escape_line_clean in H|].
      exists line. split; [now left|]. split; [exact Hne|].
      split; [reflexivity | apply unescape_escape].
Qed.

(** Escaping loses nothing: two lines with the same escaped form are the
    same line. *)
Theorem escape_line_injective (a b : str) :
  escape_line a = escape_line b -> a = b.
Proof.
  intros H. rewrite <- (unescape_escape a), <- (unescape_escape b).
  now rewrite H.
Qed.

Lemma escape_line_injective_witness :
  lit "a < b" = lit "a < b".
Proof.
  apply (escape_line_injective (lit "a < b") (lit "a < b")). reflexivity.
Defined.

(** ** Where an upload is written *)

Lemma kept_is_no_separator (l : str) :
  Forall (fun c => keeps c = true) l ->
  ~ In "/"%char l /\ ~ In "\"%char l.
Proof.
  intros F. rewrite Forall_forall in F.
  split; intros H; apply F in H; discriminate.
Qed.

Lemma safe_filename_kept (filename : option str) :
  Forall (fun c => keeps c = true) (safe_filename filename).
Proof.
  destruct filename as [[|x name]|]; cbn [safe_filename];
    try (repeat constructor).
  apply Forall_forall. intros c Hc. now apply filter_In in Hc.
Qed.

Lemma split_on_absent (c : ascii) (s : str) :
  ~ In c s -> split_on c s = [s].
Proof.
  induction s as [|x s IH]; intros H; cbn [split_on]; [reflexivity|].
  destruct (Ascii.eqb_spec x c) as [->|_]; [exfalso; apply H; now left|].
  rewrite IH; [reflexivity|]. intros Hin. apply H. now right.
Qed.

(** Whatever the upload is called, its file is written directly inside
    uploads/assignments: the name built for it is one path component (no
    slash, no backslash, not empty, neither "." nor ".."), so that the
    path of the file is the directory followed by that name; the row keeps
    the path written and, as the display name, the name of the upload as
    it came. *)
Theorem upload_written_inside_upload_dir (timestamp : str)
    (filename : option str) :
  Forall (fun c => keeps c = true) timestamp ->
  let name := unique_filename timestamp filename in
  let stored := store_attachment timestamp filename in
  file_path stored = upload_dir ++ [name] /\
  ~ In "/"%char name /\ ~ In "\"%char name /\
  name <> [] /\ name <> lit "." /\ name <> lit ".." /\
  attachment_file_path stored = lit "uploads/assignments/" ++ name /\
  attachment_file_name stored = filename.
Proof.
  intros T. cbv zeta.
  assert (K : Forall (fun c => keeps c = true)
                (unique_filename timestamp filename)).
  { unfold unique_filename. apply Forall_app. split; [exact T|].
    apply Forall_app. split; [repeat constructor | apply safe_filename_kept]. }
  destruct (kept_is_no_separator _ K) as [N1 N2].
  assert (U : In "_"%char (unique_filename timestamp filename)).
  { unfold unique_filename. apply in_or_app. right. now left. }
  assert (D1 : unique_filename timestamp filename <> []).
  { intros E. rewrite E in U. destruct U. }
  assert (D2 : unique_filename timestamp filename <> lit ".").
  { intros E. rewrite E in U. cbn in U. intuition discriminate. }
  assert (D3 : unique_filename timestamp filename <> lit "..").
  { intros E. rewrite E in U. cbn in U. intuition discriminate. }
  assert (P : path_div upload_dir (unique_filename timestamp filename)
              = upload_dir ++ [unique_filename timestamp filename]).
  { unfold path_div, path_parts. rewrite (split_on_absent _ _ N1).
    cbn [filter].
    destruct (unique_filename timestamp filename) as [|x rest] eqn:E;
      [contradiction|].
    destruct (Ascii.eqb_spec x "/"%char) as [->|Hx];
      [exfalso; apply N1; now left|].
    cbn [is_empty negb andb].
    destruct (str_eqb (x :: rest) (lit ".")) eqn:S;
      [apply str_eqb_eq in S; contradiction|].
    cbn [negb].
    destruct x as [[] [] [] [] [] [] [] []]; try reflexivity.
    now contradiction Hx. }
  unfold store_attachment. cbn [file_path attachment_file_path
                                 attachment_file_name].
  rewrite P. repeat (split; [assumption || reflexivity|]). reflexivity.
Qed.

Lemma upload_written_inside_upload_dir_witness :
  let name := unique_filename (lit "20240101_120000")
                (Some (lit "../../etc/passwd")) in
  let stored := store_attachment (lit "20240101_120000")
                  (Some (lit "../../etc/passwd")) in
  file_path stored = upload_dir ++ [name] /\
  ~ In "/"%char name /\ ~ In "\"%char name /\
  name <> [] /\ name <> lit "." /\ name <> lit ".." /\
  attachment_file_path stored = lit "uploads/assignments/" ++ name /\
  attachment_file_name stored = Some (lit "../../etc/passwd").
Proof.
  apply (upload_written_inside_upload_dir (lit "20240101_120000")
           (Some (lit "../../etc/passwd"))).
  repeat constructor.
Defined.

(** The name built for an upload called ../../etc/passwd, and where the
    file would go were the name of the upload used as it came. *)
Example traversal_name_flattened :
  unique_filename (lit "20240101_120000") (Some (lit "../../etc/passwd"))
  = lit "20240101_120000_....etcpasswd" /\
  path_div upload_dir (lit "../../etc/passwd")
  = upload_dir ++ [lit ".."; lit ".."; lit "etc"; lit "passwd"].
Proof. split; reflexivity. Qed.

(** ** The assignment endpoints *)

Module CrudFacts.

Import Crud.

Lemma find_selected id inc rows a :
  find (selected id inc) rows = Some a ->
  In a rows /\ assignment_id a = id /\ (inc = false -> is_active a = true).
Proof.
  intros H. apply find_some in H as [Hin Hs]. unfold selected in Hs.
  apply andb_true_iff in Hs as [Hid Hact]. apply Z.eqb_eq in Hid.
  repeat split; try assumption. intros ->. exact Hact.
Qed.

Lemma update_row_ids id f rows :
  (forall row, assignment_id (f row) = assignment_id row) ->
  map assignment_id (update_row id f rows) = map assignment_id rows.
Proof.
  intros Hf. induction rows as [|row rows IH]; cbn [update_row map];
    [reflexivity|].
  destruct (assignment_id row =? id); cbn [map]; [now rewrite Hf | now rewrite IH].
Qed.

Lemma update_row_others id f rows :
  (forall row, assignment_id (f row) = assignment_id row) ->
  filter (fun row => negb (assignment_id row =? id)) (update_row id f rows)
  = filter (fun row => negb (assignment_id row =? id)) rows.
Proof.
  intros Hf. induction rows as [|row rows IH]; cbn [update_row filter];
    [reflexivity|].
  destruct (assignment_id row =? id) eqn:E; cbn [filter negb].
  - now rewrite Hf, E.
  - rewrite E. cbn [negb]. now rewrite IH.
Qed.

Lemma delete_row_others id rows :
  filter (fun row => negb (assignment_id row =? id)) (delete_row id rows)
  = filter (fun row => negb (assignment_id row =? id)) rows.
Proof.
  induction rows as [|row rows IH]; cbn [delete_row filter]; [reflexivity|].
  destruct (assignment_id row =? id) eqn:E; cbn [filter negb].
  - reflexivity.
  - rewrite E. cbn [negb]. now rewrite IH.
Qed.

Lemma delete_row_ids id rows x :
  In x (map assignment_id rows) -> x <> id ->
  In x (map assignment_id (delete_row id rows)).
Proof.
  induction rows as [|row rows IH]; cbn [delete_row map]; [easy|].
  intros [H|H] Hx.
  - destruct (Z.eqb_spec (assignment_id row) id); [congruence | now left].
  - destruct (Z.eqb_spec (assignment_id row) id); [assumption|].
    right. now apply IH.
Qed.

(** The lookup after a write to the row it returns. *)
Lemma find_update_row id f rows :
  (forall row, assignment_id (f row) = assignment_id row) ->
  find (selected id true) (update_row id f rows)
  = option_map f (find (selected id true) rows).
Proof.
  intros Hf. unfold selected.
  induction rows as [|row rows IH]; cbn [update_row find]; [reflexivity|].
  destruct (assignment_id row =? id) eqn:E; cbn [find].
  - rewrite Hf, E. reflexivity.
  - rewrite E. cbn [andb]. exact IH.
Qed.

Lemma set_active_id active now row :
  assignment_id (set_active active now row) = assignment_id row.
Proof. reflexivity. Qed.

Lemma validate_cases id db inc :
  match _validate_assignment_exists id db inc with
  | Ok a => 0 < id /\ find (selected id inc) (assignments db) = Some a
  | Raise e =>
      (id <= 0 /\ http_status e = Some 400) \/
      (0 < id /\ find (selected id inc) (assignments db) = None /\
       http_status e = Some 404)
  end.
Proof.
  unfold _validate_assignment_exists.
  destruct (Z.leb_spec id 0); [left; now split|].
  destruct (find _ _); [now split | right; now repeat split].
Qed.

(** The reload at the end of a write finds the row just written. *)
Lemma reload_after_update id db active now a :
  0 < id -> find (selected id true) (assignments db) = Some a ->
  _validate_assignment_exists id
    (with_assignments db (update_row id (set_active active now) (assignments db)))
    true
  = Ok (set_active active now a).
Proof.
  intros Hid Hf. unfold _validate_assignment_exists.
  destruct (Z.leb_spec id 0); [lia|]. cbn [assignments with_assignments].
  rewrite find_update_row by apply set_active_id. now rewrite Hf.
Qed.

(** A request that fails leaves the table as it was; one that succeeds
    touches no row with another id, and no submission. *)
Theorem writes_are_atomic_and_local (id now : Z) (soft_delete : bool)
    (db : Database) :
  let after_delete := delete_assignment id soft_delete now db in
  let after_activate := activate_assignment id now db in
  let after_deactivate := deactivate_assignment id now db in
  (forall e, fst after_delete = Raise e -> snd after_delete = db) /\
  (forall e, fst after_activate = Raise e -> snd after_activate = db) /\
  (forall e, fst after_deactivate = Raise e -> snd after_deactivate = db) /\
  others id (snd after_delete) = others id db /\
  others id (snd after_activate) = others id db /\
  others id (snd after_deactivate) = others id db /\
  submissions (snd after_delete) = submissions db /\
  submissions (snd after_activate) = submissions db /\
  submissions (snd after_deactivate) = submissions db.
Proof.
  cbv zeta. unfold delete_assignment, activate_assignment, deactivate_assignment.
  pose proof (validate_cases id db true) as V.
  destruct (_validate_assignment_exists id db true) as [a|e0];
    [destruct V as [Hid Hf] | repeat split; reflexivity].
  assert (U : forall active,
             others id (with_assignments db
                          (update_row id (set_active active now) (assignments db)))
             = others id db).
  { intros active. unfold others. cbn [assignments with_assignments].
    apply update_row_others, set_active_id. }
  assert (D : others id (with_assignments db (delete_row id (assignments db)))
              = others id db).
  { unfold others. cbn [assignments with_assignments]. apply delete_row_others. }
  repeat split.
  - destruct ((len (submissions_of db a) >? 0) && negb soft_delete);
      [reflexivity|]. destruct soft_delete; discriminate.
  - destruct (is_active a); [reflexivity|].
    destruct (deadline a) as [d|]; [|reflexivity].
    destruct (d <=? now); [reflexivity|].
    cbn [fst snd]. rewrite (reload_after_update id db true now a Hid Hf).
    discriminate.
  - destruct (negb (is_active a)); [reflexivity|].
    cbn [fst snd]. rewrite (reload_after_update id db false now a Hid Hf).
    discriminate.
  - destruct ((len (submissions_of db a) >? 0) && negb soft_delete);
      [reflexivity|]. destruct soft_delete; cbn [snd]; [apply U | apply D].
  - destruct (is_active a); [reflexivity|].
    destruct (deadline a) as [d|]; [|reflexivity].
    destruct (d <=? now); [reflexivity | apply U].
  - destruct (negb (is_active a)); [reflexivity | apply U].
  - destruct ((len (submissions_of db a) >? 0) && negb soft_delete);
      [reflexivity|]. destruct soft_delete; reflexivity.
  - destruct (is_active a); [reflexivity|].
    destruct (deadline a) as [d|]; [|reflexivity].
    destruct (d <=? now); reflexivity.
  - destruct (negb (is_active a)); reflexivity.
Qed.

Lemma filter_nil_not_in id l :
  (len (filter (Z.eqb id) l) >? 0) = false -> ~ In id l.
Proof.
  intros H Hin.
  assert (Hf : In id (filter (Z.eqb id) l))
    by (apply filter_In; split; [assumption | apply Z.eqb_refl]).
  destruct (filter (Z.eqb id) l); [easy|].
  unfold len in H. cbn [length] in H.
  destruct (Z.gtb_spec (Z.of_nat (S (length l0))) 0); [discriminate | lia].
Qed.

(** No request leaves a submission without its assignment: a hard delete
    goes through only for an assignment without submissions, and the other
    writes keep every row. *)
Theorem writes_keep_submissions_attached (id now : Z) (soft_delete : bool)
    (db : Database) :
  no_orphans db ->
  no_orphans (snd (delete_assignment id soft_delete now db)) /\
  no_orphans (snd (activate_assignment id now db)) /\
  no_orphans (snd (deactivate_assignment id now db)).
Proof.
  intros H.
  assert (U : forall active,
             no_orphans (with_assignments db
                           (update_row id (set_active active now) (assignments db)))).
  { intros active x Hx. cbn [assignments submissions with_assignments] in *.
    rewrite update_row_ids by apply set_active_id. now apply H. }
  unfold delete_assignment, activate_assignment, deactivate_assignment.
  pose proof (validate_cases id db true) as V.
  destruct (_validate_assignment_exists id db true) as [a|e0];
    [destruct V as [Hid Hf] | now repeat split].
  apply find_selected in Hf as (_ & Ha & _).
  repeat split.
  - destruct ((len (submissions_of db a) >? 0) && negb soft_delete) eqn:E;
      [exact H|].
    destruct soft_delete; cbn [snd]; [apply U|].
    rewrite andb_true_r in E. unfold submissions_of in E. rewrite Ha in E.
    apply filter_nil_not_in in E.
    intros x Hx. cbn [assignments submissions with_assignments] in *.
    apply delete_row_ids; [now apply H | congruence].
  - destruct (is_active a); [exact H|].
    destruct (deadline a) as [d|]; [|exact H].
    destruct (d <=? now); [exact H | apply U].
  - destruct (negb (is_active a)); [exact H | apply U].
Qed.

Lemma writes_keep_submissions_attached_witness :
  no_orphans (snd (delete_assignment 1 false 10 sample_db)) /\
  no_orphans (snd (activate_assignment 1 10 sample_db)) /\
  no_orphans (snd (deactivate_assignment 1 10 sample_db)).
Proof.
  apply (writes_keep_submissions_attached 1 10 false sample_db).
  intros x [<-|[]]. cbn. now left.
Defined.

Lemma find_unique_inactive id rows a :
  NoDup (map assignment_id rows) ->
  find (selected id true) rows = Some a -> is_active a = false ->
  find (selected id false) rows = None.
Proof.
  unfold selected. induction rows as [|row rows IH]; cbn [find map];
    [discriminate|].
  intros Hnd. inversion Hnd as [|x l Hx Hnd']; subst.
  destruct (Z.eqb_spec (assignment_id row) id) as [E|E]; cbn [andb orb].
  - intros Hf Ha. injection Hf as ->. rewrite Ha.
    match goal with
    | |- find ?f rows = None => destruct (find f rows) as [b|] eqn:Fb
    end; [|reflexivity].
    apply find_some in Fb as [Hin Hb]. apply andb_true_iff in Hb as [Hb _].
    apply Z.eqb_eq in Hb. elim Hx. rewrite E, <- Hb. now apply in_map.
  - now apply IH.
Qed.

(** Deactivating hides an assignment from the default lookup and keeps it
    for the lookup that includes inactive rows; a second deactivation is
    refused with 400; and an activation before the deadline brings the
    row back as it was, but for its update time. *)
Theorem deactivate_then_activate (id now now' : Z) (db db1 : Database)
    (r : AssignmentRead) :
  unique_ids db ->
  deactivate_assignment id now db = (Ok r, db1) ->
  exists a,
    find (selected id true) (assignments db) = Some a /\
    is_active a = true /\ r = _to_read a /\
    get_assignment id true db1 = Ok r /\
    (exists e, get_assignment id false db1 = Raise e /\
               http_status e = Some 404) /\
    (exists e, deactivate_assignment id now' db1 = (Raise e, db1) /\
               http_status e = Some 400) /\
    (forall d, deadline a = Some d -> now' < d ->
       activate_assignment id now' db1
       = (Ok r, with_assignments db
                  (update_row id (set_active true now') (assignments db)))) /\
    (forall d, deadline a = Some d -> d <= now' ->
       exists e, activate_assignment id now' db1 = (Raise e, db1) /\
                 http_status e = Some 400).
Proof.
  intros Hu. unfold deactivate_assignment.
  pose proof (validate_cases id db true) as V.
  destruct (_validate_assignment_exists id db true) as [a|e0]; [|discriminate].
  destruct V as [Hid Hf].
  destruct (is_active a) eqn:Ha; cbn [negb]; [|discriminate].
  rewrite (reload_after_update id db false now a Hid Hf). cbn [res_bind].
  intros H. injection H as <- <-.
  set (db1 := with_assignments db
                (update_row id (set_active false now) (assignments db))).
  assert (F1 : find (selected id true) (assignments db1)
               = Some (set_active false now a)).
  { unfold db1. cbn [assignments with_assignments].
    rewrite find_update_row by apply set_active_id. now rewrite Hf. }
  assert (V1 : _validate_assignment_exists id db1 true
               = Ok (set_active false now a)).
  { unfold _validate_assignment_exists.
    destruct (Z.leb_spec id 0); [lia|]. now rewrite F1. }
  assert (Hu1 : NoDup (map assignment_id (assignments db1))).
  { unfold db1. cbn [assignments with_assignments].
    rewrite update_row_ids by apply set_active_id. exact Hu. }
  assert (Htwice : forall active,
             update_row id (set_active active now') (assignments db1)
             = update_row id (set_active active now') (assignments db)).
  { intros active. unfold db1. cbn [assignments with_assignments].
    clear. induction (assignments db) as [|row rows IH]; cbn [update_row];
      [reflexivity|].
    destruct (assignment_id row =? id) eqn:E; cbn [update_row].
    - cbn [assignment_id set_active]. rewrite E. reflexivity.
    - rewrite E. now rewrite IH. }
  exists a. split; [exact Hf|]. split; [exact Ha|]. split; [reflexivity|].
  split; [|split; [|split; [|split]]].
  - unfold get_assignment. now rewrite V1.
  - unfold get_assignment, _validate_assignment_exists.
    destruct (Z.leb_spec id 0); [lia|].
    rewrite (find_unique_inactive id (assignments db1) _ Hu1 F1 eq_refl).
    eexists. split; reflexivity.
  - unfold deactivate_assignment. rewrite V1. cbn.
    eexists. split; reflexivity.
  - intros d Hd Hlt. unfold activate_assignment. rewrite V1.
    cbn [is_active set_active deadline]. rewrite Hd.
    destruct (Z.leb_spec d now'); [lia|].
    rewrite Htwice.
    assert (W : forall rows, with_assignments db1 rows = with_assignments db rows)
      by reflexivity.
    rewrite W.
    rewrite (reload_after_update id db true now' a Hid Hf). reflexivity.
  - intros d Hd Hle. unfold activate_assignment. rewrite V1.
    cbn [is_active set_active deadline]. rewrite Hd.
    destruct (Z.leb_spec d now'); [|lia].
    eexists. split; reflexivity.
Qed.

Lemma deactivate_then_activate_witness :
  exists a,
    find (selected 1 true) (assignments sample_db) = Some a /\
    is_active a = true /\
    _to_read (sample_row 1 true (Some 100)) = _to_read a /\
    get_assignment 1 true (snd (deactivate_assignment 1 10 sample_db))
    = Ok (_to_read (sample_row 1 true (Some 100))) /\
    (exists e,
       get_assignment 1 false (snd (deactivate_assignment 1 10 sample_db))
       = Raise e /\ http_status e = Some 404) /\
    (exists e,
       deactivate_assignment 1 20 (snd (deactivate_assignment 1 10 sample_db))
       = (Raise e, snd (deactivate_assignment 1 10 sample_db)) /\
       http_status e = Some 400) /\
    (forall d, deadline a = Some d -> 20 < d ->
       activate_assignment 1 20 (snd (deactivate_assignment 1 10 sample_db))
       = (Ok (_to_read (sample_row 1 true (Some 100))),
          with_assignments sample_db
            (update_row 1 (set_active true 20) (assignments sample_db)))) /\
    (forall d, deadline a = Some d -> d <= 20 ->
       exists e,
         activate_assignment 1 20 (snd (deactivate_assignment 1 10 sample_db))
         = (Raise e, snd (deactivate_assignment 1 10 sample_db)) /\
         http_status e = Some 400).
Proof.
  apply (deactivate_then_activate 1 10 20 sample_db
           (snd (deactivate_assignment 1 10 sample_db))
           (_to_read (sample_row 1 true (Some 100)))).
  - unfold unique_ids. cbn. repeat constructor; cbn; intuition discriminate.
  - reflexivity.
Defined.

End CrudFacts.

(** ** The answers the parser attaches *)

Lemma search_from_run r : forall rest pos m,
  Re.search_from r pos rest = Some m ->
  exists i,
    Re.m_start m = (pos + i)%nat /\
    Re.run r Re.finish (pos + i) (skipn i rest) None
    = Some (Re.m_end m, Re.m_caps m).
Proof.
  induction rest as [|x rest IH]; intros pos m; cbn [Re.search_from].
  - destruct (Re.run r Re.finish pos [] None) as [[e c]|] eqn:E; [|discriminate].
    intros H. injection H as <-. exists 0%nat. rewrite Nat.add_0_r.
    split; [reflexivity | exact E].
  - destruct (Re.run r Re.finish pos (x :: rest) None) as [[e c]|] eqn:E.
    + intros H. injection H as <-. exists 0%nat. rewrite Nat.add_0_r.
      split; [reflexivity | exact E].
    + intros H. apply IH in H as (i & Hs & Hr).
      exists (S i). replace (pos + S i)%nat with (S pos + i)%nat by lia.
      split; [exact Hs | exact Hr].
Qed.

(** A literal word under IGNORECASE takes as many characters as it has,
    each equal to its own up to case. *)
Lemma run_word_ci : forall w k pos rest c m,
  w <> [] ->
  Re.run (Re.word_ci w) k pos rest c = Some m ->
  exists v rest',
    rest = v ++ rest' /\
    Forall2 (fun x y => lower_char x = lower_char y) v w /\
    k (pos + length w)%nat rest' c = Some m.
Proof.
  induction w as [|y w IH]; intros k pos rest c m Hne; [easy|].
  destruct w as [|y' w].
  - cbn [Re.word_ci Re.run]. unfold Re.ci. cbn [Re.run].
    destruct rest as [|x rest]; [discriminate|].
    destruct (Ascii.eqb_spec (lower_char x) (lower_char y)); [|discriminate].
    intros H. exists [x], rest. cbn [length].
    replace (pos + 1)%nat with (S pos) by lia.
    repeat split; [|exact H]. now repeat constructor.
  - change (Re.word_ci (y :: y' :: w))
      with (Re.Seq (Re.ci y) (Re.word_ci (y' :: w))).
    cbn [Re.run]. unfold Re.ci at 1. cbn [Re.run].
    destruct rest as [|x rest]; [discriminate|].
    destruct (Ascii.eqb_spec (lower_char x) (lower_char y)); [|discriminate].
    intros H. apply IH in H as (v & rest' & -> & F & K); [|discriminate].
    exists (x :: v), rest'. cbn [length] in *.
    replace (pos + S (S (length w)))%nat with (S pos + S (length w))%nat by lia.
    repeat split; [|exact K]. now constructor.
Qed.

Lemma star_greedy_continues p k : forall rest pos c m,
  Re.star_greedy p k pos rest c = Some m ->
  exists n, k (pos + n)%nat (skipn n rest) c = Some m.
Proof.
  induction rest as [|x rest IH]; intros pos c m; cbn [Re.star_greedy].
  - intros H. exists 0%nat. now rewrite Nat.add_0_r.
  - destruct (p x).
    + destruct (Re.star_greedy p k (S pos) rest c) as [m'|] eqn:E.
      * intros H. injection H as <-. apply IH in E as (n & E).
        exists (S n). replace (pos + S n)%nat with (S pos + n)%nat by lia.
        exact E.
      * intros H. exists 0%nat. now rewrite Nat.add_0_r.
    + intros H. exists 0%nat. now rewrite Nat.add_0_r.
Qed.

Lemma skipn_app_exact {A : Type} (v rest : list A) :
  skipn (length v) (v ++ rest) = rest.
Proof. now rewrite skipn_app, skipn_all, Nat.sub_diag. Qed.

Lemma Forall2_length_eq {A B : Type} (P : A -> B -> Prop) l1 l2 :
  Forall2 P l1 l2 -> length l1 = length l2.
Proof. induction 1; cbn; congruence. Qed.

(** After [ANSWER:] and the blanks that follow it, the group of a pattern
    is tried at a position of the text. *)
Lemma run_after_answer_mark g pos rest e c :
  Re.run (Re.Seq Re.answer_mark (Re.Seq (Re.Star is_space) g))
    Re.finish pos rest None = Some (e, c) ->
  exists n,
    Re.run g Re.finish (pos + n)%nat (skipn n rest) None = Some (e, c).
Proof.
  cbn [Re.run]. unfold Re.answer_mark. intros H.
  apply run_word_ci in H as (v & r1 & -> & F & K); [|discriminate].
  cbn [Re.run] in K. apply star_greedy_continues in K as (n & K).
  pose proof (Forall2_length_eq _ _ _ F) as L.
  exists (n + length v)%nat.
  rewrite <- skipn_skipn, skipn_app_exact.
  replace (pos + (n + length v))%nat
    with (pos + length (lit "ANSWER:") + n)%nat by lia.
  exact K.
Qed.

(** The group of a match found in [part] is a piece of [part]. *)
Lemma group1_at part pos n v rest' :
  skipn (pos + n) part = v ++ rest' ->
  Re.group1 part (Re.Match pos (pos + n + length v)
                    (Some ((pos + n)%nat, (pos + n + length v)%nat)))
  = v.
Proof.
  intros H. unfold Re.group1. cbn [Re.m_caps].
  replace (pos + n + length v - (pos + n))%nat with (length v) by lia.
  rewrite H. now rewrite firstn_app, firstn_all, Nat.sub_diag, app_nil_r.
Qed.

Lemma upper_of_t x : lower_char x = "t"%char -> upper_char x = "T"%char.
Proof.
  destruct x as [[] [] [] [] [] [] [] []]; intros H; vm_compute in H |- *;
    first [reflexivity | discriminate H].
Qed.

Lemma upper_of_f x : lower_char x = "f"%char -> upper_char x = "F"%char.
Proof.
  destruct x as [[] [] [] [] [] [] [] []]; intros H; vm_compute in H |- *;
    first [reflexivity | discriminate H].
Qed.

Lemma upper_of_option_letter x :
  between 97 100 (lower_char x) = true ->
  In (upper_char x) option_letters.
Proof.
  destruct x as [[] [] [] [] [] [] [] []]; intros H; vm_compute in H |- *;
    first [discriminate H | tauto].
Qed.

Lemma lower_of_word v w :
  Forall2 (fun x y => lower_char x = lower_char y) v w -> lower v = lower w.
Proof. unfold lower. induction 1; cbn [map]; congruence. Qed.

(** The text of the group of a true/false answer, capitalised. *)
Lemma tf_answer_capitalised part m :
  Re.search Re.tf_answer_pat part = Some m ->
  capitalize (Re.group1 part m) = lit "True" \/
  capitalize (Re.group1 part m) = lit "False".
Proof.
  unfold Re.search. intros H.
  apply search_from_run in H as (i & Hs & Hr). cbn [Nat.add skipn] in *.
  unfold Re.tf_answer_pat in Hr.
  apply run_after_answer_mark in Hr as (n & Hr).
  rewrite skipn_skipn in Hr. cbn [Re.run] in Hr.
  set (k := fun (pos' : nat) (rest' : str) (_ : Re.caps) =>
              Re.finish pos' rest' (Some ((i + n)%nat, pos'))) in Hr.
  assert (Hcase : forall w,
             w <> [] ->
             Re.run (Re.word_ci w) k (i + n) (skipn (n + i) part) None
             = Some (Re.m_end m, Re.m_caps m) ->
             exists v, Forall2 (fun x y => lower_char x = lower_char y) v w /\
                       Re.group1 part m = v).
  { intros w Hne Hw.
    apply run_word_ci in Hw as (v & rest' & E & F & K); [|exact Hne].
    unfold k, Re.finish in K. injection K as Ke Kc.
    exists v. split; [exact F|].
    destruct m as [ms me mc]. cbn [Re.m_start Re.m_end Re.m_caps] in *.
    subst ms mc. rewrite <- Ke.
    rewrite <- (Forall2_length_eq _ _ _ F).
    replace (i + n + length v)%nat with (0 + (i + n) + length v)%nat by lia.
    unfold Re.group1. cbn [Re.m_caps].
    replace (0 + (i + n) + length v - (i + n))%nat with (length v) by lia.
    replace (i + n)%nat with (n + i)%nat by lia. rewrite E.
    now rewrite firstn_app, firstn_all, Nat.sub_diag, app_nil_r. }
  destruct (Re.run (Re.word_ci (lit "True")) k (i + n) (skipn (n + i) part) None)
    as [m1|] eqn:E1.
  - injection Hr as ->. apply Hcase in E1 as (v & F & ->); [|discriminate].
    left. inversion F as [|x y v' w' Hx F']; subst.
    cbn [capitalize]. rewrite (lower_of_word _ _ F').
    now rewrite (upper_of_t x Hx).
  - apply Hcase in Hr as (v & F & ->); [|discriminate].
    right. inversion F as [|x y v' w' Hx F']; subst.
    cbn [capitalize]. rewrite (lower_of_word _ _ F').
    now rewrite (upper_of_f x Hx).
Qed.

(** The letter of the group of a multiple-choice answer, in upper case. *)
Lemma mcq_answer_upper part m :
  Re.search Re.mcq_answer_pat part = Some m ->
  exists letter, In letter option_letters /\
                 upper (Re.group1 part m) = [letter].
Proof.
  unfold Re.search. intros H.
  apply search_from_run in H as (i & Hs & Hr). cbn [Nat.add skipn] in *.
  unfold Re.mcq_answer_pat in Hr.
  apply run_after_answer_mark in Hr as (n & Hr).
  rewrite skipn_skipn in Hr. unfold Re.opt_letter in Hr. cbn [Re.run] in Hr.
  destruct (skipn (n + i) part) as [|x rest'] eqn:E; [discriminate|].
  destruct (between 97 100 (lower_char x)) eqn:B; [|discriminate].
  unfold Re.finish in Hr. injection Hr as He Hc.
  exists (upper_char x). split; [now apply upper_of_option_letter|].
  unfold Re.group1. rewrite <- Hc.
  replace (S (i + n) - (i + n))%nat with 1%nat by lia.
  replace (i + n)%nat with (n + i)%nat by lia. now rewrite E.
Qed.

(** A multiple-choice question is the printed question and options,
    stripped; an answer is attached exactly when answers are requested and
    the answer pattern matches, and it then reads "Correct Answer: "
    followed by one of the capitals A, B, C, D, whatever the case of the
    letter in the response. *)
Theorem mcq_answer_is_capital_letter (include_answers : bool) (part q : str) :
  parse_mcq include_answers part = Ok (Some q) ->
  exists q_match body,
    Re.search Re.mcq_question_pat part = Some q_match /\
    format_options (collect_options part) option_letters
      (lit "Question: " ++ strip (Re.group1 part q_match) ++ [Re.newline])
    = Ok body /\
    match (if include_answers then Re.search Re.mcq_answer_pat part
           else None) with
    | None => q = strip body
    | Some _ =>
        exists letter, In letter option_letters /\
                       q = strip (body ++ lit "Correct Answer: " ++ [letter])
    end.
Proof.
  unfold parse_mcq.
  destruct (Re.search Re.mcq_question_pat part) as [qm|]; [|discriminate].
  destruct (len (collect_options part) =? 4); [|discriminate].
  destruct (format_options _ _ _) as [formatted|e] eqn:F; cbn [res_bind];
    [|discriminate].
  intros H. injection H as <-. exists qm, formatted.
  split; [reflexivity|]. split; [exact F|].
  destruct include_answers; [|reflexivity].
  destruct (Re.search Re.mcq_answer_pat part) as [am|] eqn:A; [|reflexivity].
  destruct (mcq_answer_upper part am A) as (letter & Hin & ->).
  now exists letter.
Qed.

Lemma mcq_answer_is_capital_letter_witness :
  exists q_match body,
    Re.search Re.mcq_question_pat segment_abcd = Some q_match /\
    format_options (collect_options segment_abcd) option_letters
      (lit "Question: " ++ strip (Re.group1 segment_abcd q_match)
         ++ [Re.newline])
    = Ok body /\
    match (if true then Re.search Re.mcq_answer_pat segment_abcd
           else None) with
    | None => answered_mcq = strip body
    | Some _ =>
        exists letter, In letter option_letters /\
          answered_mcq = strip (body ++ lit "Correct Answer: " ++ [letter])
    end.
Proof.
  apply (mcq_answer_is_capital_letter true segment_abcd answered_mcq).
  reflexivity.
Defined.

(** A true/false question is "Question: " and the stripped statement; an
    answer is attached exactly when answers are requested and the answer
    pattern matches, and it then reads exactly "Answer: True" or "Answer:
    False" on a line of its own, whatever the case of the word in the
    response (over the code points of [str]). *)
Theorem truefalse_answer_is_canonical (include_answers : bool) (part q : str) :
  parse_truefalse include_answers part = Ok (Some q) ->
  exists stmt_match,
    Re.search Re.statement_pat part = Some stmt_match /\
    let question := lit "Question: " ++ strip (Re.group1 part stmt_match) in
    match (if include_answers then Re.search Re.tf_answer_pat part
           else None) with
    | None => q = question
    | Some _ =>
        q = question ++ [Re.newline] ++ lit "Answer: True" \/
        q = question ++ [Re.newline] ++ lit "Answer: False"
    end.
Proof.
  unfold parse_truefalse.
  destruct (Re.search Re.statement_pat part) as [sm|]; [|discriminate].
  intros H. injection H as <-. exists sm. split; [reflexivity|].
  cbv zeta.
  destruct include_answers; [|reflexivity].
  destruct (Re.search Re.tf_answer_pat part) as [am|] eqn:A; [|reflexivity].
  destruct (tf_answer_capitalised part am A) as [-> | ->]; [now left | now right].
Qed.

Lemma truefalse_answer_is_canonical_witness :
  exists stmt_match,
    Re.search Re.statement_pat shouted_answer = Some stmt_match /\
    let question :=
      lit "Question: " ++ strip (Re.group1 shouted_answer stmt_match) in
    match (if true then Re.search Re.tf_answer_pat shouted_answer
           else None) with
    | None => answered_truefalse = question
    | Some _ =>
        answered_truefalse
        = question ++ [Re.newline] ++ lit "Answer: True" \/
        answered_truefalse
        = question ++ [Re.newline] ++ lit "Answer: False"
    end.
Proof.
  apply (truefalse_answer_is_canonical true shouted_answer answered_truefalse).
  reflexivity.
Defined.

(** ** The counts the module passes to generate_question_batch *)

(** For a request of the endpoint, whose total lies between 1 and 50,
    every quota the loop passes lies between 1 and 51, far below the
    largest count the interpreter prints. *)
Lemma endpoint_quotas_within_limit {T : Type} (num_questions : Z)
    (types : list T) :
  types <> [] -> 1 <= num_questions <= 50 ->
  Forall (fun q => 1 <= q <= 51 /\ 0 <= q < 10 ^ int_max_str_digits)
    (plan num_questions types).
Proof.
  intros Hne Hn.
  assert (Hk : 0 < len types) by (destruct types; [easy | unfold len; cbn; lia]).
  pose proof (Z.mod_pos_bound num_questions (len types) Hk) as Hm.
  assert (Hb : 1 <= questions_per_type num_questions types <= 50).
  { unfold questions_per_type.
    assert (num_questions / len types <= num_questions)
      by (apply Z.div_le_upper_bound; nia).
    lia. }
  assert (Hbig : 51 < 10 ^ int_max_str_digits) by (vm_compute; reflexivity).
  unfold plan, remaining0. rewrite quota_walk_shape by lia.
  apply Forall_app. split; apply Forall_forall; intros q Hq;
    apply repeat_spec in Hq; lia.
Qed.
